(** * WebAudioMixer: a shallow embedding of the Emscripten audio mixer

    Source files embedded here:
    - [src/openrct2-ui/audio/WebAudioMixer.h]   (class [WebAudioMixer])
    - [src/openrct2-ui/audio/WebAudioMixer.cpp] (class [WebAudioChannel] and
      the mixer's member functions)

    Conventions.
    - [int32_t] values are integers of [Z]; the increment of the channel-id
      counter and the narrowing cast of the frame count have their 32-bit
      wrap-around written out ([wrap32]).
    - [float] and [double] values are real numbers of [R]: rounding is not
      modelled.  The one quotient whose divisor comes from a captured
      format is kept in the type [double], which has the IEEE results of a
      division by zero as separate constructors.
    - Channel objects live in a store ([heap]) and are named by their
      address ([handle]); the live collection, the registry and the
      application all refer to the same object.
    - Every member function returns the new world and the list of events it
      produced: the calls into the JavaScript backend, the acquisition and
      release of [_mutex], and the mutations of [_channels] and
      [_channelMap]. *)

From Stdlib Require Import ZArith Reals Lra Lia.
From Stdlib.Strings Require Import Byte.
From stdpp Require Import base list gmap.

Open Scope Z_scope.

(** The operations on real numbers stay folded under [simpl] and [cbn]. *)
Arguments Rmin : simpl never.
Arguments Rmax : simpl never.
Arguments Rabs : simpl never.
Arguments Rpower : simpl never.
Arguments Rle_dec : simpl never.
Arguments Rlt_dec : simpl never.
Arguments Req_dec_T : simpl never.
Arguments Int_part : simpl never.
Arguments IZR : simpl never.

(** ** Machine arithmetic *)

Definition INT32_MAX : Z := 2147483647.
Definition INT32_MIN : Z := -2147483648.

(** Two's complement reduction to 32 bits: what [i32.add] leaves in an
    [int32_t] and what [static_cast<int32_t>] does to a wider value. *)
Definition wrap32 (z : Z) : Z := (z + 2^31) mod 2^32 - 2^31.

(** [std::clamp(v, lo, hi)] *)
Definition clampZ (v lo hi : Z) : Z :=
  if v <? lo then lo else if hi <? v then hi else v.

Definition clampR (v lo hi : R) : R :=
  if Rlt_dec v lo then lo else if Rlt_dec hi v then hi else v.

(** [pow] and [powf] of [<cmath>] on the part of their domain that has a
    real result: a non-negative base.  [Rpower x y] is [exp (y * ln x)],
    which is only meaningful for [0 < x], so the base 0 is a case of its
    own. *)
Definition pow (x y : R) : R :=
  if Req_dec_T x 0 then (if Req_dec_T y 0 then 1%R else 0%R) else Rpower x y.

Arguments clampR : simpl never.
Arguments pow : simpl never.

(** An IEEE quotient: a real number, or what a zero divisor gives. *)
Inductive double : Type :=
  | Finite (r : R)
  | NaN
  | Infinity.

(** [static_cast<double>(x) / d] for an unsigned [x] and an integer [d]. *)
Definition fdiv (x : Z) (d : Z) : double :=
  if d =? 0 then (if x =? 0 then NaN else Infinity)
  else Finite (IZR x / IZR d).

(** [static_cast<uint64_t>] of a double: the fraction is dropped, towards
    zero; what is left is taken in 64 bits. *)
Definition to_uint64 (r : R) : Z :=
  (if Rle_dec 0 r then Int_part r else - Int_part (- r)) mod 2^64.

(** ** Collaborators that are declared outside the two source files *)

(** Modelled from the spec: [AudioFormat] ([AudioFormat.h] is not among the
    sources).  The captured format is "sample format, channel count, sample
    rate", and bytes per second is "sample rate x channel count x bytes per
    sample".  The sample format is SDL's 16-bit code, whose low byte is the
    sample size in bits. *)
Record AudioFormat : Type := mkAudioFormat {
  freq : Z;
  format : Z;
  channels : Z
}.

Definition AUDIO_U8 : Z := 0x0008.
Definition AUDIO_S16SYS : Z := 0x8010.

Definition BytesPerSample (f : AudioFormat) : Z := Z.land (format f) 0xFF / 8.

Definition GetBytesPerSecond (f : AudioFormat) : Z :=
  freq f * channels f * BytesPerSample f.

(** Modelled from the spec: [SDLAudioSource] ([SDLAudioSource.h] is not
    among the sources): an audio source "provides raw sample format, total
    length in bytes, and a read operation over an arbitrary byte range";
    the pool asks it whether it has been released. *)
Record SDLAudioSource : Type := mkSource {
  GetFormat : AudioFormat;
  source_data : list byte;
  IsReleased : bool
}.

Definition GetLength (s : SDLAudioSource) : Z := Z.of_nat (length (source_data s)).

(** An [IAudioSource*] that is not null points to an [SDLAudioSource] or to
    an object of some other class, for which the [dynamic_cast] gives null. *)
Inductive IAudioSource : Type :=
  | IsSDLAudioSource (s : SDLAudioSource)
  | OtherAudioSource.

(** [MixerGroup] of [AudioMixer.h]. *)
Inductive MixerGroup : Type := Sound | RideMusic | TitleMusic.

(** What the mixer reads of [Config::Get().sound] and of [gLegacyScene]. *)
Record Config : Type := mkConfig {
  soundVolume : Z;
  rideMusicVolume : Z;
  masterSoundEnabled : bool;
  masterVolume : Z;
  titleSequence : bool
}.

(** ** The backend interface and the events of an execution *)

Inductive command : Type :=
  | WebAudioPlayChannel
      (channelId nchannels frames sampleRate : Z) (data : list R) (loop : Z)
      (rate volume pan : R) (offsetSeconds : double)
  | WebAudioUpdateChannel
      (channelId : Z) (rate volume pan : R) (offsetSeconds : double) (restart : Z)
  | WebAudioStopChannel (channelId : Z).

Inductive structure : Type := LiveChannels | Registry | SourcePool.

Inductive event : Type :=
  | MutexLock
  | MutexUnlock
  | Mutate (s : structure)
  | Backend (c : command).

Abbreviation trace := (list event) (only parsing).

(** ** WebAudioChannel *)

(** The address of a channel object in the store. *)
Abbreviation handle := nat (only parsing).

Record WebAudioChannel : Type := mkChannel {
  c_channelId : Z;
  c_source : option IAudioSource;
  c_format : AudioFormat;
  c_offsetBytes : Z;
  c_group : MixerGroup;
  c_rate : R;
  c_loop : Z;
  c_volume : Z;
  c_volume_l : R;
  c_volume_r : R;
  c_oldvolume_l : R;
  c_oldvolume_r : R;
  c_oldvolume : Z;
  c_pan : R;
  c_stopping : bool;
  c_done : bool;
  c_deleteondone : bool
}.

(** The member initialisers of the class (lines 315-335). *)
Definition channel_fields (channelId : Z) : WebAudioChannel :=
  {| c_channelId := channelId;
     c_source := None;
     c_format := mkAudioFormat 0 0 0;
     c_offsetBytes := 0;
     c_group := Sound;
     c_rate := 0;
     c_loop := 0;
     c_volume := 1;
     c_volume_l := 0;
     c_volume_r := 0;
     c_oldvolume_l := 0;
     c_oldvolume_r := 0;
     c_oldvolume := 0;
     c_pan := 0;
     c_stopping := false;
     c_done := true;
     c_deleteondone := false |}.

(** Assignments to the members of a channel. *)
Definition with_source (s : option IAudioSource) (c : WebAudioChannel) : WebAudioChannel :=
  let '(mkChannel i src fmt off grp rt lp vol vl vr ovl ovr ov pn stp dn dod) := c in
  mkChannel i s fmt off grp rt lp vol vl vr ovl ovr ov pn stp dn dod.

Definition with_format (f : AudioFormat) (c : WebAudioChannel) : WebAudioChannel :=
  let '(mkChannel i src fmt off grp rt lp vol vl vr ovl ovr ov pn stp dn dod) := c in
  mkChannel i src f off grp rt lp vol vl vr ovl ovr ov pn stp dn dod.

Definition with_offsetBytes (o : Z) (c : WebAudioChannel) : WebAudioChannel :=
  let '(mkChannel i src fmt off grp rt lp vol vl vr ovl ovr ov pn stp dn dod) := c in
  mkChannel i src fmt o grp rt lp vol vl vr ovl ovr ov pn stp dn dod.

Definition with_group (g : MixerGroup) (c : WebAudioChannel) : WebAudioChannel :=
  let '(mkChannel i src fmt off grp rt lp vol vl vr ovl ovr ov pn stp dn dod) := c in
  mkChannel i src fmt off g rt lp vol vl vr ovl ovr ov pn stp dn dod.

Definition with_rate (r : R) (c : WebAudioChannel) : WebAudioChannel :=
  let '(mkChannel i src fmt off grp rt lp vol vl vr ovl ovr ov pn stp dn dod) := c in
  mkChannel i src fmt off grp r lp vol vl vr ovl ovr ov pn stp dn dod.

Definition with_loop (l : Z) (c : WebAudioChannel) : WebAudioChannel :=
  let '(mkChannel i src fmt off grp rt lp vol vl vr ovl ovr ov pn stp dn dod) := c in
  mkChannel i src fmt off grp rt l vol vl vr ovl ovr ov pn stp dn dod.

Definition with_volume (v : Z) (c : WebAudioChannel) : WebAudioChannel :=
  let '(mkChannel i src fmt off grp rt lp vol vl vr ovl ovr ov pn stp dn dod) := c in
  mkChannel i src fmt off grp rt lp v vl vr ovl ovr ov pn stp dn dod.

Definition with_pan (p l r : R) (c : WebAudioChannel) : WebAudioChannel :=
  let '(mkChannel i src fmt off grp rt lp vol vl vr ovl ovr ov pn stp dn dod) := c in
  mkChannel i src fmt off grp rt lp vol l r ovl ovr ov p stp dn dod.

Definition with_oldvolume (v : Z) (l r : R) (c : WebAudioChannel) : WebAudioChannel :=
  let '(mkChannel i src fmt off grp rt lp vol vl vr ovl ovr ov pn stp dn dod) := c in
  mkChannel i src fmt off grp rt lp vol vl vr l r v pn stp dn dod.

Definition with_stopping (b : bool) (c : WebAudioChannel) : WebAudioChannel :=
  let '(mkChannel i src fmt off grp rt lp vol vl vr ovl ovr ov pn stp dn dod) := c in
  mkChannel i src fmt off grp rt lp vol vl vr ovl ovr ov pn b dn dod.

Definition with_done (b : bool) (c : WebAudioChannel) : WebAudioChannel :=
  let '(mkChannel i src fmt off grp rt lp vol vl vr ovl ovr ov pn stp dn dod) := c in
  mkChannel i src fmt off grp rt lp vol vl vr ovl ovr ov pn stp b dod.

Definition with_deleteondone (b : bool) (c : WebAudioChannel) : WebAudioChannel :=
  let '(mkChannel i src fmt off grp rt lp vol vl vr ovl ovr ov pn stp dn dod) := c in
  mkChannel i src fmt off grp rt lp vol vl vr ovl ovr ov pn stp dn b.

(** The pan law in the words of the specification, for comparison with
    [SetPan] below: the attenuation in decibels, the linear gain, and the
    gain of each side as a function of the pan that is asked for. *)
Definition spec_pan (p : R) : R := Rmax 0 (Rmin p 1).

Definition spec_attenuation_dB (p : R) : R := (Rabs (p - 1/2) * 2 * 100)%R.

Definition spec_linearGain (p : R) : R := Rpower 10 (spec_attenuation_dB p / 20).

Definition spec_leftGain (p : R) : R :=
  if Rle_dec (spec_pan p) (1/2) then 1%R else (/ spec_linearGain (spec_pan p))%R.

Definition spec_rightGain (p : R) : R :=
  if Rle_dec (spec_pan p) (1/2) then (/ spec_linearGain (spec_pan p))%R else 1%R.

(** ** WebAudioMixer *)

Record WebAudioMixer : Type := mkMixer {
  _nextChannelId : Z;
  _volume : R;
  _settingSoundVolume : Z;
  _settingMusicVolume : Z;
  _adjustSoundVolume : R;
  _adjustMusicVolume : R;
  _channels : list handle;
  _channelMap : gmap Z handle;
  _sources : list SDLAudioSource
}.

(** The member initialisers of [WebAudioMixer.h], lines 58-69. *)
Definition mixer_fields : WebAudioMixer :=
  {| _nextChannelId := 1;
     _volume := 1;
     _settingSoundVolume := -1;
     _settingMusicVolume := -1;
     _adjustSoundVolume := 1;
     _adjustMusicVolume := 1;
     _channels := [];
     _channelMap := ∅;
     _sources := [] |}.

(** The world: the channel objects, the [shared_ptr]s the application still
    holds, the mixer, the configuration and the playback position the
    backend would report for an identifier. *)
Record World : Type := mkWorld {
  heap : list WebAudioChannel;
  held : list handle;
  mixer : WebAudioMixer;
  config : Config;
  WebAudioGetOffsetSeconds : Z → R
}.

Definition set_heap (hp : list WebAudioChannel) (w : World) : World :=
  let '(mkWorld _ hl m cfg pos) := w in mkWorld hp hl m cfg pos.

Definition set_held (l : list handle) (w : World) : World :=
  let '(mkWorld hp _ m cfg pos) := w in mkWorld hp l m cfg pos.

Definition set_mixer (m : WebAudioMixer) (w : World) : World :=
  let '(mkWorld hp hl _ cfg pos) := w in mkWorld hp hl m cfg pos.

Definition set_config (cfg : Config) (w : World) : World :=
  let '(mkWorld hp hl m _ pos) := w in mkWorld hp hl m cfg pos.

Definition with_nextChannelId (n : Z) (m : WebAudioMixer) : WebAudioMixer :=
  let '(mkMixer _ vol ss sm as_ am chs map srcs) := m in
  mkMixer n vol ss sm as_ am chs map srcs.

Definition with_master (v : R) (m : WebAudioMixer) : WebAudioMixer :=
  let '(mkMixer n _ ss sm as_ am chs map srcs) := m in
  mkMixer n v ss sm as_ am chs map srcs.

Definition with_sound (setting : Z) (adjust : R) (m : WebAudioMixer) : WebAudioMixer :=
  let '(mkMixer n vol _ sm _ am chs map srcs) := m in
  mkMixer n vol setting sm adjust am chs map srcs.

Definition with_music (setting : Z) (adjust : R) (m : WebAudioMixer) : WebAudioMixer :=
  let '(mkMixer n vol ss _ as_ _ chs map srcs) := m in
  mkMixer n vol ss setting as_ adjust chs map srcs.

Definition with_channels (l : list handle) (m : WebAudioMixer) : WebAudioMixer :=
  let '(mkMixer n vol ss sm as_ am _ map srcs) := m in
  mkMixer n vol ss sm as_ am l map srcs.

Definition with_channelMap (r : gmap Z handle) (m : WebAudioMixer) : WebAudioMixer :=
  let '(mkMixer n vol ss sm as_ am chs _ srcs) := m in
  mkMixer n vol ss sm as_ am chs r srcs.

Definition with_sources (l : list SDLAudioSource) (m : WebAudioMixer) : WebAudioMixer :=
  let '(mkMixer n vol ss sm as_ am chs map _) := m in
  mkMixer n vol ss sm as_ am chs map l.

(** A statement of a member function: the world after it and the events it
    produced. *)
Definition step : Type := World → World * trace.

Definition skip : step := λ w, (w, []).
Definition emit (e : event) : step := λ w, (w, [e]).
Definition modify (f : World → World) : step := λ w, (f w, []).
Definition modify_mixer (f : WebAudioMixer → WebAudioMixer) : step :=
  modify (λ w, set_mixer (f (mixer w)) w).
Definition seq (f g : step) : step :=
  λ w, let r := f w in let r' := g r.1 in (r'.1, r.2 ++ r'.2).

Declare Scope step_scope.
Delimit Scope step_scope with step.
Notation "f ;; g" := (seq f g)
  (at level 100, g at level 200, right associativity) : step_scope.

(** A member function of a channel: the object after it, and what the call
    does to the rest of the world. *)
Definition method : Type := WebAudioChannel → WebAudioChannel * step.

(** The identifier of the object at an address (0 for no object). *)
Definition id_of (w : World) (h : handle) : Z :=
  from_option c_channelId 0 (heap w !! h).

Section Mixer.

(** [kMixerVolumeMax] is declared in [AudioMixer.h] and the conversion is
    SDL's ([SDL_BuildAudioCVT] followed by [SDL_ConvertAudio], with [None]
    when either fails); both are taken as they come. *)
Variable kMixerVolumeMax : Z.
Variable SDL_ConvertAudio : AudioFormat → list byte → option (list byte).

(** *** Volume adjustment (lines 517-553) *)

(** Each of the two [if]s assigns two members; here every member is
    assigned its new or its old value under the same condition. *)
Definition UpdateAdjustedSound (w : World) : World :=
  let m := mixer w in
  let sound := bool_decide (_settingSoundVolume m ≠ soundVolume (config w)) in
  let m1 :=
    with_sound
      (if sound then soundVolume (config w) else _settingSoundVolume m)
      (if sound then pow (IZR (soundVolume (config w)) / 100) (10 / 6)
       else _adjustSoundVolume m) m in
  let music := bool_decide (_settingMusicVolume m1 ≠ rideMusicVolume (config w)) in
  let m2 :=
    with_music
      (if music then rideMusicVolume (config w) else _settingMusicVolume m1)
      (if music then pow (IZR (rideMusicVolume (config w)) / 100) (10 / 6)
       else _adjustMusicVolume m1) m1 in
  set_mixer m2 w.

Definition GetAdjustedVolume (w : World) (channel : WebAudioChannel) : R :=
  let volumeAdjust := _volume (mixer w) in
  let volumeAdjust :=
    (volumeAdjust *
     (if masterSoundEnabled (config w)
      then IZR (masterVolume (config w)) / 100 else 0))%R in
  let volumeAdjust :=
    match c_group channel with
    | Sound =>
        let volumeAdjust := (volumeAdjust * _adjustSoundVolume (mixer w))%R in
        if titleSequence (config w) then Rmin volumeAdjust 0.75
        else volumeAdjust
    | RideMusic | TitleMusic =>
        (volumeAdjust * _adjustMusicVolume (mixer w))%R
    end in
  (IZR (c_volume channel) * volumeAdjust / IZR kMixerVolumeMax)%R.

Arguments GetAdjustedVolume : simpl never.

(** *** UpdateChannel (lines 491-504) *)

Definition UpdateChannel (channel : WebAudioChannel) (restart : bool) : step :=
  λ w,
    if c_done channel then (w, [])
    else
      let w1 := UpdateAdjustedSound w in
      let adjustedVolume := GetAdjustedVolume w1 channel in
      let bytesPerSecond := GetBytesPerSecond (c_format channel) in
      let offsetSeconds :=
        if 0 <? bytesPerSecond
        then fdiv (c_offsetBytes channel) bytesPerSecond
        else Finite 0 in
      (w1, [Backend (WebAudioUpdateChannel (c_channelId channel)
                       (c_rate channel) adjustedVolume (c_pan channel)
                       offsetSeconds (if restart then 1 else 0))]).

(** *** GetChannelOffsetBytes (lines 506-515) *)

Definition GetChannelOffsetBytes (w : World) (channel : WebAudioChannel) : Z :=
  let bytesPerSecond := GetBytesPerSecond (c_format channel) in
  if bytesPerSecond =? 0 then 0
  else
    let seconds := WebAudioGetOffsetSeconds w (c_channelId channel) in
    to_uint64 (seconds * IZR bytesPerSecond).

(** *** The member functions of WebAudioChannel (lines 110-311) *)

Definition SetGroup (group : MixerGroup) : method :=
  λ c, let c' := with_group group c in (c', UpdateChannel c' false).

Definition SetRate (rate : R) : method :=
  λ c, let c' := with_rate (Rmax 0.001 rate) c in (c', UpdateChannel c' false).

Definition GetOffset (w : World) (c : WebAudioChannel) : Z :=
  GetChannelOffsetBytes w c.

Definition SetOffset (offset : Z) (c : WebAudioChannel)
  : bool * (WebAudioChannel * step) :=
  if GetBytesPerSecond (c_format c) =? 0 then (false, (c, skip))
  else
    let c' := with_offsetBytes offset c in
    (true, (c', UpdateChannel c' true)).

Definition SetLoop (value : Z) : method :=
  λ c, (with_loop value c, skip).

Definition Channel_SetVolume (volume : Z) : method :=
  λ c,
    let c' := with_volume (clampZ volume 0 kMixerVolumeMax) c in
    (c', UpdateChannel c' false).

Definition SetPan (pan : R) : method :=
  λ c,
    let _pan := clampR pan 0 1 in
    let decibels := (Rabs (_pan - 0.5) * 2.0 * 100.0)%R in
    let attenuation := pow 10 (decibels / 20.0) in
    let _volume_l := if Rle_dec _pan 0.5 then 1.0%R else (1.0 / attenuation)%R in
    let _volume_r := if Rle_dec _pan 0.5 then (1.0 / attenuation)%R else 1.0%R in
    let c' := with_pan _pan _volume_l _volume_r c in
    (c', UpdateChannel c' false).

Definition SetStopping (value : bool) : method :=
  λ c, (with_stopping value c, skip).

Definition SetDone (value : bool) : method :=
  λ c, (with_done value c, skip).

Definition SetDeleteOnDone (value : bool) : method :=
  λ c, (with_deleteondone value c, skip).

Definition IsPlaying (c : WebAudioChannel) : bool := negb (c_done c).

Definition Channel_Play (source : option IAudioSource) (loop : Z) : method :=
  λ c,
    (with_done false (with_offsetBytes 0 (with_loop loop (with_source source c))),
     skip).

Definition Stop : method := SetStopping true.

Definition UpdateOldVolume : method :=
  λ c, (with_oldvolume (c_volume c) (c_volume_l c) (c_volume_r c) c, skip).

Definition SetFormat (f : AudioFormat) : method :=
  λ c, (with_format f c, skip).

(** One member function after another on the same object. *)
Definition and_then (f g : method) : method :=
  λ c, let r := f c in let r' := g r.1 in (r'.1, (r.2;; r'.2)%step).

(** The constructor (lines 110-117): the member initialisers, then the
    three setters. *)
Definition new_WebAudioChannel (channelId : Z) : WebAudioChannel * step :=
  and_then (SetRate 1) (and_then (Channel_SetVolume kMixerVolumeMax) (SetPan 0.5))
    (channel_fields channelId).

(** A call through a reference: the object at [h] is read, the member
    function runs, and the object is written back. *)
Definition call (h : handle) (f : method) : step :=
  λ w,
    match heap w !! h with
    | None => (w, [])
    | Some c =>
        let r := f c in
        (modify (λ w', set_heap (<[h := r.1]> (heap w')) w');; r.2)%step w
    end.

(** *** The helpers of the anonymous namespace (lines 42-102) *)

Definition ReadAllPcmData (source : SDLAudioSource) : list byte :=
  source_data source.

Definition ConvertToS16 (fmt : AudioFormat) (data : list byte)
  : option (AudioFormat * list byte) :=
  if format fmt =? AUDIO_S16SYS then Some (fmt, data)
  else
    match SDL_ConvertAudio fmt data with
    | None => None
    | Some buffer =>
        Some (mkAudioFormat (freq fmt) AUDIO_S16SYS (channels fmt), buffer)
    end.

Definition byte_value (b : byte) : Z := Z.of_N (Byte.to_N b).

(** The buffer read as [int16_t]s (little endian, as on wasm32); an odd
    last byte is left out, as by [data.size() / sizeof(int16_t)]. *)
Fixpoint pcm16 (data : list byte) : list Z :=
  match data with
  | lo :: hi :: rest =>
      let u := byte_value lo + 256 * byte_value hi in
      (if u <? 32768 then u else u - 65536) :: pcm16 rest
  | _ => []
  end.

Definition ConvertToFloat (fmt : AudioFormat) (data : list byte) : list R :=
  if format fmt =? AUDIO_U8
  then List.map (λ b, (IZR (byte_value b - 128) / 128)%R) data
  else List.map (λ s, (IZR s / 32768)%R) (pcm16 data).

(** *** The registry (lines 555-573) *)

Definition RegisterChannel (channelId : Z) (channel : handle) : step :=
  (modify_mixer (λ m, with_channelMap (<[channelId := channel]> (_channelMap m)) m);;
   emit (Mutate Registry))%step.

(** A [weak_ptr] can be locked while some [shared_ptr] to its object is
    left: the one in [_channels] or one held by the application. *)
Definition expired (w : World) (h : handle) : bool :=
  negb (bool_decide (h ∈ _channels (mixer w) ∨ h ∈ held w)).

Definition FindChannel (w : World) (channelId : Z) : option handle :=
  match _channelMap (mixer w) !! channelId with
  | None => None
  | Some h => if expired w h then None else Some h
  end.

Definition RemoveChannel (channelId : Z) : step :=
  (modify_mixer (λ m, with_channelMap (delete channelId (_channelMap m)) m);;
   emit (Mutate Registry))%step.

(** *** Play (lines 386-440) *)

(** From the [lock_guard] to the return, with what the first half of
    [Play] computed.  The new object is local to [Play] until it is shared
    with [_channels]: it enters the store once it is initialised, at the
    next free address. *)
Definition Play_locked (source : option IAudioSource) (loop : Z)
    (deleteondone : bool) (fmt : AudioFormat) (floatData : list R)
    (nchannels frames : Z) (w : World) : handle * (World * trace) :=
  let channelId := _nextChannelId (mixer w) in
  let constructed := new_WebAudioChannel channelId in
  let initialised :=
    and_then (SetFormat fmt)
      (and_then (Channel_Play source loop) (SetDeleteOnDone deleteondone))
      constructed.1 in
  let channel := initialised.1 in
  let h := length (heap w) in
  (h,
   (emit MutexLock;;
    modify_mixer (with_nextChannelId (wrap32 (channelId + 1)));;
    constructed.2;;
    initialised.2;;
    modify (λ w', set_heap (heap w' ++ [channel]) w');;
    modify_mixer (λ m, with_channels (_channels m ++ [h]) m);;
    emit (Mutate LiveChannels);;
    RegisterChannel channelId h;;
    modify UpdateAdjustedSound;;
    (λ w',
       let adjustedVolume := GetAdjustedVolume w' channel in
       let offsetSeconds :=
         fdiv (c_offsetBytes channel) (GetBytesPerSecond fmt) in
       emit (Backend (WebAudioPlayChannel channelId nchannels frames
                        (freq fmt) floatData loop (c_rate channel)
                        adjustedVolume (c_pan channel) offsetSeconds)) w');;
    emit MutexUnlock;;
    modify (λ w', set_held (h :: held w') w'))%step w).

Definition Play (source : option IAudioSource) (loop : Z)
    (deleteondone : bool) (w : World) : option handle * (World * trace) :=
  match source with
  | None => (None, (w, []))
  | Some OtherAudioSource => (None, (w, []))
  | Some (IsSDLAudioSource sdlSource) =>
      let fmt0 := GetFormat sdlSource in
      let pcmData0 := ReadAllPcmData sdlSource in
      let converted :=
        if bool_decide (format fmt0 ≠ AUDIO_S16SYS)
           && bool_decide (format fmt0 ≠ AUDIO_U8)
        then ConvertToS16 fmt0 pcmData0
        else Some (fmt0, pcmData0) in
      match converted with
      | None => (None, (w, []))
      | Some (fmt, pcmData) =>
          let floatData := ConvertToFloat fmt pcmData in
          let nchannels := channels fmt in
          if nchannels <=? 0 then (None, (w, []))
          else
            let frames := wrap32 (Z.of_nat (length floatData) / nchannels) in
            if frames <=? 0 then (None, (w, []))
            else
              let r :=
                Play_locked source loop deleteondone fmt floatData
                  nchannels frames w in
              (Some r.1, r.2)
      end
  end.

(** *** Tick (lines 448-475) *)

(** The loop over [_channels]: [kept] is what the iterator has passed and
    left in the list, [rest] is what is still before it. *)
Fixpoint Tick_loop (kept rest : list handle) {struct rest} : step :=
  match rest with
  | [] => skip
  | h :: rest' =>
      λ w,
        match heap w !! h with
        | None => Tick_loop (kept ++ [h]) rest' w
        | Some channel =>
            if c_stopping channel then
              (emit (Backend (WebAudioStopChannel (c_channelId channel)));;
               call h (SetDone true);;
               RemoveChannel (c_channelId channel);;
               modify_mixer (with_channels (kept ++ rest'));;
               emit (Mutate LiveChannels);;
               Tick_loop kept rest')%step w
            else
              ((if negb (c_done channel)
                then UpdateChannel channel false else skip);;
               Tick_loop (kept ++ [h]) rest')%step w
        end
  end.

Definition sweep_sources : step :=
  (modify_mixer
     (λ m, with_sources (List.filter (λ s, negb (IsReleased s)) (_sources m)) m);;
   emit (Mutate SourcePool))%step.

Definition Tick : step :=
  (modify UpdateAdjustedSound;;
   emit MutexLock;;
   (λ w, Tick_loop [] (_channels (mixer w)) w);;
   sweep_sources;;
   emit MutexUnlock)%step.

(** *** SetVolume (lines 442-446) *)

Definition SetVolume (volume : R) : step :=
  (modify_mixer (with_master volume);; Tick)%step.

(** *** OnChannelEnded (lines 477-489) *)

Definition OnChannelEnded (channelId : Z) : step :=
  (emit MutexLock;;
   (λ w,
      match FindChannel w channelId with
      | Some channel =>
          (call channel (SetDone true);;
           (λ w', modify_mixer
                    (λ m, with_channels
                            (filter (λ entry, id_of w' entry ≠ channelId)
                               (_channels m)) m) w');;
           emit (Mutate LiveChannels);;
           RemoveChannel channelId)%step w
      | None => skip w
      end);;
   emit MutexUnlock)%step.

(** *** Close and AddSource (lines 366-376 and 575-584) *)

Definition Close : step :=
  (emit MutexLock;;
   (λ w, (w, List.map (λ h, Backend (WebAudioStopChannel (id_of w h)))
               (_channels (mixer w))));;
   modify_mixer (with_channels []);; emit (Mutate LiveChannels);;
   modify_mixer (with_channelMap ∅);; emit (Mutate Registry);;
   modify_mixer (with_sources []);; emit (Mutate SourcePool);;
   emit MutexUnlock)%step.

Definition AddSource (source : option SDLAudioSource) : step :=
  (emit MutexLock;;
   match source with
   | Some s =>
       (modify_mixer (λ m, with_sources (_sources m ++ [s]) m);;
        emit (Mutate SourcePool))%step
   | None => skip
   end;;
   emit MutexUnlock)%step.

(** ** The application *)

(** What the application can do with a channel reference. *)
Inductive channel_call : Type :=
  | CallSetGroup (group : MixerGroup)
  | CallSetRate (rate : R)
  | CallSetOffset (offset : Z)
  | CallSetLoop (value : Z)
  | CallSetVolume (volume : Z)
  | CallSetPan (pan : R)
  | CallSetStopping (value : bool)
  | CallSetDone (value : bool)
  | CallSetDeleteOnDone (value : bool)
  | CallPlay (source : option IAudioSource) (loop : Z)
  | CallStop
  | CallUpdateOldVolume.

Definition method_of (c : channel_call) : method :=
  match c with
  | CallSetGroup g => SetGroup g
  | CallSetRate r => SetRate r
  | CallSetOffset o => λ c, (SetOffset o c).2
  | CallSetLoop v => SetLoop v
  | CallSetVolume v => Channel_SetVolume v
  | CallSetPan p => SetPan p
  | CallSetStopping b => SetStopping b
  | CallSetDone b => SetDone b
  | CallSetDeleteOnDone b => SetDeleteOnDone b
  | CallPlay s l => Channel_Play s l
  | CallStop => Stop
  | CallUpdateOldVolume => UpdateOldVolume
  end.

(** What can happen to a mixer: the calls of its public interface, the
    completion callback of the backend, a call through a channel reference
    the application holds, the application dropping such a reference,
    releasing a pooled source, or changing the configuration. *)
Inductive operation : Type :=
  | OpPlay (source : option IAudioSource) (loop : Z) (deleteondone : bool)
  | OpSetVolume (volume : R)
  | OpTick
  | OpOnChannelEnded (channelId : Z)
  | OpClose
  | OpAddSource (source : option SDLAudioSource)
  | OpCall (h : handle) (c : channel_call)
  | OpDrop (h : handle)
  | OpReleaseSource (i : nat)
  | OpConfig (cfg : Config).

Definition release (s : SDLAudioSource) : SDLAudioSource :=
  mkSource (GetFormat s) (source_data s) true.

Definition perform (o : operation) : step :=
  match o with
  | OpPlay source loop deleteondone => λ w, (Play source loop deleteondone w).2
  | OpSetVolume v => SetVolume v
  | OpTick => Tick
  | OpOnChannelEnded channelId => OnChannelEnded channelId
  | OpClose => Close
  | OpAddSource s => AddSource s
  | OpCall h c =>
      λ w, if bool_decide (h ∈ held w) then call h (method_of c) w else skip w
  | OpDrop h => modify (λ w, set_held (filter (λ x, x ≠ h) (held w)) w)
  | OpReleaseSource i =>
      modify_mixer (λ m, with_sources (alter release i (_sources m)) m)
  | OpConfig cfg => modify (set_config cfg)
  end.

Fixpoint run (ops : list operation) : step :=
  match ops with
  | [] => skip
  | o :: ops' => (perform o;; run ops')%step
  end.

End Mixer.

(** The world right after the mixer's constructor. *)
Definition new_world (cfg : Config) (pos : Z → R) : World :=
  mkWorld [] [] mixer_fields cfg pos.

(** * The vocabulary of the properties *)

(** ** Sample inputs *)

Definition sample_config : Config := mkConfig 100 100 true 100 false.

Definition sample_world : World := new_world sample_config (λ _, 0%R).

(** An SDL that converts nothing. *)
Definition no_conversion (_ : AudioFormat) (_ : list byte) : option (list byte) :=
  None.

(** Two frames of 16-bit stereo silence at 44100 Hz. *)
Definition sample_source : IAudioSource :=
  IsSDLAudioSource
    (mkSource (mkAudioFormat 44100 AUDIO_S16SYS 2)
       [x00; x00; x00; x00; x00; x00; x00; x00] false).

(** One 16-bit mono sample under a format whose sample rate is 0. *)
Definition zero_rate_source : IAudioSource :=
  IsSDLAudioSource (mkSource (mkAudioFormat 0 AUDIO_S16SYS 1) [x00; x00] false).

(** ** Play *)

(** The object that [Play_locked] shares: the constructed one after
    [SetFormat], [Play] and [SetDeleteOnDone]. *)
Definition fresh_channel (MAX channelId : Z) (source : option IAudioSource)
    (loop : Z) (deleteondone : bool) (fmt : AudioFormat) : WebAudioChannel :=
  (and_then (SetFormat fmt)
     (and_then (Channel_Play source loop) (SetDeleteOnDone deleteondone))
     (new_WebAudioChannel MAX channelId).1).1.

(** ** The defaults of a fresh channel *)

(** The claimed defaults of a fresh channel, in the words of the
    specification; "near-silent" is read as generously as "in the lower
    half of the range 0..MAX". *)
Definition spec_near_silent (MAX volume : Z) : Prop :=
  0 ≤ volume ∧ 2 * volume < MAX.

Definition spec_fresh_defaults (MAX : Z) (c : WebAudioChannel) : Prop :=
  c_rate c = 1%R ∧ c_pan c = (1/2)%R ∧ spec_near_silent MAX (c_volume c).

(** The first [Play] on a new mixer, with [kMixerVolumeMax] at 128. *)
Definition sample_played : option handle * (World * trace) :=
  Play 128 no_conversion (Some sample_source) 0 false sample_world.

(** ** Volume adjustment *)

(** The perceptual curve of the specification, (configValue/100)^(10/6). *)
Definition spec_curve (configValue : Z) : R :=
  pow (IZR configValue / 100) (10 / 6).

(** The cached curves are those of the cached settings, or both are as the
    member initialisers left them. *)
Definition cache_ok (m : WebAudioMixer) : Prop :=
  (_settingSoundVolume m = -1 ∧ _adjustSoundVolume m = 1%R ∨
   _adjustSoundVolume m = spec_curve (_settingSoundVolume m)) ∧
  (_settingMusicVolume m = -1 ∧ _adjustMusicVolume m = 1%R ∨
   _adjustMusicVolume m = spec_curve (_settingMusicVolume m)).

(** The effective volume in the words of the specification; the cap of the
    title sequence is on the adjustment of a channel of the Sound group. *)
Definition spec_master (cfg : Config) : R :=
  if masterSoundEnabled cfg then (IZR (masterVolume cfg) / 100)%R else 0%R.

Definition spec_categoryAdjust (cfg : Config) (group : MixerGroup) : R :=
  match group with
  | Sound => spec_curve (soundVolume cfg)
  | RideMusic | TitleMusic => spec_curve (rideMusicVolume cfg)
  end.

Definition is_capped (cfg : Config) (group : MixerGroup) : bool :=
  titleSequence cfg && match group with Sound => true | _ => false end.

Definition spec_effectiveVolume (MAX : Z) (masterScalar : R) (cfg : Config)
    (c : WebAudioChannel) : R :=
  let adjust :=
    (masterScalar * spec_master cfg * spec_categoryAdjust cfg (c_group c))%R in
  (IZR (c_volume c)
   * (if is_capped cfg (c_group c) then Rmin adjust 0.75 else adjust)
   / IZR MAX)%R.

(** A fresh channel, of the Sound group, outside the title sequence. *)
Definition sample_channel : WebAudioChannel :=
  fresh_channel 128 1 (Some sample_source) 0 false
    (mkAudioFormat 44100 AUDIO_S16SYS 2).

(** ** When Play returns no channel *)

(** The number of samples that reach the backend, in the words of the
    specification: one per byte of 8-bit unsigned data, one per two bytes
    of 16-bit data, after the conversion of any other format; none when
    that conversion fails. *)
Definition spec_samples (conv : AudioFormat → list byte → option (list byte))
    (sdl : SDLAudioSource) : option Z :=
  let fmt := GetFormat sdl in
  let bytes := Z.of_nat (length (source_data sdl)) in
  if format fmt =? AUDIO_U8 then Some bytes
  else if format fmt =? AUDIO_S16SYS then Some (bytes / 2)
  else (λ buffer, Z.of_nat (length buffer) / 2) <$> conv fmt (source_data sdl).

Definition spec_frame_count (conv : AudioFormat → list byte → option (list byte))
    (sdl : SDLAudioSource) : option Z :=
  (λ samples, samples / channels (GetFormat sdl)) <$> spec_samples conv sdl.

(** The five causes of failure of the specification. *)
Inductive spec_play_failure (conv : AudioFormat → list byte → option (list byte))
  : option IAudioSource → Prop :=
  | fail_null : spec_play_failure conv None
  | fail_incompatible : spec_play_failure conv (Some OtherAudioSource)
  | fail_conversion sdl :
      format (GetFormat sdl) ≠ AUDIO_S16SYS →
      format (GetFormat sdl) ≠ AUDIO_U8 →
      conv (GetFormat sdl) (source_data sdl) = None →
      spec_play_failure conv (Some (IsSDLAudioSource sdl))
  | fail_channels sdl :
      channels (GetFormat sdl) ≤ 0 →
      spec_play_failure conv (Some (IsSDLAudioSource sdl))
  | fail_frames sdl :
      spec_frame_count conv sdl = Some 0 →
      spec_play_failure conv (Some (IsSDLAudioSource sdl)).

(** A [std::vector<uint8_t>] of wasm32 holds fewer than 2^31 bytes. *)
Definition addressable (conv : AudioFormat → list byte → option (list byte))
    (source : option IAudioSource) : Prop :=
  match source with
  | Some (IsSDLAudioSource sdl) =>
      Z.of_nat (length (source_data sdl)) < 2^31 ∧
      ∀ buffer, conv (GetFormat sdl) (source_data sdl) = Some buffer →
                Z.of_nat (length buffer) < 2^31
  | _ => True
  end.

(** The buffer and the format that the first half of [Play] hands on. *)
Definition converted (conv : AudioFormat → list byte → option (list byte))
    (sdl : SDLAudioSource) : option (AudioFormat * list byte) :=
  if bool_decide (format (GetFormat sdl) ≠ AUDIO_S16SYS)
     && bool_decide (format (GetFormat sdl) ≠ AUDIO_U8)
  then ConvertToS16 conv (GetFormat sdl) (ReadAllPcmData sdl)
  else Some (GetFormat sdl, ReadAllPcmData sdl).

(** An SDL source with an empty buffer. *)
Definition empty_source : IAudioSource :=
  IsSDLAudioSource (mkSource (mkAudioFormat 44100 AUDIO_S16SYS 2) [] false).

(** ** Views of a world and of a trace *)

(** The identifiers and the flags of the channel objects, by address. *)
Definition ids (w : World) : list Z := c_channelId <$> heap w.
Definition stoppings (w : World) : list bool := c_stopping <$> heap w.
Definition dones (w : World) : list bool := c_done <$> heap w.

(** The identifiers of the stop and of the update commands of a trace. *)
Definition stop_id (e : event) : option Z :=
  match e with Backend (WebAudioStopChannel id) => Some id | _ => None end.

Definition update_id (e : event) : option Z :=
  match e with
  | Backend (WebAudioUpdateChannel id _ _ _ _ _) => Some id
  | _ => None
  end.

Definition stop_ids (tr : trace) : list Z := omap stop_id tr.
Definition update_ids (tr : trace) : list Z := omap update_id tr.

(** The lock discipline of a trace.  The mutex is free, or held with a
    record of which of [_channels] and [_channelMap] the critical section
    has mutated so far.  [discipline] gives the state after a trace, or
    [None] when the mutex is locked twice, unlocked while free, a container
    is mutated while it is free, or a critical section ends having mutated
    one of [_channels] and [_channelMap] without the other. *)
Inductive lock_state : Type :=
  | Free
  | Held (live registry : bool).

Definition mutate (s : structure) (live registry : bool) : lock_state :=
  match s with
  | LiveChannels => Held true registry
  | Registry => Held live true
  | SourcePool => Held live registry
  end.

Fixpoint discipline (st : lock_state) (tr : trace) : option lock_state :=
  match tr, st with
  | [], _ => Some st
  | MutexLock :: tr', Free => discipline (Held false false) tr'
  | MutexLock :: _, Held _ _ => None
  | MutexUnlock :: tr', Held live registry =>
      if eqb live registry then discipline Free tr' else None
  | MutexUnlock :: _, Free => None
  | Mutate s :: tr', Held live registry => discipline (mutate s live registry) tr'
  | Mutate _ :: _, Free => None
  | Backend _ :: tr', _ => discipline st tr'
  end.

(** Events that take and release no lock. *)
Definition inner (e : event) : Prop :=
  match e with MutexLock | MutexUnlock => False | _ => True end.

Definition is_command (e : event) : Prop :=
  match e with Backend _ => True | _ => False end.

(** Whether a trace mutates a container. *)
Fixpoint touched (s : structure) (tr : trace) : bool :=
  match tr with
  | [] => false
  | Mutate LiveChannels :: tr' =>
      match s with LiveChannels => true | _ => touched s tr' end
  | Mutate Registry :: tr' =>
      match s with Registry => true | _ => touched s tr' end
  | Mutate SourcePool :: tr' =>
      match s with SourcePool => true | _ => touched s tr' end
  | _ :: tr' => touched s tr'
  end.

(** ** The loop of Tick *)

(** The world after the body of the loop has stopped the channel [c] at
    address [h]. *)
Definition stop_step (kept rest : list handle) (h : handle)
    (c : WebAudioChannel) (w : World) : World :=
  set_mixer
    (with_channels (kept ++ rest)
       (with_channelMap (delete (c_channelId c) (_channelMap (mixer w)))
          (mixer w)))
    (set_heap (<[h := with_done true c]> (heap w)) w).

(** The identifiers of the channels of a list that are flagged stopping,
    and of those that are neither stopping nor done. *)
Definition stopped_ids (w : World) (l : list handle) : list Z :=
  (λ h, default 0 (ids w !! h))
    <$> filter (λ h, stoppings w !! h = Some true) l.

Definition updated_ids (w : World) (l : list handle) : list Z :=
  (λ h, default 0 (ids w !! h))
    <$> filter (λ h, stoppings w !! h = Some false ∧ dones w !! h = Some false) l.

(** ** The operations, from the world they start in *)

Definition swept (l : list SDLAudioSource) : list SDLAudioSource :=
  List.filter (λ s, negb (IsReleased s)) l.

(** The world after [OnChannelEnded] has found the channel [h]. *)
Definition ended (channelId : Z) (h : handle) (w : World) : World :=
  let w1 := (call h (SetDone true) w).1 in
  set_mixer
    (with_channelMap (delete channelId (_channelMap (mixer w1)))
       (with_channels
          (filter (λ entry, id_of w1 entry ≠ channelId) (_channels (mixer w1)))
          (mixer w1)))
    w1.

(** ** The invariant of the mixer *)

(** Live channels are distinct allocated objects, no two objects share an
    identifier, the registry maps exactly the identifier of every live
    channel to that channel, every identifier handed out is below the
    counter, the counter has not wrapped, and the cached curves are
    current. *)
Record wf (w : World) : Prop := mk_wf {
  wf_live_nodup : NoDup (_channels (mixer w));
  wf_ids_nodup : NoDup (ids w);
  wf_live_alloc : ∀ h, h ∈ _channels (mixer w) → (h < length (ids w))%nat;
  wf_registry :
    ∀ id h, _channelMap (mixer w) !! id = Some h ↔
            h ∈ _channels (mixer w) ∧ ids w !! h = Some id;
  wf_ids_range : ∀ id, id ∈ ids w → 1 ≤ id < _nextChannelId (mixer w);
  wf_next : 1 ≤ _nextChannelId (mixer w) ≤ INT32_MAX;
  wf_cache : cache_ok (mixer w)
}.

(** What holds after every sequence of operations: live channels are
    distinct allocated objects, and every registry entry is for a live
    channel with that identifier. *)
Record coherent (w : World) : Prop := mk_coherent {
  co_live_nodup : NoDup (_channels (mixer w));
  co_live_alloc : ∀ h, h ∈ _channels (mixer w) → (h < length (ids w))%nat;
  co_registry :
    ∀ id h, _channelMap (mixer w) !! id = Some h →
            h ∈ _channels (mixer w) ∧ ids w !! h = Some id
}.

(** The number of [Play] calls of a sequence of operations. *)
Definition is_play (o : operation) : bool :=
  match o with OpPlay _ _ _ => true | _ => false end.

Definition plays (ops : list operation) : nat :=
  length (List.filter is_play ops).

(** ** The live collection and the registry *)

(** The live collection and the registry agree: they hold the same
    identifiers, no two live channels share one, and the entry of an
    identifier is the live channel that has it. *)
Definition registry_consistent (w : World) : Prop :=
  (∀ id, id ∈ (id_of w <$> _channels (mixer w)) ↔
         is_Some (_channelMap (mixer w) !! id)) ∧
  NoDup (id_of w <$> _channels (mixer w)) ∧
  (∀ id h, _channelMap (mixer w) !! id = Some h ↔
           h ∈ _channels (mixer w) ∧ id_of w h = id).

Definition sample_ops : list operation :=
  [OpPlay (Some sample_source) 0 false; OpTick; OpCall 0%nat CallStop; OpTick;
   OpPlay (Some sample_source) 0 false; OpOnChannelEnded 2; OpClose].

(** ** Channel identifiers *)

(** The identifiers of the channels that the [Play] calls of a sequence of
    operations return, in order. *)
Fixpoint returned_ids (MAX : Z)
    (conv : AudioFormat → list byte → option (list byte))
    (ops : list operation) (w : World) : list Z :=
  match ops with
  | [] => []
  | o :: ops' =>
      match o with
      | OpPlay source loop deleteondone =>
          match Play MAX conv source loop deleteondone w with
          | (Some h, (w', _)) => [id_of w' h]
          | (None, _) => []
          end
      | _ => []
      end ++ returned_ids MAX conv ops' (perform MAX conv o w).1
  end.

(** ** The channel counter after 2^32 increments *)

(** One turn of a long-running session: a channel is played and the
    backend reports that it has ended. *)
Definition churn_step (i : nat) : list operation :=
  [OpPlay (Some sample_source) 0 false;
   OpOnChannelEnded (wrap32 (2 + Z.of_nat i))].

Definition churn (from n : nat) : list operation :=
  flat_map churn_step (List.seq from n).

(** The session: a first channel that plays on (a looped track), then
    2^32 - 1 turns, then one more [Play]. *)
Definition wrap_cycles : nat := Z.to_nat 4294967295.

Definition wrapping_ops : list operation :=
  OpPlay (Some sample_source) 0 false
  :: churn 0 wrap_cycles ++ [OpPlay (Some sample_source) 0 false].

(** The state between two turns: only the first channel, at address 0 with
    identifier 1, is live and registered. *)
Definition churning (w : World) (next : Z) (objects : nat) : Prop :=
  _channels (mixer w) = [0%nat] ∧
  _channelMap (mixer w) = {[1 := 0%nat]} ∧
  _nextChannelId (mixer w) = next ∧
  ids w !! 0%nat = Some 1 ∧
  length (ids w) = objects.

(** ** Teardown *)

(** The same step [n] times. *)
Fixpoint times (n : nat) (f : step) : step :=
  match n with
  | O => skip
  | S n' => (f;; times n' f)%step
  end.

(** ** Channels that are done *)

(** The calls that clear the done flag of the channel they are made on. *)
Definition clears (k : channel_call) : bool :=
  match k with
  | CallSetDone false | CallPlay _ _ => true
  | _ => false
  end.

Definition clears_done (h : handle) (o : operation) : bool :=
  match o with
  | OpCall h' k => bool_decide (h' = h) && clears k
  | _ => false
  end.

(** What an operation may do, seen from the identifiers [idl], the done
    flags [ds] and the live collection [chs] before it: objects are only
    added; a live channel was live or is new; a done flag stays set unless
    the operation clears it; a stop command is for a channel that was live;
    an update command is for a channel that is not done afterwards. *)
Definition step_effect (cl : handle → bool) (idl : list Z) (ds : list bool)
    (chs : list handle) (r : World * trace) : Prop :=
  (∃ l, ids r.1 = idl ++ l) ∧
  (∀ h, h ∈ _channels (mixer r.1) → h ∈ chs ∨ (length idl ≤ h)%nat) ∧
  (∀ h, ds !! h = Some true → cl h = false → dones r.1 !! h = Some true) ∧
  (∀ id, id ∈ stop_ids r.2 → ∃ h, h ∈ chs ∧ idl !! h = Some id) ∧
  (∀ id, id ∈ update_ids r.2 →
         ∃ h, idl !! h = Some id ∧ dones r.1 !! h = Some false).

(** ** Well-formed channels and commands *)

(** What the setters keep of the playback parameters: the rate is floored
    at 0.001, the volume is within 0..MAX, the pan within [0,1], and the two
    gains are in (0,1] with one of them 1. *)
Definition channel_ok (MAX : Z) (c : WebAudioChannel) : Prop :=
  (0.001 <= c_rate c)%R ∧
  0 ≤ c_volume c ≤ MAX ∧
  (0 <= c_pan c <= 1)%R ∧
  (0 < c_volume_l c <= 1)%R ∧ (0 < c_volume_r c <= 1)%R ∧
  (c_volume_l c = 1%R ∨ c_volume_r c = 1%R).

(** What a command carries when it comes from such a channel. *)
Definition command_ok (c : command) : Prop :=
  match c with
  | WebAudioPlayChannel _ nchannels frames _ _ _ rate _ pan _ =>
      0 < nchannels ∧ 0 < frames ∧ (0.001 <= rate)%R ∧ (0 <= pan <= 1)%R
  | WebAudioUpdateChannel _ rate _ pan _ restart =>
      (0.001 <= rate)%R ∧ (0 <= pan <= 1)%R ∧ (restart = 0 ∨ restart = 1)
  | WebAudioStopChannel _ => True
  end.

Definition event_ok (e : event) : Prop :=
  match e with Backend c => command_ok c | _ => True end.

(** The ranges of the settings that the options window writes, and of what
    the mixer derives from them. *)
Definition config_ok (cfg : Config) : Prop :=
  0 ≤ soundVolume cfg ≤ 100 ∧ 0 ≤ rideMusicVolume cfg ≤ 100 ∧
  0 ≤ masterVolume cfg ≤ 100.

Definition levels_ok (w : World) : Prop :=
  config_ok (config w) ∧
  (0 <= _volume (mixer w) <= 1)%R ∧
  (0 <= _adjustSoundVolume (mixer w) <= 1)%R ∧
  (0 <= _adjustMusicVolume (mixer w) <= 1)%R.

(** An operation that keeps the master scalar and the settings in range. *)
Definition operation_ok (o : operation) : Prop :=
  match o with
  | OpSetVolume v => (0 <= v <= 1)%R
  | OpConfig cfg => config_ok cfg
  | _ => True
  end.

(** The volume of a command, where it has one, is within [0,1]. *)
Definition volume_ok (e : event) : Prop :=
  match e with
  | Backend (WebAudioPlayChannel _ _ _ _ _ _ _ volume _ _)
  | Backend (WebAudioUpdateChannel _ _ volume _ _ _) => (0 <= volume <= 1)%R
  | _ => True
  end.

(** ** The commands of a Tick *)

(** The commands of a trace, in order. *)
Definition commands (tr : trace) : list command :=
  omap (λ e, match e with Backend c => Some c | _ => None end) tr.

(** What one live channel contributes to a [Tick] that starts in [w]. *)
Definition Tick_commands (MAX : Z) (w : World) (h : handle) : list command :=
  match heap w !! h with
  | None => []
  | Some c =>
      if c_stopping c then [WebAudioStopChannel (c_channelId c)]
      else if c_done c then []
      else
        let bytesPerSecond := GetBytesPerSecond (c_format c) in
        [WebAudioUpdateChannel (c_channelId c) (c_rate c)
           (GetAdjustedVolume MAX (UpdateAdjustedSound w) c) (c_pan c)
           (if 0 <? bytesPerSecond then fdiv (c_offsetBytes c) bytesPerSecond
            else Finite 0)
           0]
  end.

(** The cached settings are those of the configuration. *)
Definition settled (w : World) : Prop :=
  _settingSoundVolume (mixer w) = soundVolume (config w) ∧
  _settingMusicVolume (mixer w) = rideMusicVolume (config w).

(** [w'] is [w0] but for done flags set on stopping channels, the live
    collection and the registry. *)
Definition stops_only (w0 w' : World) : Prop :=
  settled w' ∧ config w' = config w0 ∧
  _volume (mixer w') = _volume (mixer w0) ∧
  _adjustSoundVolume (mixer w') = _adjustSoundVolume (mixer w0) ∧
  _adjustMusicVolume (mixer w') = _adjustMusicVolume (mixer w0) ∧
  ∀ h, heap w' !! h = heap w0 !! h ∨
       ∃ c, heap w0 !! h = Some c ∧ c_stopping c = true ∧
            heap w' !! h = Some (with_done true c).

(** ** Restarts *)

Definition is_SetOffset (o : operation) : bool :=
  match o with OpCall _ (CallSetOffset _) => true | _ => false end.

(** A command that makes the backend start the sound anew. *)
Definition restarts (c : command) : bool :=
  match c with
  | WebAudioUpdateChannel _ _ _ _ _ restart => negb (restart =? 0)
  | _ => false
  end.

(** ** What the mixer stores and never reads *)

(** A channel with the members cleared that only their own getters read:
    the source, the loop count, the old volumes and the delete-on-done
    flag. *)
Definition inert (c : WebAudioChannel) : WebAudioChannel :=
  with_deleteondone false
    (with_loop 0 (with_oldvolume 0 0 0 (with_source None c))).

(** An operation without what only those members take: [SetLoop],
    [SetDeleteOnDone] and [UpdateOldVolume] are left out, the [Play] of a
    channel keeps neither its source nor its loop count, and the [Play] of
    the mixer loses its delete-on-done flag. *)
Definition forget (o : operation) : list operation :=
  match o with
  | OpPlay source loop _ => [OpPlay source loop false]
  | OpCall _ (CallSetLoop _) | OpCall _ (CallSetDeleteOnDone _)
  | OpCall _ CallUpdateOldVolume => []
  | OpCall h (CallPlay _ _) => [OpCall h (CallPlay None 0)]
  | _ => [o]
  end.

(** Two worlds that differ in those members only. *)
Definition alike (w w' : World) : Prop :=
  mixer w = mixer w' ∧ held w = held w' ∧ config w = config w' ∧
  WebAudioGetOffsetSeconds w = WebAudioGetOffsetSeconds w' ∧
  inert <$> heap w = inert <$> heap w'.

(** * The bridge to the backend and the life of a mixer *)

(** [WebAudioBridge.cpp], and of [WebAudioMixer.cpp] the global pointer
    (line 40), the constructor, the destructor and [Init] (lines 338-364).
    A process has any number of mixers; they share the channel objects, the
    references of the application, the configuration and the backend. *)

(** The address of a mixer object. *)
Abbreviation address := nat (only parsing).

(** The functions that are installed as the callback: the lambda of the
    constructor of the mixer is the only one. *)
Inductive WebAudioEndedCallback : Type := Dispatch.

(** What a process does: the initialisation of the backend, and the events
    of the member functions of its mixers. *)
Inductive process_event : Type :=
  | WebAudioEnsureInit
  | MixerEvent (this : address) (e : event).

(** [mixers] has the members of every mixer by address, [None] once the
    mixer is destroyed; an address is not used again. *)
Record Process : Type := mkProcess {
  g_WebAudioMixer : option address;
  gWebAudioEndedCallback : option WebAudioEndedCallback;
  mixers : list (option WebAudioMixer);
  p_heap : list WebAudioChannel;
  p_held : list handle;
  p_config : Config;
  p_position : Z → R
}.

Definition set_g_WebAudioMixer (g : option address) (p : Process) : Process :=
  let '(mkProcess _ cb ms hp hl cfg pos) := p in mkProcess g cb ms hp hl cfg pos.

Definition set_gWebAudioEndedCallback (cb : option WebAudioEndedCallback)
    (p : Process) : Process :=
  let '(mkProcess g _ ms hp hl cfg pos) := p in mkProcess g cb ms hp hl cfg pos.

Definition set_mixers (ms : list (option WebAudioMixer)) (p : Process) : Process :=
  let '(mkProcess g cb _ hp hl cfg pos) := p in mkProcess g cb ms hp hl cfg pos.

Definition process_step : Type := Process → Process * list process_event.

Definition and_next (f g : process_step) : process_step :=
  λ p, let r := f p in let r' := g r.1 in (r'.1, r.2 ++ r'.2).

(** The world of a member function of the mixer [m], and the process after
    the member function of the mixer at [this] has left the world [w]. *)
Definition world_of (p : Process) (m : WebAudioMixer) : World :=
  mkWorld (p_heap p) (p_held p) m (p_config p) (p_position p).

Definition store (this : address) (w : World) (p : Process) : Process :=
  mkProcess (g_WebAudioMixer p) (gWebAudioEndedCallback p)
    (<[this := Some (mixer w)]> (mixers p))
    (heap w) (held w) (config w) (WebAudioGetOffsetSeconds w).

(** A member function called on the mixer at [this]; there is nothing to
    call on an address that has no mixer. *)
Definition on (this : address) (f : step) : process_step :=
  λ p,
    match mixers p !! this with
    | Some (Some m) =>
        let r := f (world_of p m) in
        (store this r.1 p, MixerEvent this <$> r.2)
    | _ => (p, [])
    end.

(** ** WebAudioBridge.cpp *)

Definition SetWebAudioChannelEndedCallback
    (callback : option WebAudioEndedCallback) : process_step :=
  λ p, (set_gWebAudioEndedCallback callback p, []).

(** The call of the installed function (the lambda at lines 342-347). *)
Definition invoke (callback : WebAudioEndedCallback) (channelId : Z)
  : process_step :=
  match callback with
  | Dispatch =>
      λ p,
        match g_WebAudioMixer p with
        | Some this => on this (OnChannelEnded channelId) p
        | None => (p, [])
        end
  end.

Definition WebAudioChannelEnded (channelId : Z) : process_step :=
  λ p,
    match gWebAudioEndedCallback p with
    | Some callback => invoke callback channelId p
    | None => (p, [])
    end.

(** ** The constructor, the destructor and Init *)

(** The new object is at the next address, with its member initialisers;
    then the body of the constructor runs. *)
Definition new_WebAudioMixer : process_step :=
  λ p,
    let this := length (mixers p) in
    and_next (λ p', (set_mixers (mixers p' ++ [Some mixer_fields]) p', []))
      (and_next (λ p', (set_g_WebAudioMixer (Some this) p', []))
         (and_next (λ p', (p', [WebAudioEnsureInit]))
            (SetWebAudioChannelEndedCallback (Some Dispatch)))) p.

(** The body of the destructor, then the end of the members. *)
Definition delete_WebAudioMixer (this : address) : process_step :=
  λ p,
    match mixers p !! this with
    | Some (Some _) =>
        and_next (on this Close)
          (and_next (SetWebAudioChannelEndedCallback None)
             (and_next
                (λ p', (if bool_decide (g_WebAudioMixer p' = Some this)
                        then set_g_WebAudioMixer None p' else p', []))
                (λ p', (set_mixers (<[this := None]> (mixers p')) p', [])))) p
    | _ => (p, [])
    end.

Definition Init (this : address) : process_step :=
  λ p,
    match mixers p !! this with
    | Some (Some _) => (p, [WebAudioEnsureInit])
    | _ => (p, [])
    end.

(** ** The process *)

(** What can happen in a process: a mixer is constructed or destroyed, the
    application calls [Init] or does something with a mixer and its
    channels, or the backend reports the end of a sound. *)
Inductive process_operation : Type :=
  | NewMixer
  | DeleteMixer (this : address)
  | CallInit (this : address)
  | OnMixer (this : address) (o : operation)
  | ChannelEnded (channelId : Z).

Definition process_perform (MAX : Z)
    (conv : AudioFormat → list byte → option (list byte))
    (o : process_operation) : process_step :=
  match o with
  | NewMixer => new_WebAudioMixer
  | DeleteMixer this => delete_WebAudioMixer this
  | CallInit this => Init this
  | OnMixer this o' => on this (perform MAX conv o')
  | ChannelEnded channelId => WebAudioChannelEnded channelId
  end.

Fixpoint process_run (MAX : Z)
    (conv : AudioFormat → list byte → option (list byte))
    (ops : list process_operation) : process_step :=
  match ops with
  | [] => λ p, (p, [])
  | o :: ops' => and_next (process_perform MAX conv o) (process_run MAX conv ops')
  end.

(** The process before any mixer is constructed. *)
Definition new_process (cfg : Config) (pos : Z → R) : Process :=
  mkProcess None None [] [] [] cfg pos.

(** The mixer at an address, if there is one. *)
Definition mixer_at (p : Process) (this : address) : option WebAudioMixer :=
  mjoin (mixers p !! this).

Definition is_NewMixer (o : process_operation) : bool :=
  match o with NewMixer => true | _ => false end.

(** The callback is installed only while the global pointer is the address
    of the mixer constructed last, and that mixer exists; the global pointer
    is never the address of a destroyed mixer. *)
Definition bridge_ok (p : Process) : Prop :=
  (∀ this, g_WebAudioMixer p = Some this → is_Some (mixer_at p this)) ∧
  (∀ cb, gWebAudioEndedCallback p = Some cb →
         g_WebAudioMixer p = Some (pred (length (mixers p)))).

(** * Properties *)

(** ** Arithmetic helpers *)

Lemma clampR_spec_pan (p : R) : clampR p 0 1 = spec_pan p.
Proof.
  unfold clampR, spec_pan.
  destruct (Rlt_dec p 0) as [Hlo|Hlo].
  - rewrite Rmin_left by lra. rewrite Rmax_left by lra. reflexivity.
  - destruct (Rlt_dec 1 p) as [Hhi|Hhi].
    + rewrite Rmin_right by lra. rewrite Rmax_right by lra. reflexivity.
    + rewrite Rmin_left by lra. rewrite Rmax_right by lra. reflexivity.
Qed.

Lemma spec_pan_id (p : R) : (0 <= p <= 1)%R → spec_pan p = p.
Proof.
  intros Hp. unfold spec_pan.
  rewrite Rmin_left by lra. rewrite Rmax_right by lra. reflexivity.
Qed.

Lemma pow_10 (y : R) : pow 10 y = Rpower 10 y.
Proof. unfold pow. destruct (Req_dec_T 10 0); [lra | reflexivity]. Qed.

Lemma spec_linearGain_center : spec_linearGain (1/2) = 1%R.
Proof.
  unfold spec_linearGain, spec_attenuation_dB.
  replace (1 / 2 - 1 / 2)%R with 0%R by lra.
  rewrite Rabs_R0.
  replace (0 * 2 * 100 / 20)%R with 0%R by lra.
  apply Rpower_O. lra.
Qed.

Lemma spec_linearGain_mirror (p : R) :
  spec_linearGain (1 - p) = spec_linearGain p.
Proof.
  unfold spec_linearGain, spec_attenuation_dB.
  replace (1 - p - 1 / 2)%R with (- (p - 1 / 2))%R by lra.
  rewrite Rabs_Ropp. reflexivity.
Qed.

(** ** The pan law *)

(** What [SetPan] leaves in the three fields it assigns, in the words of
    the specification. *)
Lemma SetPan_fields (MAX : Z) (c : WebAudioChannel) (p : R) :
  let c' := (SetPan MAX p c).1 in
  c_pan c' = spec_pan p ∧
  c_volume_l c' = spec_leftGain p ∧
  c_volume_r c' = spec_rightGain p.
Proof.
  destruct c. cbn. rewrite clampR_spec_pan, pow_10.
  unfold spec_leftGain, spec_rightGain, spec_linearGain, spec_attenuation_dB.
  replace (Rabs (spec_pan p - 0.5) * 2.0 * 100.0 / 20.0)%R
    with (Rabs (spec_pan p - 1 / 2) * 2 * 100 / 20)%R
    by (replace (spec_pan p - 0.5)%R with (spec_pan p - 1 / 2)%R by lra; lra).
  split; [reflexivity|].
  destruct (Rle_dec (spec_pan p) 0.5) as [H|H];
    destruct (Rle_dec (spec_pan p) (1 / 2)) as [H'|H'];
    try (exfalso; lra); split; unfold Rdiv; lra.
Qed.

Lemma spec_gain_symmetry (p : R) :
  (0 <= p <= 1)%R → spec_leftGain p = spec_rightGain (1 - p).
Proof.
  intros Hp. unfold spec_leftGain, spec_rightGain.
  rewrite (spec_pan_id p) by lra. rewrite (spec_pan_id (1 - p)) by lra.
  rewrite spec_linearGain_mirror.
  destruct (Rle_dec p (1 / 2)) as [H|H];
    destruct (Rle_dec (1 - p) (1 / 2)) as [H'|H']; try reflexivity.
  - assert (p = 1 / 2)%R as -> by lra.
    rewrite spec_linearGain_center. lra.
  - lra.
Qed.

Lemma spec_gain_center :
  spec_leftGain (1/2) = 1%R ∧ spec_rightGain (1/2) = 1%R.
Proof.
  unfold spec_leftGain, spec_rightGain.
  rewrite (spec_pan_id (1 / 2)) by lra.
  destruct (Rle_dec (1 / 2) (1 / 2)) as [_|H]; [|lra].
  rewrite spec_linearGain_center. split; lra.
Qed.

(** C5. [SetPan q] stores the pan clamped to [0,1] and the two gains of
    the pan law: attenuation |pan - 0.5| * 2 * 100 dB, linear gain
    10^(attenuation/20), gain 1 on the side the pan leans toward and
    1/linearGain on the other.  For every p in [0,1] the left gain at p is
    the right gain at 1 - p, and at 0.5 both gains are 1. *)
Theorem SetPan_pan_law (MAX : Z) (c : WebAudioChannel) (q p : R) :
  (0 <= p <= 1)%R →
  (let c' := (SetPan MAX q c).1 in
   c_pan c' = Rmax 0 (Rmin q 1) ∧
   c_volume_l c' =
     (if Rle_dec (c_pan c') (1/2) then 1
      else / Rpower 10 (Rabs (c_pan c' - 1/2) * 2 * 100 / 20))%R ∧
   c_volume_r c' =
     (if Rle_dec (c_pan c') (1/2)
      then / Rpower 10 (Rabs (c_pan c' - 1/2) * 2 * 100 / 20) else 1)%R) ∧
  c_volume_l (SetPan MAX p c).1 = c_volume_r (SetPan MAX (1 - p) c).1 ∧
  c_volume_l (SetPan MAX 0.5 c).1 = 1%R ∧
  c_volume_r (SetPan MAX 0.5 c).1 = 1%R.
Proof.
  intros Hp.
  split; [|split].
  - destruct (SetPan_fields MAX c q) as (Hpan & Hl & Hr).
    cbv zeta. rewrite Hpan, Hl, Hr. repeat split.
  - destruct (SetPan_fields MAX c p) as (_ & Hl & _).
    destruct (SetPan_fields MAX c (1 - p)) as (_ & _ & Hr).
    rewrite Hl, Hr. apply spec_gain_symmetry, Hp.
  - destruct (SetPan_fields MAX c 0.5) as (_ & Hl & Hr).
    rewrite Hl, Hr. replace 0.5%R with (1 / 2)%R by lra.
    exact spec_gain_center.
Qed.

Lemma SetPan_pan_law_witness :
  (0 <= 0.25 <= 1)%R ∧
  c_pan (SetPan 128 2 (channel_fields 1)).1 = Rmax 0 (Rmin 2 1) ∧
  c_volume_l (SetPan 128 0.25 (channel_fields 1)).1
  = c_volume_r (SetPan 128 (1 - 0.25) (channel_fields 1)).1.
Proof.
  assert (0 <= 0.25 <= 1)%R as H by lra.
  destruct (SetPan_pan_law 128 (channel_fields 1) 2 0.25 H)
    as ((Hpan & _) & Hsym & _).
  split; [exact H|]. split; [exact Hpan | exact Hsym].
Defined.

(** ** What a statement leaves alone *)

Lemma UpdateAdjustedSound_mixer w :
  let m := mixer w in
  let m' := mixer (UpdateAdjustedSound w) in
  heap (UpdateAdjustedSound w) = heap w ∧
  held (UpdateAdjustedSound w) = held w ∧
  config (UpdateAdjustedSound w) = config w ∧
  _nextChannelId m' = _nextChannelId m ∧ _volume m' = _volume m ∧
  _channels m' = _channels m ∧ _channelMap m' = _channelMap m ∧
  _sources m' = _sources m.
Proof. destruct w as [hp hl [] cfg pos]. cbn. split_and!; reflexivity. Qed.

Lemma UpdateChannel_world MAX c restart w :
  (UpdateChannel MAX c restart w).1 = if c_done c then w else UpdateAdjustedSound w.
Proof. unfold UpdateChannel. destruct (c_done c); reflexivity. Qed.

Lemma UpdateChannel_done MAX c restart w :
  c_done c = true → UpdateChannel MAX c restart w = (w, []).
Proof. intros H. unfold UpdateChannel. rewrite H. reflexivity. Qed.

(** ** Play *)

Lemma clampZ_max (MAX : Z) : 0 ≤ MAX → clampZ MAX 0 MAX = MAX.
Proof.
  intros H. unfold clampZ.
  destruct (Z.ltb_spec MAX 0); [lia|].
  destruct (Z.ltb_spec MAX MAX); [lia|]. reflexivity.
Qed.

(** The constructor: the three setters run while [_done] still has its
    initial value [true], so nothing reaches the backend and the mixer is
    not touched. *)
Lemma new_WebAudioChannel_spec (MAX channelId : Z) :
  let r := new_WebAudioChannel MAX channelId in
  (∀ w, r.2 w = (w, [])) ∧
  c_channelId r.1 = channelId ∧
  c_rate r.1 = 1%R ∧ c_pan r.1 = (1/2)%R ∧
  c_volume r.1 = clampZ MAX 0 MAX ∧
  c_group r.1 = Sound ∧ c_stopping r.1 = false ∧ c_done r.1 = true ∧
  c_offsetBytes r.1 = 0.
Proof.
  cbn.
  split_and!;
    [reflexivity | reflexivity | apply Rmax_right; lra |
     rewrite clampR_spec_pan, spec_pan_id by lra; lra | reflexivity ..].
Qed.

Lemma fresh_channel_fields MAX channelId source loop deleteondone fmt :
  let c := fresh_channel MAX channelId source loop deleteondone fmt in
  c_channelId c = channelId ∧
  c_rate c = 1%R ∧ c_pan c = (1/2)%R ∧
  c_volume c = clampZ MAX 0 MAX ∧
  c_group c = Sound ∧ c_stopping c = false ∧ c_done c = false ∧
  c_offsetBytes c = 0 ∧ c_format c = fmt ∧ c_loop c = loop ∧
  c_source c = source ∧ c_deleteondone c = deleteondone.
Proof.
  cbn.
  split_and!;
    [reflexivity | apply Rmax_right; lra |
     rewrite clampR_spec_pan, spec_pan_id by lra; lra | reflexivity ..].
Qed.

(** The world after [Play_locked], member by member. *)
Lemma Play_locked_world MAX source loop deleteondone fmt floatData n frames w :
  let r := Play_locked MAX source loop deleteondone fmt floatData n frames w in
  let h := length (heap w) in
  let channelId := _nextChannelId (mixer w) in
  let c := fresh_channel MAX channelId source loop deleteondone fmt in
  r.1 = h ∧
  heap r.2.1 = heap w ++ [c] ∧
  held r.2.1 = h :: held w ∧
  config r.2.1 = config w ∧
  _nextChannelId (mixer r.2.1) = wrap32 (channelId + 1) ∧
  _channels (mixer r.2.1) = _channels (mixer w) ++ [h] ∧
  _channelMap (mixer r.2.1) = <[channelId := h]> (_channelMap (mixer w)) ∧
  _volume (mixer r.2.1) = _volume (mixer w) ∧
  _sources (mixer r.2.1) = _sources (mixer w) ∧
  _settingSoundVolume (mixer r.2.1) = _settingSoundVolume (mixer (UpdateAdjustedSound w)) ∧
  _settingMusicVolume (mixer r.2.1) = _settingMusicVolume (mixer (UpdateAdjustedSound w)) ∧
  _adjustSoundVolume (mixer r.2.1) = _adjustSoundVolume (mixer (UpdateAdjustedSound w)) ∧
  _adjustMusicVolume (mixer r.2.1) = _adjustMusicVolume (mixer (UpdateAdjustedSound w)).
Proof. destruct w as [hp hl [] cfg pos]. cbn. split_and!; reflexivity. Qed.

(** The events of [Play_locked]. *)
Lemma Play_locked_trace MAX source loop deleteondone fmt floatData n frames w :
  let r := Play_locked MAX source loop deleteondone fmt floatData n frames w in
  let channelId := _nextChannelId (mixer w) in
  let c := fresh_channel MAX channelId source loop deleteondone fmt in
  r.2.2 =
    [MutexLock; Mutate LiveChannels; Mutate Registry;
     Backend (WebAudioPlayChannel channelId n frames (freq fmt) floatData
                loop (c_rate c)
                (GetAdjustedVolume MAX (UpdateAdjustedSound w) c) (c_pan c)
                (fdiv (c_offsetBytes c) (GetBytesPerSecond fmt)));
     MutexUnlock].
Proof.
  destruct w as [hp hl [] cfg pos]. cbn.
  unfold GetAdjustedVolume. cbn. reflexivity.
Qed.

Lemma pair_Some_inv {A B : Type} (r : A * B) (a : A) (b : B) :
  (Some r.1, r.2) = (Some a, b) → r = (a, b).
Proof. destruct r as [a' b']. cbn. intros [= -> ->]. reflexivity. Qed.

(** Every successful [Play] goes through [Play_locked]. *)
Lemma Play_Some MAX conv source loop deleteondone w h w' tr :
  Play MAX conv source loop deleteondone w = (Some h, (w', tr)) →
  ∃ fmt floatData n frames,
    0 < n ∧ 0 < frames ∧
    Play_locked MAX source loop deleteondone fmt floatData n frames w
      = (h, (w', tr)).
Proof.
  unfold Play. intros H.
  destruct source as [[sdl|]|]; try discriminate.
  cbv zeta in H.
  match type of H with
  | context [match ?x with Some _ => _ | None => _ end] =>
      destruct x as [[fmt pcm]|]
  end; try discriminate.
  destruct (Z.leb_spec (channels fmt) 0); try discriminate.
  destruct (Z.leb_spec (wrap32 (Z.of_nat (length (ConvertToFloat fmt pcm))
                                 / channels fmt)) 0); try discriminate.
  apply pair_Some_inv in H.
  eexists _, _, _, _. split; [|split]; [| |exact H]; lia.
Qed.

(** What a successful [Play] does, from the world it starts in. *)
Lemma Play_success MAX conv source loop deleteondone w h w' tr :
  Play MAX conv source loop deleteondone w = (Some h, (w', tr)) →
  ∃ fmt floatData n frames,
    let channelId := _nextChannelId (mixer w) in
    let c := fresh_channel MAX channelId source loop deleteondone fmt in
    0 < n ∧ 0 < frames ∧
    h = length (heap w) ∧
    heap w' = heap w ++ [c] ∧
    held w' = h :: held w ∧
    config w' = config w ∧
    _nextChannelId (mixer w') = wrap32 (channelId + 1) ∧
    _channels (mixer w') = _channels (mixer w) ++ [h] ∧
    _channelMap (mixer w') = <[channelId := h]> (_channelMap (mixer w)) ∧
    _volume (mixer w') = _volume (mixer w) ∧
    _sources (mixer w') = _sources (mixer w) ∧
    _settingSoundVolume (mixer w') = _settingSoundVolume (mixer (UpdateAdjustedSound w)) ∧
    _settingMusicVolume (mixer w') = _settingMusicVolume (mixer (UpdateAdjustedSound w)) ∧
    _adjustSoundVolume (mixer w') = _adjustSoundVolume (mixer (UpdateAdjustedSound w)) ∧
    _adjustMusicVolume (mixer w') = _adjustMusicVolume (mixer (UpdateAdjustedSound w)) ∧
    tr =
      [MutexLock; Mutate LiveChannels; Mutate Registry;
       Backend (WebAudioPlayChannel channelId n frames (freq fmt) floatData
                  loop (c_rate c)
                  (GetAdjustedVolume MAX (UpdateAdjustedSound w) c) (c_pan c)
                  (fdiv (c_offsetBytes c) (GetBytesPerSecond fmt)));
       MutexUnlock].
Proof.
  intros HPlay.
  destruct (Play_Some _ _ _ _ _ _ _ _ _ HPlay) as (fmt & fl & n & fr & Hn & Hfr & HL).
  exists fmt, fl, n, fr.
  pose proof (Play_locked_world MAX source loop deleteondone fmt fl n fr w) as HW.
  pose proof (Play_locked_trace MAX source loop deleteondone fmt fl n fr w) as HT.
  cbv zeta in HW, HT. rewrite HL in HW, HT. cbn [fst snd] in HW, HT.
  cbv zeta. destruct HW as (-> & HW).
  split; [exact Hn|]. split; [exact Hfr|]. split; [reflexivity|].
  split_and!; try apply HW. exact HT.
Qed.

(** ** The defaults of a fresh channel *)

(** C9, as amended.  The channel that a successful [Play] returns has
    rate 1.0, pan 0.5 and volume [kMixerVolumeMax], the top of the range:
    the constructor calls [SetVolume(kMixerVolumeMax)] over the member
    initialiser 1. *)
Theorem fresh_channel_defaults MAX conv source loop deleteondone w h w' tr :
  0 ≤ MAX →
  Play MAX conv source loop deleteondone w = (Some h, (w', tr)) →
  ∃ c, heap w' !! h = Some c ∧
       c_rate c = 1%R ∧ c_pan c = (1/2)%R ∧ c_volume c = MAX.
Proof.
  intros HMAX HPlay.
  destruct (Play_success _ _ _ _ _ _ _ _ _ HPlay)
    as (fmt & fl & n & fr & _ & _ & -> & Hheap & _).
  eexists. rewrite Hheap. split.
  - rewrite lookup_app_r by lia. rewrite Nat.sub_diag. reflexivity.
  - destruct (fresh_channel_fields MAX (_nextChannelId (mixer w)) source loop
                deleteondone fmt) as (_ & Hr & Hp & Hv & _).
    rewrite Hv, clampZ_max by lia. auto.
Qed.

Lemma sample_played_eq :
  sample_played = (Some 0%nat, (sample_played.2.1, sample_played.2.2)).
Proof. reflexivity. Qed.

Lemma fresh_channel_defaults_witness :
  0 ≤ 128 ∧
  ∃ c, heap sample_played.2.1 !! 0%nat = Some c ∧
       c_rate c = 1%R ∧ c_pan c = (1/2)%R ∧ c_volume c = 128.
Proof.
  split; [lia|].
  apply (fresh_channel_defaults 128 no_conversion (Some sample_source) 0 false
           sample_world 0%nat sample_played.2.1 sample_played.2.2).
  - lia.
  - exact sample_played_eq.
Defined.

(** C9, the claim as stated fails: with [kMixerVolumeMax] at 128 the first
    channel of a new mixer has volume 128, which is not in the lower half
    of 0..128. *)
Lemma fresh_channel_volume_not_near_silent :
  sample_played.1 = Some 0%nat ∧
  ∃ c, heap sample_played.2.1 !! 0%nat = Some c ∧
       c_volume c = 128 ∧ ¬ spec_fresh_defaults 128 c.
Proof.
  split; [reflexivity|].
  eexists. split; [|split].
  - cbn. reflexivity.
  - reflexivity.
  - intros (_ & _ & _ & H). cbn in H. lia.
Qed.

(** ** Volume adjustment *)

Lemma cache_ok_new : cache_ok mixer_fields.
Proof. split; left; split; reflexivity. Qed.

Lemma UpdateAdjustedSound_cache_ok w :
  cache_ok (mixer w) → cache_ok (mixer (UpdateAdjustedSound w)).
Proof.
  destruct w as [hp hl [] cfg pos]. unfold cache_ok. cbn.
  intros [Hs Hm].
  repeat case_bool_decide; cbn; split; auto.
Qed.

Lemma UpdateAdjustedSound_curves w :
  cache_ok (mixer w) →
  0 ≤ soundVolume (config w) → 0 ≤ rideMusicVolume (config w) →
  _adjustSoundVolume (mixer (UpdateAdjustedSound w))
    = spec_curve (soundVolume (config w)) ∧
  _adjustMusicVolume (mixer (UpdateAdjustedSound w))
    = spec_curve (rideMusicVolume (config w)).
Proof.
  destruct w as [hp hl [] cfg pos]. unfold cache_ok. cbn.
  intros [Hs Hm] HS HM.
  repeat case_bool_decide; cbn; split; try reflexivity.
  all: repeat match goal with
       | H : ¬ (_ ≠ _) |- _ => apply dec_stable in H
       end.
  all: first
    [ destruct Hs as [[Hs _]|Hs]; [lia|]; congruence
    | destruct Hm as [[Hm _]|Hm]; [lia|]; congruence ].
Qed.

Lemma GetAdjustedVolume_spec MAX w c :
  _adjustSoundVolume (mixer w) = spec_curve (soundVolume (config w)) →
  _adjustMusicVolume (mixer w) = spec_curve (rideMusicVolume (config w)) →
  GetAdjustedVolume MAX w c
    = spec_effectiveVolume MAX (_volume (mixer w)) (config w) c.
Proof.
  intros Hs Hm.
  unfold GetAdjustedVolume, spec_effectiveVolume, spec_categoryAdjust,
    is_capped, spec_master.
  rewrite Hs, Hm.
  destruct (c_group c), (titleSequence (config w)); reflexivity.
Qed.

Lemma spec_effectiveVolume_zero MAX s cfg c :
  s = 0%R ∨ masterSoundEnabled cfg = false →
  spec_effectiveVolume MAX s cfg c = 0%R.
Proof.
  intros H. unfold spec_effectiveVolume.
  assert (s * spec_master cfg = 0)%R as Hz.
  { destruct H as [->|H]; [lra|]. unfold spec_master. rewrite H. lra. }
  rewrite Hz, Rmult_0_l.
  rewrite Rmin_left by lra.
  destruct (is_capped _ _); unfold Rdiv; rewrite Rmult_0_r, Rmult_0_l;
    reflexivity.
Qed.

(** C4. The volume that goes to the backend, in [UpdateChannel] and in
    [Play], is channel.volume x masterScalar x (masterEnabled ?
    masterVolume/100 : 0) x categoryAdjust(group) / MAX_VOLUME with
    categoryAdjust the curve (configValue/100)^(10/6) of the sound or the
    music setting; in the title sequence the adjustment of a channel of the
    Sound group is capped at 0.75; and it is 0 when the master scalar is 0
    or the master switch is off. *)
Theorem effective_volume MAX conv (w : World) :
  cache_ok (mixer w) →
  0 ≤ soundVolume (config w) → 0 ≤ rideMusicVolume (config w) →
  let cfg := config w in
  let scalar := _volume (mixer w) in
  (∀ c,
     let v := GetAdjustedVolume MAX (UpdateAdjustedSound w) c in
     let adjust :=
       (scalar * spec_master cfg * spec_categoryAdjust cfg (c_group c))%R in
     (is_capped cfg (c_group c) = false →
      v = (IZR (c_volume c) * scalar * spec_master cfg
           * spec_categoryAdjust cfg (c_group c) / IZR MAX)%R) ∧
     (is_capped cfg (c_group c) = true →
      v = (IZR (c_volume c) * Rmin adjust 0.75 / IZR MAX)%R) ∧
     (scalar = 0%R ∨ masterSoundEnabled cfg = false → v = 0%R)) ∧
  (∀ c restart, c_done c = false →
     ∃ offsetSeconds,
       (UpdateChannel MAX c restart w).2 =
       [Backend (WebAudioUpdateChannel (c_channelId c) (c_rate c)
                   (GetAdjustedVolume MAX (UpdateAdjustedSound w) c)
                   (c_pan c) offsetSeconds (if restart then 1 else 0))]) ∧
  (∀ source loop deleteondone h w' tr,
     Play MAX conv source loop deleteondone w = (Some h, (w', tr)) →
     ∃ c n frames rate data pan offsetSeconds,
       heap w' !! h = Some c ∧
       Backend (WebAudioPlayChannel (c_channelId c) n frames rate data loop
                  (c_rate c)
                  (GetAdjustedVolume MAX (UpdateAdjustedSound w) c)
                  pan offsetSeconds) ∈ tr).
Proof.
  intros Hok HS HM cfg scalar.
  destruct (UpdateAdjustedSound_curves w Hok HS HM) as [Hs Hm].
  destruct (UpdateAdjustedSound_mixer w) as (_ & _ & Hcfg & _ & Hvol & _).
  split; [|split].
  - intros c v adjust. subst v.
    rewrite (GetAdjustedVolume_spec MAX _ c) by (rewrite Hcfg; assumption).
    rewrite Hcfg, Hvol. fold cfg scalar.
    split; [|split].
    + intros Hcap. unfold spec_effectiveVolume. rewrite Hcap.
      unfold Rdiv. rewrite !Rmult_assoc. reflexivity.
    + intros Hcap. unfold spec_effectiveVolume. rewrite Hcap. reflexivity.
    + apply spec_effectiveVolume_zero.
  - intros c restart Hdone. unfold UpdateChannel. rewrite Hdone.
    eexists. reflexivity.
  - intros source loop deleteondone h w' tr HPlay.
    destruct (Play_success _ _ _ _ _ _ _ _ _ HPlay)
      as (fmt & fl & n & fr & _ & _ & -> & Hheap & Hrest).
    do 11 destruct Hrest as (_ & Hrest).
    set (c := fresh_channel MAX (_nextChannelId (mixer w)) source loop
                deleteondone fmt) in *.
    exists c, n, fr, (freq fmt), fl, (c_pan c),
      (fdiv (c_offsetBytes c) (GetBytesPerSecond fmt)).
    split.
    + rewrite Hheap, lookup_app_r by lia. rewrite Nat.sub_diag. reflexivity.
    + rewrite Hrest.
      destruct (fresh_channel_fields MAX (_nextChannelId (mixer w)) source
                  loop deleteondone fmt) as (Hid & _).
      fold c in Hid. rewrite Hid.
      rewrite !elem_of_cons. right. right. right. left. reflexivity.
Qed.

Lemma effective_volume_witness :
  cache_ok (mixer sample_world) ∧
  0 ≤ soundVolume (config sample_world) ∧
  0 ≤ rideMusicVolume (config sample_world) ∧
  GetAdjustedVolume 128 (UpdateAdjustedSound sample_world) sample_channel
  = (IZR (c_volume sample_channel) * _volume (mixer sample_world)
     * spec_master sample_config
     * spec_categoryAdjust sample_config (c_group sample_channel) / IZR 128)%R.
Proof.
  assert (0 ≤ soundVolume (config sample_world)) as HS by (cbn; lia).
  assert (0 ≤ rideMusicVolume (config sample_world)) as HM by (cbn; lia).
  split_and!; [exact cache_ok_new | exact HS | exact HM |].
  destruct (effective_volume 128 no_conversion sample_world cache_ok_new HS HM)
    as (H & _).
  destruct (H sample_channel) as (H1 & _).
  apply H1. reflexivity.
Defined.

(** ** Offsets under a format of zero bytes per second *)

Lemma SetOffset_zero_rate MAX offset c :
  GetBytesPerSecond (c_format c) = 0 →
  SetOffset MAX offset c = (false, (c, skip)).
Proof. intros H. unfold SetOffset. rewrite H. reflexivity. Qed.

(** Through a reference: the call leaves the whole world as it is and
    produces no event. *)
Lemma call_SetOffset_zero_rate MAX offset h c w :
  heap w !! h = Some c →
  GetBytesPerSecond (c_format c) = 0 →
  call h (method_of MAX (CallSetOffset offset)) w = (w, []).
Proof.
  intros Hh H. unfold call. rewrite Hh. cbn [method_of].
  rewrite SetOffset_zero_rate by assumption.
  destruct w as [hp hl m cfg pos]. unfold seq, modify, skip. cbn in *.
  rewrite list_insert_id by assumption. reflexivity.
Qed.

Lemma GetOffset_zero_rate w c :
  GetBytesPerSecond (c_format c) = 0 → GetOffset w c = 0.
Proof.
  intros H. unfold GetOffset, GetChannelOffsetBytes. rewrite H. reflexivity.
Qed.

(** [UpdateChannel] never divides by zero: the offset it sends is a real
    number, and it is 0 when the format has no positive byte rate. *)
Lemma UpdateChannel_offset MAX c restart w :
  c_done c = false →
  ∃ seconds,
    (UpdateChannel MAX c restart w).2 =
      [Backend (WebAudioUpdateChannel (c_channelId c) (c_rate c)
                  (GetAdjustedVolume MAX (UpdateAdjustedSound w) c)
                  (c_pan c) (Finite seconds) (if restart then 1 else 0))] ∧
    (GetBytesPerSecond (c_format c) ≤ 0 → seconds = 0%R).
Proof.
  intros Hdone. unfold UpdateChannel. rewrite Hdone. cbn [snd].
  destruct (Z.ltb_spec 0 (GetBytesPerSecond (c_format c))) as [Hpos|Hle].
  - unfold fdiv. destruct (Z.eqb_spec (GetBytesPerSecond (c_format c)) 0); [lia|].
    eexists. split; [reflexivity|]. intros. lia.
  - exists 0%R. split; [reflexivity|]. reflexivity.
Qed.

(** [Play] has no such guard: whenever the format of the new channel has
    zero bytes per second, the start offset it sends is 0.0/0. *)
Lemma Play_zero_rate_offset MAX conv source loop deleteondone w h w' tr :
  Play MAX conv source loop deleteondone w = (Some h, (w', tr)) →
  ∃ c, heap w' !! h = Some c ∧
    (GetBytesPerSecond (c_format c) = 0 →
     ∃ n frames rate data volume,
       Backend (WebAudioPlayChannel (c_channelId c) n frames rate data loop
                  (c_rate c) volume (c_pan c) NaN) ∈ tr).
Proof.
  intros HPlay.
  destruct (Play_success _ _ _ _ _ _ _ _ _ HPlay)
    as (fmt & fl & n & fr & _ & _ & -> & Hheap & Hrest).
  do 11 destruct Hrest as (_ & Hrest).
  set (c := fresh_channel MAX (_nextChannelId (mixer w)) source loop
              deleteondone fmt) in *.
  destruct (fresh_channel_fields MAX (_nextChannelId (mixer w)) source
              loop deleteondone fmt) as (Hid & _ & _ & _ & _ & _ & _ & Hoff & Hfmt & _).
  fold c in Hid, Hoff, Hfmt.
  exists c. split.
  - rewrite Hheap, lookup_app_r by lia. rewrite Nat.sub_diag. reflexivity.
  - intros Hz. rewrite Hfmt in Hz.
    exists n, fr, (freq fmt), fl, (GetAdjustedVolume MAX (UpdateAdjustedSound w) c).
    rewrite Hrest, Hoff, Hz, Hid. unfold fdiv. cbn.
    rewrite !elem_of_cons. right. right. right. left. reflexivity.
Qed.

(** C6, the defect.  A source of one 16-bit mono sample with sample rate 0
    passes every check of [Play]; the channel it starts has a format of
    zero bytes per second, and the start offset sent to the backend is the
    quotient 0.0/0, not 0. *)
Theorem Play_divides_by_zero :
  let r := Play 128 no_conversion (Some zero_rate_source) 0 false sample_world in
  r.1 = Some 0%nat ∧
  (∃ c, heap r.2.1 !! 0%nat = Some c ∧ GetBytesPerSecond (c_format c) = 0) ∧
  ∃ data rate volume pan,
    r.2.2 =
      [MutexLock; Mutate LiveChannels; Mutate Registry;
       Backend (WebAudioPlayChannel 1 1 1 0 data 0 rate volume pan NaN);
       MutexUnlock].
Proof.
  cbv zeta. split; [reflexivity|]. split.
  - eexists. split; [cbn; reflexivity|]. reflexivity.
  - eexists _, _, _, _. cbn. reflexivity.
Qed.

(** ** When Play returns no channel *)

Lemma list_pair_ind {A : Type} (P : list A → Prop) :
  P [] → (∀ a, P [a]) → (∀ a b l, P l → P (a :: b :: l)) → ∀ l, P l.
Proof.
  intros H0 H1 H2. fix IH 1. intros [|a [|b l]].
  - exact H0.
  - apply H1.
  - apply H2, IH.
Qed.

Lemma pcm16_length (data : list byte) :
  Z.of_nat (length (pcm16 data)) = Z.of_nat (length data) / 2.
Proof.
  induction data as [|a|a b l IH] using list_pair_ind.
  - reflexivity.
  - reflexivity.
  - cbn [pcm16 length]. rewrite !Nat2Z.inj_succ, IH.
    replace (Z.succ (Z.succ (Z.of_nat (length l))))
      with (Z.of_nat (length l) + 1 * 2) by lia.
    rewrite Z.div_add by lia. lia.
Qed.

Lemma ConvertToFloat_length (fmt : AudioFormat) (data : list byte) :
  Z.of_nat (length (ConvertToFloat fmt data)) =
  if format fmt =? AUDIO_U8 then Z.of_nat (length data)
  else Z.of_nat (length data) / 2.
Proof.
  unfold ConvertToFloat. destruct (format fmt =? AUDIO_U8).
  - rewrite length_map. reflexivity.
  - rewrite length_map. apply pcm16_length.
Qed.

Lemma wrap32_small (z : Z) : -2^31 ≤ z < 2^31 → wrap32 z = z.
Proof.
  intros H. unfold wrap32.
  rewrite Z.mod_small by lia. lia.
Qed.

Lemma converted_None conv sdl :
  converted conv sdl = None ↔
  format (GetFormat sdl) ≠ AUDIO_S16SYS ∧
  format (GetFormat sdl) ≠ AUDIO_U8 ∧
  conv (GetFormat sdl) (source_data sdl) = None.
Proof.
  unfold converted, ConvertToS16, ReadAllPcmData.
  repeat case_bool_decide; cbn [andb]; try (split; [discriminate | tauto]).
  destruct (Z.eqb_spec (format (GetFormat sdl)) AUDIO_S16SYS); [tauto|].
  destruct (conv _ _); split; try discriminate; try tauto.
  intros (_ & _ & [=]).
Qed.

Lemma converted_Some conv sdl fmt pcm :
  addressable conv (Some (IsSDLAudioSource sdl)) →
  converted conv sdl = Some (fmt, pcm) →
  channels fmt = channels (GetFormat sdl) ∧
  spec_samples conv sdl = Some (Z.of_nat (length (ConvertToFloat fmt pcm))) ∧
  0 ≤ Z.of_nat (length (ConvertToFloat fmt pcm)) < 2^31.
Proof.
  intros [Hlen Hbuf].
  unfold converted, ConvertToS16, ReadAllPcmData, spec_samples.
  rewrite ConvertToFloat_length.
  destruct (Z.eqb_spec (format (GetFormat sdl)) AUDIO_S16SYS) as [e1|n1];
    destruct (Z.eqb_spec (format (GetFormat sdl)) AUDIO_U8) as [e2|n2].
  - rewrite e1 in e2. discriminate.
  - rewrite (bool_decide_eq_false_2 (_ ≠ AUDIO_S16SYS)) by tauto. cbn [andb].
    intros [= <- <-].
    destruct (Z.eqb_spec (format (GetFormat sdl)) AUDIO_U8); [tauto|].
    split; [reflexivity|]. split; [reflexivity|].
    split; [apply Z.div_pos; lia|].
    apply Z.div_lt_upper_bound; lia.
  - rewrite (bool_decide_eq_true_2 (_ ≠ AUDIO_S16SYS)) by assumption.
    rewrite (bool_decide_eq_false_2 (_ ≠ AUDIO_U8)) by tauto. cbn [andb].
    intros [= <- <-].
    destruct (Z.eqb_spec (format (GetFormat sdl)) AUDIO_U8); [|tauto].
    split; [reflexivity|]. split; [reflexivity|]. lia.
  - rewrite (bool_decide_eq_true_2 (_ ≠ AUDIO_S16SYS)) by assumption.
    rewrite (bool_decide_eq_true_2 (_ ≠ AUDIO_U8)) by assumption. cbn [andb].
    destruct (conv _ _) as [buffer|] eqn:Hconv; [|discriminate].
    intros [= <- <-]. cbn.
    specialize (Hbuf buffer eq_refl).
    split; [reflexivity|]. split; [reflexivity|].
    split; [apply Z.div_pos; lia|].
    apply Z.div_lt_upper_bound; lia.
Qed.

Lemma Play_SDL MAX conv sdl loop deleteondone w :
  Play MAX conv (Some (IsSDLAudioSource sdl)) loop deleteondone w =
  match converted conv sdl with
  | None => (None, (w, []))
  | Some (fmt, pcmData) =>
      let floatData := ConvertToFloat fmt pcmData in
      if channels fmt <=? 0 then (None, (w, []))
      else
        let frames := wrap32 (Z.of_nat (length floatData) / channels fmt) in
        if frames <=? 0 then (None, (w, []))
        else
          let r :=
            Play_locked MAX (Some (IsSDLAudioSource sdl)) loop deleteondone
              fmt floatData (channels fmt) frames w in
          (Some r.1, r.2)
  end.
Proof. reflexivity. Qed.

(** C2. [Play] returns no channel exactly when the source is null, is not
    an [SDLAudioSource], needs a conversion that fails, has no positive
    channel count, or gives a frame count of zero; and then the world is
    the one before the call and no event was produced: [_channels],
    [_channelMap] and [_nextChannelId] are untouched and nothing was sent
    to the backend. *)
Theorem Play_null_iff MAX conv source loop deleteondone w :
  addressable conv source →
  let r := Play MAX conv source loop deleteondone w in
  (r.1 = None ↔ spec_play_failure conv source) ∧
  (r.1 = None → r.2 = (w, [])).
Proof.
  intros Haddr. cbv zeta.
  destruct source as [[sdl|]|].
  2: { split; [split; [constructor | reflexivity] | reflexivity]. }
  2: { split; [split; [constructor | reflexivity] | reflexivity]. }
  rewrite Play_SDL.
  destruct (converted conv sdl) as [[fmt pcm]|] eqn:Hconv.
  - destruct (converted_Some _ _ _ _ Haddr Hconv) as (Hch & Hsamples & Hrange).
    assert (converted conv sdl ≠ None) as Hnot by congruence.
    rewrite converted_None in Hnot.
    cbv zeta.
    destruct (Z.leb_spec (channels fmt) 0) as [Hle|Hpos].
    { split; [split; [intros _; apply fail_channels; lia | reflexivity]
             | reflexivity]. }
    assert (0 ≤ Z.of_nat (length (ConvertToFloat fmt pcm)) / channels fmt < 2^31)
      as Hfr.
    { split; [apply Z.div_pos; lia|].
      apply Z.div_lt_upper_bound; [lia|]. nia. }
    rewrite wrap32_small by lia.
    destruct (Z.leb_spec (Z.of_nat (length (ConvertToFloat fmt pcm))
                          / channels fmt) 0) as [Hz|Hnz].
    { split; [split; [intros _ | reflexivity] | reflexivity].
      apply fail_frames. unfold spec_frame_count. rewrite Hsamples. cbn.
      rewrite <- Hch. f_equal. lia. }
    split; [split|]; cbn [fst]; try discriminate.
    intros Hfail. exfalso. inversion Hfail as [| |? H1 H2 H3|? H1|? H1]; subst.
    + tauto.
    + lia.
    + unfold spec_frame_count in H1. rewrite Hsamples in H1. cbn in H1.
      rewrite <- Hch in H1. injection H1 as H1. lia.
  - split; [split; [intros _ | reflexivity] | reflexivity].
    apply converted_None in Hconv. destruct Hconv as (H1 & H2 & H3).
    apply fail_conversion; assumption.
Qed.

Lemma Play_null_iff_witness :
  addressable no_conversion (Some empty_source) ∧
  (Play 128 no_conversion (Some empty_source) 0 false sample_world).1 = None ∧
  (Play 128 no_conversion (Some empty_source) 0 false sample_world).2
  = (sample_world, []).
Proof.
  assert (addressable no_conversion (Some empty_source)) as H.
  { split; [cbn; lia | discriminate]. }
  split; [exact H|].
  destruct (Play_null_iff 128 no_conversion (Some empty_source) 0 false
              sample_world H) as [[_ H1] H2].
  assert (spec_play_failure no_conversion (Some empty_source)) as Hfail.
  { apply fail_frames. reflexivity. }
  split; [apply H1, Hfail | apply H2, H1, Hfail].
Defined.

(** ** Views of a world and of a trace *)

Lemma id_of_ids w h : id_of w h = default 0 (ids w !! h).
Proof.
  unfold id_of, ids. rewrite list_lookup_fmap.
  destruct (heap w !! h); reflexivity.
Qed.

Lemma ids_lookup w h c : heap w !! h = Some c → ids w !! h = Some (c_channelId c).
Proof. intros H. unfold ids. rewrite list_lookup_fmap, H. reflexivity. Qed.

Lemma stoppings_lookup w h c :
  heap w !! h = Some c → stoppings w !! h = Some (c_stopping c).
Proof. intros H. unfold stoppings. rewrite list_lookup_fmap, H. reflexivity. Qed.

Lemma dones_lookup w h c : heap w !! h = Some c → dones w !! h = Some (c_done c).
Proof. intros H. unfold dones. rewrite list_lookup_fmap, H. reflexivity. Qed.

Lemma ids_length w : length (ids w) = length (heap w).
Proof. apply length_fmap. Qed.

Lemma discipline_app st tr1 tr2 :
  discipline st (tr1 ++ tr2) = discipline st tr1 ≫= λ st', discipline st' tr2.
Proof.
  revert st. induction tr1 as [|e tr1 IH]; intros st.
  - destruct tr2, st; reflexivity.
  - destruct e as [| |s|c], st as [|live registry]; cbn; auto.
    destruct (eqb live registry); auto.
Qed.

Lemma touched_app s tr1 tr2 :
  touched s (tr1 ++ tr2) = touched s tr1 || touched s tr2.
Proof.
  induction tr1 as [|e tr1 IH]; [reflexivity|].
  destruct e as [| |[]|]; destruct s; cbn; auto.
Qed.

Lemma touched_commands s tr : Forall is_command tr → touched s tr = false.
Proof.
  induction 1 as [|e tr He _ IH]; [reflexivity|].
  destruct e; cbn in *; tauto.
Qed.

Lemma discipline_inner live registry tr :
  Forall inner tr →
  discipline (Held live registry) tr
  = Some (Held (live || touched LiveChannels tr)
               (registry || touched Registry tr)).
Proof.
  intros H. revert live registry.
  induction H as [|e tr He _ IH]; intros live registry.
  - cbn. by rewrite !orb_false_r.
  - destruct e as [| |[]|]; cbn in *; try tauto; rewrite IH.
    + by rewrite orb_true_r.
    + by rewrite orb_true_r.
    + reflexivity.
    + reflexivity.
Qed.

(** One critical section: the lock, inner events that mutate both of
    [_channels] and [_channelMap] or neither, the unlock. *)
Lemma discipline_section tr :
  Forall inner tr →
  touched LiveChannels tr = touched Registry tr →
  discipline Free (MutexLock :: tr ++ [MutexUnlock]) = Some Free.
Proof.
  intros H Heq. cbn [discipline].
  rewrite discipline_app, discipline_inner by assumption.
  cbn. rewrite Heq. by destruct (touched Registry tr).
Qed.

(** ** The loop of Tick *)

Lemma Tick_loop_stopping MAX kept h rest w c :
  heap w !! h = Some c → c_stopping c = true →
  Tick_loop MAX kept (h :: rest) w =
  (let r := Tick_loop MAX kept rest (stop_step kept rest h c w) in
   (r.1, Backend (WebAudioStopChannel (c_channelId c))
         :: Mutate Registry :: Mutate LiveChannels :: r.2)).
Proof.
  intros Hh Hs.
  destruct w as [hp hl [n v ss sm as_ am chs map srcs] cfg pos].
  cbn in Hh. cbn [Tick_loop heap]. rewrite Hh, Hs.
  unfold seq, call. cbn. rewrite Hh. cbn. reflexivity.
Qed.

Lemma Tick_loop_live MAX kept h rest w c :
  heap w !! h = Some c → c_stopping c = false →
  Tick_loop MAX kept (h :: rest) w =
  (let r0 := if c_done c then (w, []) else UpdateChannel MAX c false w in
   let r := Tick_loop MAX (kept ++ [h]) rest r0.1 in
   (r.1, r0.2 ++ r.2)).
Proof.
  intros Hh Hs. cbn [Tick_loop]. rewrite Hh, Hs.
  unfold seq. destruct (c_done c); reflexivity.
Qed.

Lemma Tick_loop_dangling MAX kept h rest w :
  heap w !! h = None →
  Tick_loop MAX kept (h :: rest) w = Tick_loop MAX (kept ++ [h]) rest w.
Proof. intros Hh. cbn [Tick_loop]. rewrite Hh. reflexivity. Qed.

Lemma stop_step_view kept rest h c w :
  heap w !! h = Some c →
  let w' := stop_step kept rest h c w in
  ids w' = ids w ∧ stoppings w' = stoppings w ∧
  dones w' = <[h := true]> (dones w) ∧
  held w' = held w ∧ config w' = config w ∧
  _nextChannelId (mixer w') = _nextChannelId (mixer w) ∧
  _volume (mixer w') = _volume (mixer w) ∧
  _sources (mixer w') = _sources (mixer w) ∧
  _channels (mixer w') = kept ++ rest ∧
  _channelMap (mixer w') = delete (c_channelId c) (_channelMap (mixer w)) ∧
  (cache_ok (mixer w) → cache_ok (mixer w')).
Proof.
  intros Hh.
  destruct w as [hp hl [n v ss sm as_ am chs map srcs] cfg pos].
  cbn in Hh. unfold ids, stoppings, dones, cache_ok. cbn.
  rewrite !list_fmap_insert.
  destruct c. cbn.
  split_and!; try reflexivity; try tauto.
  - apply list_insert_id. rewrite list_lookup_fmap, Hh. reflexivity.
  - apply list_insert_id. rewrite list_lookup_fmap, Hh. reflexivity.
Qed.

Lemma UpdateChannel_view MAX c restart w :
  let r := UpdateChannel MAX c restart w in
  heap r.1 = heap w ∧ held r.1 = held w ∧ config r.1 = config w ∧
  _nextChannelId (mixer r.1) = _nextChannelId (mixer w) ∧
  _volume (mixer r.1) = _volume (mixer w) ∧
  _sources (mixer r.1) = _sources (mixer w) ∧
  _channels (mixer r.1) = _channels (mixer w) ∧
  _channelMap (mixer r.1) = _channelMap (mixer w) ∧
  (cache_ok (mixer w) → cache_ok (mixer r.1)) ∧
  (r.2 = [] ∨
   c_done c = false ∧ ∃ rate volume pan offset flag,
     r.2 = [Backend (WebAudioUpdateChannel (c_channelId c) rate volume pan
                       offset flag)]).
Proof.
  cbv zeta. rewrite UpdateChannel_world.
  unfold UpdateChannel. destruct (c_done c).
  - split_and!; try reflexivity; auto.
  - destruct (UpdateAdjustedSound_mixer w) as (H1 & H2 & H3 & H4 & H5 & H6 & H7 & H8).
    split_and!; try assumption.
    + apply UpdateAdjustedSound_cache_ok.
    + right. split; [reflexivity|]. eexists _, _, _, _, _. reflexivity.
Qed.

Lemma updated_filter_insert (st dn : list bool) (h : handle) (l : list handle) :
  st !! h = Some true →
  filter (λ h', st !! h' = Some false ∧ <[h := true]> dn !! h' = Some false) l
  = filter (λ h', st !! h' = Some false ∧ dn !! h' = Some false) l.
Proof.
  intros Hst. apply list_filter_iff. intros h'.
  destruct (decide (h' = h)) as [->|Hne].
  - split; intros [H _]; congruence.
  - rewrite list_lookup_insert_ne by congruence. reflexivity.
Qed.

(** What the loop of [Tick] does, from the world it starts in. *)
Lemma Tick_loop_spec MAX (rest : list handle) :
  ∀ kept w,
    let r := Tick_loop MAX kept rest w in
    ids r.1 = ids w ∧ stoppings r.1 = stoppings w ∧
    (∀ h, dones r.1 !! h =
          if decide (h ∈ rest ∧ stoppings w !! h = Some true)
          then Some true else dones w !! h) ∧
    held r.1 = held w ∧ config r.1 = config w ∧
    _nextChannelId (mixer r.1) = _nextChannelId (mixer w) ∧
    _volume (mixer r.1) = _volume (mixer w) ∧
    _sources (mixer r.1) = _sources (mixer w) ∧
    (cache_ok (mixer w) → cache_ok (mixer r.1)) ∧
    (_channels (mixer w) = kept ++ rest →
     _channels (mixer r.1)
     = kept ++ filter (λ h, stoppings w !! h ≠ Some true) rest) ∧
    (∀ id, _channelMap (mixer r.1) !! id =
           if decide (id ∈ stopped_ids w rest) then None
           else _channelMap (mixer w) !! id) ∧
    stop_ids r.2 = stopped_ids w rest ∧
    update_ids r.2 = updated_ids w rest ∧
    Forall inner r.2 ∧
    touched LiveChannels r.2 = touched Registry r.2.
Proof.
  induction rest as [|h rest IH]; intros kept w.
  - cbv zeta. cbn [Tick_loop]. unfold skip. cbn [fst snd].
    unfold stopped_ids, updated_ids. rewrite !filter_nil.
    split_and!; try reflexivity; try (intros; auto; fail).
  - destruct (heap w !! h) as [c|] eqn:Hh.
    + pose proof (ids_lookup _ _ _ Hh) as Hid.
      pose proof (stoppings_lookup _ _ _ Hh) as Hst.
      pose proof (dones_lookup _ _ _ Hh) as Hdn.
      destruct (c_stopping c) eqn:Hs.
      * rewrite (Tick_loop_stopping MAX kept h rest w c Hh Hs). cbv zeta.
        specialize (IH kept (stop_step kept rest h c w)). cbv zeta in IH.
        destruct (stop_step_view kept rest h c w Hh)
          as (E1 & E2 & E3 & E4 & E5 & E6 & E7 & E8 & E9 & E10 & E11).
        destruct IH as (I1 & I2 & I3 & I4 & I5 & I6 & I7 & I8 & I9 & I10
                        & I11 & I12 & I13 & I14 & I15).
        unfold stopped_ids, updated_ids in *.
        rewrite E1, E2 in *. rewrite E3 in I3, I13.
        rewrite updated_filter_insert in I13 by assumption.
        cbn [fst snd].
        rewrite (filter_cons_True (λ h, stoppings w !! h = Some true)) by assumption.
        rewrite (filter_cons_False (λ h, stoppings w !! h ≠ Some true))
          by (intros H; apply H; assumption).
        rewrite (filter_cons_False
                   (λ h, stoppings w !! h = Some false ∧ dones w !! h = Some false))
          by (intros [H _]; congruence).
        rewrite fmap_cons, Hid.
        change (default 0 (Some (c_channelId c))) with (c_channelId c).
        split_and!.
        -- congruence.
        -- congruence.
        -- intros h'. rewrite I3.
           destruct (decide (h' = h)) as [->|Hne].
           ++ rewrite (decide_True (P := h ∈ h :: rest ∧ _))
                by (split; [left|assumption]).
              case_decide; [reflexivity|].
              apply list_lookup_insert_eq.
              apply lookup_lt_Some in Hdn. exact Hdn.
           ++ rewrite list_lookup_insert_ne by congruence.
              repeat case_decide; try reflexivity; exfalso.
              ** match goal with H : ¬ _ |- _ => apply H end.
                 split; [right|]; tauto.
              ** match goal with H : ¬ _ |- _ => apply H end.
                 match goal with H : _ ∧ _ |- _ => destruct H as [H1 H2] end.
                 apply elem_of_cons in H1 as [->|H1]; [congruence|tauto].
        -- congruence.
        -- congruence.
        -- congruence.
        -- congruence.
        -- congruence.
        -- tauto.
        -- intros _. apply I10. exact E9.
        -- intros id. rewrite I11, E10.
           destruct (decide (id = c_channelId c)) as [->|Hne].
           ++ rewrite (decide_True (P := _ ∈ _ :: _)) by left.
              case_decide; [reflexivity|]. apply lookup_delete_eq.
           ++ rewrite lookup_delete_ne by congruence.
              repeat case_decide; try reflexivity; exfalso.
              ** match goal with H : ¬ _ |- _ => apply H end. by right.
              ** match goal with H : _ ∈ _ :: _ |- _ =>
                   apply elem_of_cons in H as [?|?] end; [congruence|tauto].
        -- unfold stop_ids in *. cbn. by rewrite I12.
        -- unfold update_ids in *. cbn. exact I13.
        -- repeat constructor. exact I14.
        -- reflexivity.
      * rewrite (Tick_loop_live MAX kept h rest w c Hh Hs). cbv zeta.
        set (r0 := if c_done c then (w, []) else UpdateChannel MAX c false w).
        assert (heap r0.1 = heap w ∧ held r0.1 = held w ∧ config r0.1 = config w ∧
                _nextChannelId (mixer r0.1) = _nextChannelId (mixer w) ∧
                _volume (mixer r0.1) = _volume (mixer w) ∧
                _sources (mixer r0.1) = _sources (mixer w) ∧
                _channels (mixer r0.1) = _channels (mixer w) ∧
                _channelMap (mixer r0.1) = _channelMap (mixer w) ∧
                (cache_ok (mixer w) → cache_ok (mixer r0.1)) ∧
                (if c_done c then r0.2 = []
                 else ∃ rate volume pan offset flag,
                     r0.2 = [Backend (WebAudioUpdateChannel (c_channelId c)
                                        rate volume pan offset flag)]))
          as (E0 & E4 & E5 & E6 & E7 & E8 & E9 & E10 & E11 & E12).
        { subst r0. destruct (c_done c) eqn:Hd.
          - split_and!; try reflexivity. auto.
          - destruct (UpdateChannel_view MAX c false w)
              as (? & ? & ? & ? & ? & ? & ? & ? & ? & [Hnil|[_ Hup]]).
            + unfold UpdateChannel in Hnil. rewrite Hd in Hnil. discriminate.
            + split_and!; assumption. }
        assert (ids r0.1 = ids w) as E1 by (unfold ids; by rewrite E0).
        assert (stoppings r0.1 = stoppings w) as E2
          by (unfold stoppings; by rewrite E0).
        assert (dones r0.1 = dones w) as E3 by (unfold dones; by rewrite E0).
        clearbody r0.
        specialize (IH (kept ++ [h]) r0.1). cbv zeta in IH.
        destruct IH as (I1 & I2 & I3 & I4 & I5 & I6 & I7 & I8 & I9 & I10
                        & I11 & I12 & I13 & I14 & I15).
        unfold stopped_ids, updated_ids in *.
        rewrite E1, E2, E3 in *.
        cbn [fst snd].
        rewrite (filter_cons_False (λ h, stoppings w !! h = Some true))
          by congruence.
        rewrite (filter_cons_True (λ h, stoppings w !! h ≠ Some true))
          by congruence.
        split_and!.
        -- congruence.
        -- congruence.
        -- intros h'. rewrite I3.
           repeat case_decide; try reflexivity; exfalso.
           ++ match goal with H : ¬ _ |- _ => apply H end.
              split; [right|]; tauto.
           ++ match goal with H : ¬ _ |- _ => apply H end.
              match goal with H : _ ∧ _ |- _ => destruct H as [H1 H2] end.
              apply elem_of_cons in H1 as [->|H1]; [congruence|tauto].
        -- congruence.
        -- congruence.
        -- congruence.
        -- congruence.
        -- congruence.
        -- tauto.
        -- intros Hch. rewrite I10 by (rewrite E9, Hch, <- app_assoc; reflexivity).
           rewrite <- app_assoc. reflexivity.
        -- intros id. rewrite I11, E10. reflexivity.
        -- unfold stop_ids in *. rewrite omap_app, I12.
           destruct (c_done c); [rewrite E12; reflexivity|].
           destruct E12 as (? & ? & ? & ? & ? & ->). reflexivity.
        -- unfold update_ids in *. rewrite omap_app, I13.
           destruct (c_done c) eqn:Hd.
           ++ rewrite (filter_cons_False
                   (λ h, stoppings w !! h = Some false ∧ dones w !! h = Some false))
                by (intros [_ H]; congruence).
              rewrite E12. reflexivity.
           ++ rewrite (filter_cons_True
                   (λ h, stoppings w !! h = Some false ∧ dones w !! h = Some false))
                by (split; congruence).
              destruct E12 as (? & ? & ? & ? & ? & ->).
              rewrite fmap_cons, Hid. reflexivity.
        -- apply Forall_app. split; [|exact I14].
           destruct (c_done c); [rewrite E12; constructor|].
           destruct E12 as (? & ? & ? & ? & ? & ->). repeat constructor.
        -- rewrite !touched_app, I15.
           destruct (c_done c); [by rewrite E12|].
           by destruct E12 as (? & ? & ? & ? & ? & ->).
    + rewrite Tick_loop_dangling by assumption.
      assert (stoppings w !! h = None) as Hst
        by (unfold stoppings; rewrite list_lookup_fmap, Hh; reflexivity).
      specialize (IH (kept ++ [h]) w). cbv zeta in IH.
      destruct IH as (I1 & I2 & I3 & I4 & I5 & I6 & I7 & I8 & I9 & I10
                      & I11 & I12 & I13 & I14 & I15).
      unfold stopped_ids, updated_ids in *.
      rewrite (filter_cons_False (λ h, stoppings w !! h = Some true))
        by congruence.
      rewrite (filter_cons_True (λ h, stoppings w !! h ≠ Some true))
        by congruence.
      rewrite (filter_cons_False
                 (λ h, stoppings w !! h = Some false ∧ dones w !! h = Some false))
        by (intros [H _]; congruence).
      split_and!.
      * assumption.
      * assumption.
      * intros h'. rewrite I3.
        repeat case_decide; try reflexivity; exfalso.
        -- match goal with H : ¬ _ |- _ => apply H end.
           split; [right|]; tauto.
        -- match goal with H : ¬ _ |- _ => apply H end.
           match goal with H : _ ∧ _ |- _ => destruct H as [H1 H2] end.
           apply elem_of_cons in H1 as [->|H1]; [congruence|tauto].
      * assumption.
      * assumption.
      * assumption.
      * assumption.
      * assumption.
      * assumption.
      * intros Hch. rewrite I10 by (rewrite Hch, <- app_assoc; reflexivity).
        rewrite <- app_assoc. reflexivity.
      * assumption.
      * assumption.
      * assumption.
      * assumption.
      * assumption.
Qed.

(** ** The operations, from the world they start in *)

Lemma Tick_eq MAX w :
  Tick MAX w =
  (let w0 := UpdateAdjustedSound w in
   let r := Tick_loop MAX [] (_channels (mixer w0)) w0 in
   (set_mixer (with_sources (swept (_sources (mixer r.1))) (mixer r.1)) r.1,
    MutexLock :: r.2 ++ [Mutate SourcePool; MutexUnlock])).
Proof.
  unfold Tick, seq, sweep_sources, modify_mixer, modify, emit, seq.
  cbn [fst snd app]. reflexivity.
Qed.

(** What [Tick] does. *)
Lemma Tick_spec MAX w :
  let r := Tick MAX w in
  ids r.1 = ids w ∧ stoppings r.1 = stoppings w ∧
  (∀ h, dones r.1 !! h =
        if decide (h ∈ _channels (mixer w) ∧ stoppings w !! h = Some true)
        then Some true else dones w !! h) ∧
  held r.1 = held w ∧ config r.1 = config w ∧
  _nextChannelId (mixer r.1) = _nextChannelId (mixer w) ∧
  _volume (mixer r.1) = _volume (mixer w) ∧
  _sources (mixer r.1) = swept (_sources (mixer w)) ∧
  (cache_ok (mixer w) → cache_ok (mixer r.1)) ∧
  _channels (mixer r.1)
  = filter (λ h, stoppings w !! h ≠ Some true) (_channels (mixer w)) ∧
  (∀ id, _channelMap (mixer r.1) !! id =
         if decide (id ∈ stopped_ids w (_channels (mixer w))) then None
         else _channelMap (mixer w) !! id) ∧
  stop_ids r.2 = stopped_ids w (_channels (mixer w)) ∧
  update_ids r.2 = updated_ids w (_channels (mixer w)) ∧
  discipline Free r.2 = Some Free.
Proof.
  cbv zeta. rewrite Tick_eq. cbv zeta.
  destruct (UpdateAdjustedSound_mixer w)
    as (U1 & U2 & U3 & U4 & U5 & U6 & U7 & U8).
  pose proof (UpdateAdjustedSound_cache_ok w) as U9.
  set (w0 := UpdateAdjustedSound w) in *.
  assert (ids w0 = ids w) as Ui by (unfold ids; by rewrite U1).
  assert (stoppings w0 = stoppings w) as Us by (unfold stoppings; by rewrite U1).
  assert (dones w0 = dones w) as Ud by (unfold dones; by rewrite U1).
  destruct (Tick_loop_spec MAX (_channels (mixer w0)) [] w0)
    as (I1 & I2 & I3 & I4 & I5 & I6 & I7 & I8 & I9 & I10 & I11 & I12 & I13 & I14 & I15).
  unfold stopped_ids, updated_ids in *.
  rewrite Ui, Us, Ud, U6, U7 in *.
  set (r := Tick_loop MAX [] (_channels (mixer w)) w0) in *.
  clearbody r w0.
  destruct r as [[hp hl [n v ss sm as_ am chs map srcs] cfg pos] tr].
  cbn [fst snd] in *. unfold ids, stoppings, dones in *. cbn in *.
  split_and!.
  - exact I1.
  - exact I2.
  - exact I3.
  - congruence.
  - congruence.
  - congruence.
  - congruence.
  - rewrite I8, U8. reflexivity.
  - intros H. exact (I9 (U9 H)).
  - apply I10. reflexivity.
  - exact I11.
  - unfold stop_ids in *. rewrite omap_app, I12. cbn. apply app_nil_r.
  - unfold update_ids in *. rewrite omap_app, I13. cbn. apply app_nil_r.
  - pose proof (discipline_section (tr ++ [Mutate SourcePool])) as D.
    rewrite <- app_assoc in D. apply D.
    + apply Forall_app. split; [assumption|]. repeat constructor.
    + rewrite !touched_app, I15. reflexivity.
Qed.

Lemma OnChannelEnded_eq channelId w :
  OnChannelEnded channelId w =
  match FindChannel w channelId with
  | Some h =>
      (ended channelId h w,
       [MutexLock; Mutate LiveChannels; Mutate Registry; MutexUnlock])
  | None => (w, [MutexLock; MutexUnlock])
  end.
Proof.
  destruct w as [hp hl [n v ss sm as_ am chs map srcs] cfg pos].
  unfold OnChannelEnded, seq, emit. cbn [fst snd app].
  destruct (FindChannel _ channelId) as [h|]; [|reflexivity].
  unfold ended, RemoveChannel, seq, emit, modify_mixer, modify, call.
  cbn [fst snd heap].
  destruct (hp !! h) as [c|]; cbn; reflexivity.
Qed.

Lemma ended_view channelId h w :
  let w' := ended channelId h w in
  ids w' = ids w ∧ stoppings w' = stoppings w ∧
  (∀ h', dones w' !! h' =
         if decide (h' = h ∧ (h < length (heap w))%nat) then Some true
         else dones w !! h') ∧
  held w' = held w ∧ config w' = config w ∧
  _nextChannelId (mixer w') = _nextChannelId (mixer w) ∧
  _volume (mixer w') = _volume (mixer w) ∧
  _sources (mixer w') = _sources (mixer w) ∧
  (cache_ok (mixer w) → cache_ok (mixer w')) ∧
  _channels (mixer w')
  = filter (λ e, default 0 (ids w !! e) ≠ channelId) (_channels (mixer w)) ∧
  _channelMap (mixer w') = delete channelId (_channelMap (mixer w)).
Proof.
  unfold ended, call.
  destruct w as [hp hl [n v ss sm as_ am chs map srcs] cfg pos].
  cbn [heap].
  destruct (hp !! h) as [c|] eqn:Hh.
  - unfold seq, modify, skip, SetDone. cbn.
    assert (c_channelId <$> <[h:=with_done true c]> hp = c_channelId <$> hp) as Ei.
    { rewrite list_fmap_insert. apply list_insert_id.
      rewrite list_lookup_fmap, Hh. by destruct c. }
    unfold ids, stoppings, dones. cbn. rewrite Ei.
    split_and!; try reflexivity; try tauto.
    + rewrite list_fmap_insert. apply list_insert_id.
      rewrite list_lookup_fmap, Hh. by destruct c.
    + intros h'. rewrite list_fmap_insert.
      assert (h < length hp)%nat as Hlt by (by apply lookup_lt_Some in Hh).
      destruct (decide (h' = h)) as [->|Hne].
      * rewrite decide_True by tauto.
        rewrite list_lookup_insert_eq by (by rewrite length_fmap).
        by destruct c.
      * rewrite decide_False by tauto.
        by rewrite list_lookup_insert_ne.
    + apply list_filter_iff. intros e.
      unfold id_of. cbn. rewrite <- Ei, list_lookup_fmap.
      by destruct (_ !! e).
  - cbn. unfold ids, stoppings, dones. cbn.
    split_and!; try reflexivity; try tauto.
    + intros h'. rewrite decide_False; [reflexivity|].
      intros [_ Hlt]. apply lookup_ge_None in Hh. lia.
    + apply list_filter_iff. intros e.
      unfold id_of. cbn. rewrite list_lookup_fmap.
      by destruct (_ !! e).
Qed.

Lemma Close_eq w :
  Close w =
  (set_mixer
     (with_sources [] (with_channelMap ∅ (with_channels [] (mixer w)))) w,
   MutexLock
   :: ((λ h, Backend (WebAudioStopChannel (id_of w h))) <$> _channels (mixer w))
   ++ [Mutate LiveChannels; Mutate Registry; Mutate SourcePool; MutexUnlock]).
Proof.
  destruct w as [hp hl [n v ss sm as_ am chs map srcs] cfg pos].
  unfold Close, seq, emit, modify_mixer, modify. cbn. reflexivity.
Qed.

(** A member function called through a reference changes no identifier
    and nothing of the mixer but the cached curves; what it produces is
    at most one update command, for the identifier of a channel that is
    not done. *)
Lemma method_of_shape MAX (k : channel_call) (c : WebAudioChannel) :
  let r := method_of MAX k c in
  c_channelId r.1 = c_channelId c ∧
  (r.2 = skip ∨ ∃ restart, r.2 = UpdateChannel MAX r.1 restart).
Proof.
  destruct c, k; cbn; split; try reflexivity; eauto.
  all: unfold SetOffset; cbn; destruct (_ =? 0); cbn; eauto.
Qed.

Lemma call_view MAX h (k : channel_call) w :
  let r := call h (method_of MAX k) w in
  ids r.1 = ids w ∧
  held r.1 = held w ∧ config r.1 = config w ∧
  _nextChannelId (mixer r.1) = _nextChannelId (mixer w) ∧
  _volume (mixer r.1) = _volume (mixer w) ∧
  _sources (mixer r.1) = _sources (mixer w) ∧
  _channels (mixer r.1) = _channels (mixer w) ∧
  _channelMap (mixer r.1) = _channelMap (mixer w) ∧
  (cache_ok (mixer w) → cache_ok (mixer r.1)) ∧
  length (heap r.1) = length (heap w) ∧
  (∀ h', h' ≠ h → heap r.1 !! h' = heap w !! h') ∧
  (∀ c, heap w !! h = Some c → heap r.1 !! h = Some (method_of MAX k c).1) ∧
  (r.2 = [] ∨
   ∃ c rate volume pan offset flag,
     heap r.1 !! h = Some c ∧ c_done c = false ∧
     r.2 = [Backend (WebAudioUpdateChannel (c_channelId c) rate volume pan
                       offset flag)]).
Proof.
  cbv zeta. unfold call.
  destruct (heap w !! h) as [c|] eqn:Hh.
  2: { cbn. split_and!; try reflexivity; auto.
       intros c. rewrite Hh. discriminate. }
  destruct (method_of_shape MAX k c) as [Hid Hstep].
  set (c' := (method_of MAX k c).1) in *.
  assert (h < length (heap w))%nat as Hlt by (by apply lookup_lt_Some in Hh).
  assert (ids (set_heap (<[h:=c']> (heap w)) w) = ids w) as Ei.
  { destruct w as [hp hl m cfg pos]. unfold ids. cbn in *.
    rewrite list_fmap_insert. apply list_insert_id.
    rewrite list_lookup_fmap, Hh. cbn. by rewrite Hid. }
  unfold seq, modify. cbn [fst snd app].
  set (w1 := set_heap (<[h:=c']> (heap w)) w) in *.
  assert (heap w1 = <[h:=c']> (heap w) ∧ held w1 = held w ∧ config w1 = config w
          ∧ mixer w1 = mixer w) as (Eh & El & Ec & Em).
  { subst w1. destruct w. cbn. auto. }
  destruct Hstep as [->| [restart ->]].
  - unfold skip. cbn [fst snd]. rewrite Em, Eh.
    split_and!; try assumption; try reflexivity; auto.
    + apply length_insert.
    + intros h' Hne. by rewrite list_lookup_insert_ne.
    + intros c0 [= <-]. by rewrite list_lookup_insert_eq.
  - destruct (UpdateChannel_view MAX c' restart w1)
      as (V1 & V2 & V3 & V4 & V5 & V6 & V7 & V8 & V9 & V10).
    rewrite Em in *.
    assert (ids (UpdateChannel MAX c' restart w1).1 = ids w) as Ei'.
    { rewrite <- Ei. unfold ids. by rewrite V1. }
    rewrite V1, Eh.
    split_and!; try congruence; try assumption.
    + apply length_insert.
    + intros h' Hne. by rewrite list_lookup_insert_ne.
    + intros c0 [= <-]. by rewrite list_lookup_insert_eq.
    + destruct V10 as [->|(Hd & rate & vol & pan & off & flag & ->)];
        [by left|right].
      exists c', rate, vol, pan, off, flag.
      split_and!; try reflexivity; [|assumption].
      by rewrite list_lookup_insert_eq.
Qed.

(** ** The invariant of the mixer *)

Lemma wf_new cfg pos : wf (new_world cfg pos).
Proof.
  split; cbn.
  - constructor.
  - constructor.
  - intros h H. by apply elem_of_nil in H.
  - intros id h. rewrite lookup_empty. split; [discriminate|].
    intros [H _]. by apply elem_of_nil in H.
  - intros id H. by apply elem_of_nil in H.
  - unfold INT32_MAX. lia.
  - exact cache_ok_new.
Qed.

(** Nothing that the invariant reads has changed. *)
Lemma wf_same w w' :
  wf w →
  ids w' = ids w →
  _channels (mixer w') = _channels (mixer w) →
  _channelMap (mixer w') = _channelMap (mixer w) →
  _nextChannelId (mixer w') = _nextChannelId (mixer w) →
  cache_ok (mixer w') →
  wf w'.
Proof.
  intros [] Hi Hc Hm Hn Hk.
  split; rewrite ?Hi, ?Hc, ?Hm, ?Hn; assumption.
Qed.

(** Live channels are removed together with their registry entries. *)
Lemma wf_remove (P : handle → Prop) `{∀ h, Decision (P h)} w w' :
  wf w →
  ids w' = ids w →
  _nextChannelId (mixer w') = _nextChannelId (mixer w) →
  cache_ok (mixer w') →
  _channels (mixer w') = filter P (_channels (mixer w)) →
  (∀ id h, _channelMap (mixer w') !! id = Some h ↔
           _channelMap (mixer w) !! id = Some h ∧ P h) →
  wf w'.
Proof.
  intros [] Hi Hn Hk Hc Hm.
  split; rewrite ?Hi, ?Hc, ?Hn; try assumption.
  - by apply NoDup_filter.
  - intros h Hh. apply list_elem_of_filter in Hh as [_ Hh]. auto.
  - intros id h. rewrite Hm, list_elem_of_filter, wf_registry0. tauto.
Qed.

Lemma Play_None MAX conv source loop deleteondone w :
  (Play MAX conv source loop deleteondone w).1 = None →
  (Play MAX conv source loop deleteondone w).2 = (w, []).
Proof.
  destruct source as [[sdl|]|]; try reflexivity.
  rewrite Play_SDL.
  destruct (converted conv sdl) as [[fmt pcm]|]; [|reflexivity].
  cbv zeta.
  destruct (channels fmt <=? 0); [reflexivity|].
  destruct (_ <=? 0); [reflexivity|]. discriminate.
Qed.

Lemma wf_Play MAX conv source loop deleteondone w h w' tr :
  wf w →
  _nextChannelId (mixer w) < INT32_MAX →
  Play MAX conv source loop deleteondone w = (Some h, (w', tr)) →
  wf w' ∧ _nextChannelId (mixer w') = _nextChannelId (mixer w) + 1.
Proof.
  intros Hwf Hlt HPlay.
  destruct (Play_success _ _ _ _ _ _ _ _ _ HPlay)
    as (fmt & fl & n & fr & _ & _ & -> & Hheap & _ & _ & Hnext & Hch & Hmap
        & _ & _ & Hss & Hsm & Has & Ham & _).
  destruct (fresh_channel_fields MAX (_nextChannelId (mixer w)) source loop
              deleteondone fmt) as (Hid & _).
  destruct Hwf.
  assert (wrap32 (_nextChannelId (mixer w) + 1) = _nextChannelId (mixer w) + 1)
    as Hwrap by (apply wrap32_small; unfold INT32_MAX in *; lia).
  assert (ids w' = ids w ++ [_nextChannelId (mixer w)]) as Hids.
  { unfold ids. rewrite Hheap, fmap_app. cbn [fmap list_fmap]. by rewrite Hid. }
  assert (length (heap w) = length (ids w)) as Hlen by (by rewrite ids_length).
  rewrite Hlen in *.
  split; [|by rewrite Hnext].
  split; rewrite ?Hids, ?Hch, ?Hmap, ?Hnext, ?Hwrap.
  - apply NoDup_app. split_and!; [assumption| |apply NoDup_singleton].
    intros x Hx Hx'. apply list_elem_of_singleton in Hx' as ->.
    apply wf_live_alloc0 in Hx. lia.
  - apply NoDup_app. split_and!; [assumption| |apply NoDup_singleton].
    intros x Hx Hx'. apply list_elem_of_singleton in Hx' as ->.
    apply wf_ids_range0 in Hx. lia.
  - intros x Hx. rewrite length_app. cbn.
    apply elem_of_app in Hx as [Hx|Hx].
    + apply wf_live_alloc0 in Hx. lia.
    + apply list_elem_of_singleton in Hx as ->. lia.
  - intros id x. rewrite lookup_insert_Some, elem_of_app, list_elem_of_singleton.
    rewrite wf_registry0. split.
    + intros [[<- <-]|[Hne [Hx Hix]]].
      * split; [by right|]. rewrite lookup_app_r by lia.
        by rewrite Nat.sub_diag.
      * split; [by left|]. rewrite lookup_app_l; [assumption|]. auto.
    + intros [[Hx| ->] Hix].
      * right. pose proof (wf_live_alloc0 _ Hx) as Hlt'.
        rewrite lookup_app_l in Hix by assumption.
        split_and!; try assumption.
        assert (id ∈ ids w) as Hin by (apply list_elem_of_lookup; eauto).
        apply wf_ids_range0 in Hin. lia.
      * left. rewrite lookup_app_r in Hix by lia.
        rewrite Nat.sub_diag in Hix. cbn in Hix. by injection Hix as ->.
  - intros id Hin. apply elem_of_app in Hin as [Hin|Hin].
    + apply wf_ids_range0 in Hin. lia.
    + apply list_elem_of_singleton in Hin as ->. lia.
  - lia.
  - pose proof (UpdateAdjustedSound_cache_ok w wf_cache0) as Hk.
    unfold cache_ok in *. by rewrite Hss, Hsm, Has, Ham.
Qed.

Lemma wf_Tick MAX w : wf w → wf (Tick MAX w).1.
Proof.
  intros Hwf.
  destruct (Tick_spec MAX w)
    as (I1 & I2 & I3 & I4 & I5 & I6 & I7 & I8 & I9 & I10 & I11 & I12 & I13 & I14).
  apply (wf_remove (λ h, stoppings w !! h ≠ Some true) w); try assumption.
  - apply I9, Hwf.
  - intros id h. rewrite I11. destruct Hwf. unfold stopped_ids.
    case_decide as Hin.
    + split; [discriminate|]. intros [Hm HP]. exfalso.
      apply list_elem_of_fmap in Hin as (h' & -> & Hin).
      apply list_elem_of_filter in Hin as [Hst Hin].
      apply wf_registry0 in Hm as [Hh Hih].
      pose proof (wf_live_alloc0 _ Hin) as Hlt.
      apply lookup_lt_is_Some in Hlt as [id' Hid'].
      rewrite Hid' in Hih. cbn in Hih.
      assert (h = h') as -> by (eapply NoDup_lookup; eassumption).
      congruence.
    + split; [|tauto]. intros Hm. split; [assumption|].
      intros Hst. apply Hin.
      apply wf_registry0 in Hm as [Hh Hih].
      apply list_elem_of_fmap. exists h. split; [by rewrite Hih|].
      apply list_elem_of_filter. auto.
Qed.

Lemma wf_OnChannelEnded channelId w : wf w → wf (OnChannelEnded channelId w).1.
Proof.
  intros Hwf. rewrite OnChannelEnded_eq.
  destruct (FindChannel w channelId) as [h|] eqn:Hfind; [|assumption].
  cbn [fst].
  destruct (ended_view channelId h w)
    as (I1 & I2 & I3 & I4 & I5 & I6 & I7 & I8 & I9 & I10 & I11).
  apply (wf_remove (λ e, default 0 (ids w !! e) ≠ channelId) w); try assumption.
  - apply I9, Hwf.
  - intros id x. rewrite I11, lookup_delete_Some. destruct Hwf.
    split.
    + intros [Hne Hm]. split; [assumption|].
      apply wf_registry0 in Hm as [_ Hix]. rewrite Hix. cbn. congruence.
    + intros [Hm HP]. split; [|assumption].
      apply wf_registry0 in Hm as [_ Hix]. rewrite Hix in HP. cbn in HP.
      congruence.
Qed.

Lemma wf_Close w : wf w → wf (Close w).1.
Proof.
  intros []. rewrite Close_eq. cbn [fst].
  destruct w as [hp hl [n v ss sm as_ am chs map srcs] cfg pos].
  unfold ids in *. cbn in *.
  split; cbn; try assumption.
  - constructor.
  - intros h H. by apply elem_of_nil in H.
  - intros id h. rewrite lookup_empty. split; [discriminate|].
    intros [H _]. by apply elem_of_nil in H.
Qed.

(** The invariant is kept by every operation, as long as a [Play] does not
    find the counter at its last value. *)
Lemma wf_perform MAX conv o w :
  wf w →
  (is_play o = true → _nextChannelId (mixer w) < INT32_MAX) →
  wf (perform MAX conv o w).1 ∧
  _nextChannelId (mixer (perform MAX conv o w).1)
  ≤ _nextChannelId (mixer w) + (if is_play o then 1 else 0).
Proof.
  intros Hwf Hlt.
  destruct o as [source loop dod|v| |channelId| |source|h k|h|i|cfg];
    cbn [perform is_play].
  - destruct (Play MAX conv source loop dod w) as [[h|] [w' tr]] eqn:HPlay.
    + destruct (wf_Play _ _ _ _ _ _ _ _ _ Hwf (Hlt eq_refl) HPlay) as [H1 H2].
      cbn. split; [assumption|lia].
    + pose proof (Play_None MAX conv source loop dod w) as HN.
      rewrite HPlay in HN. cbn in HN. injection (HN eq_refl) as -> _.
      cbn. split; [assumption|lia].
  - unfold SetVolume, seq, modify_mixer, modify. cbn [fst snd].
    set (w1 := set_mixer (with_master v (mixer w)) w).
    assert (wf w1) as Hwf1.
    { subst w1. destruct Hwf.
      destruct w as [hp hl [n v0 ss sm as_ am chs map srcs] cfg pos].
      split; assumption. }
    assert (_nextChannelId (mixer w1) = _nextChannelId (mixer w)) as <-.
    { subst w1. by destruct w as [hp hl [] cfg pos]. }
    split; [by apply wf_Tick|].
    destruct (Tick_spec MAX w1) as (_ & _ & _ & _ & _ & -> & _). lia.
  - split; [by apply wf_Tick|].
    destruct (Tick_spec MAX w) as (_ & _ & _ & _ & _ & -> & _). lia.
  - split; [by apply wf_OnChannelEnded|].
    rewrite OnChannelEnded_eq.
    destruct (FindChannel w channelId) as [h|]; cbn [fst]; [|lia].
    destruct (ended_view channelId h w) as (_ & _ & _ & _ & _ & -> & _). lia.
  - split; [by apply wf_Close|].
    rewrite Close_eq. destruct w as [hp hl [] cfg pos]. cbn. lia.
  - destruct Hwf.
    destruct w as [hp hl [n v0 ss sm as_ am chs map srcs] cfg pos].
    destruct source; cbn; (split; [split; assumption|lia]).
  - case_bool_decide; [|cbn; split; [assumption|lia]].
    destruct (call_view MAX h k w)
      as (I1 & I2 & I3 & I4 & I5 & I6 & I7 & I8 & I9 & _).
    split; [|lia].
    apply (wf_same w); try assumption. apply I9, Hwf.
  - destruct Hwf. destruct w as [hp hl [] cfg pos].
    cbn. split; [split; assumption|lia].
  - destruct Hwf. destruct w as [hp hl [] cfg pos].
    cbn. split; [split; assumption|lia].
  - destruct Hwf. destruct w as [hp hl [] cfg0 pos].
    cbn. split; [split; assumption|lia].
Qed.

Lemma run_app MAX conv ops1 ops2 w :
  run MAX conv (ops1 ++ ops2) w =
  (let r := run MAX conv ops1 w in
   let r' := run MAX conv ops2 r.1 in
   (r'.1, r.2 ++ r'.2)).
Proof.
  revert w. induction ops1 as [|o ops1 IH]; intros w.
  - cbn. destruct (run MAX conv ops2 w). reflexivity.
  - cbn [run app]. unfold seq. rewrite IH. cbn. by rewrite app_assoc.
Qed.

(** The invariant holds along every sequence of operations that does not
    exhaust the counter. *)
Lemma wf_run MAX conv ops w :
  wf w →
  _nextChannelId (mixer w) + Z.of_nat (plays ops) ≤ INT32_MAX →
  wf (run MAX conv ops w).1 ∧
  _nextChannelId (mixer (run MAX conv ops w).1)
  ≤ _nextChannelId (mixer w) + Z.of_nat (plays ops).
Proof.
  revert w. induction ops as [|o ops IH]; intros w Hwf Hb.
  - cbn. split; [assumption|]. unfold plays. cbn. lia.
  - cbn [run]. unfold seq. cbn [fst snd].
    assert (plays (o :: ops) = ((if is_play o then 1 else 0) + plays ops)%nat)
      as Hp by (unfold plays; cbn; by destruct (is_play o)).
    rewrite Hp in *.
    destruct (wf_perform MAX conv o w Hwf) as [Hwf1 Hn1].
    { intros Ho. rewrite Ho in Hb. lia. }
    destruct (IH (perform MAX conv o w).1 Hwf1) as [Hwf2 Hn2].
    { destruct (is_play o); lia. }
    split; [assumption|]. destruct (is_play o); lia.
Qed.

Lemma SetVolume_eq MAX (s : R) (w : World) :
  SetVolume MAX s w = Tick MAX (set_mixer (with_master s (mixer w)) w).
Proof.
  unfold SetVolume, seq, modify_mixer, modify. cbn [fst snd app].
  destruct (Tick MAX _). reflexivity.
Qed.

(** ** What holds of every state *)

Lemma wf_coherent w : wf w → coherent w.
Proof.
  intros Hwf. destruct Hwf as [W1 W2 W3 W4 W5 W6 W7]. split; try assumption.
  intros id h. by rewrite W4.
Qed.

Lemma coherent_new cfg pos : coherent (new_world cfg pos).
Proof. apply wf_coherent, wf_new. Qed.

Lemma coherent_same w w' :
  coherent w →
  ids w' = ids w →
  _channels (mixer w') = _channels (mixer w) →
  _channelMap (mixer w') = _channelMap (mixer w) →
  coherent w'.
Proof.
  intros Hco Hi Hc Hm. destruct Hco as [Hnd Hal Hreg].
  split; rewrite ?Hi, ?Hc, ?Hm; assumption.
Qed.

Lemma coherent_remove (P : handle → Prop) `{∀ h, Decision (P h)} w w' :
  coherent w →
  ids w' = ids w →
  _channels (mixer w') = filter P (_channels (mixer w)) →
  (∀ id h, _channelMap (mixer w') !! id = Some h →
           _channelMap (mixer w) !! id = Some h ∧ P h) →
  coherent w'.
Proof.
  intros Hco Hi Hc Hm. destruct Hco as [Hnd Hal Hreg]. split; rewrite ?Hi, ?Hc.
  - by apply NoDup_filter.
  - intros h Hh. apply list_elem_of_filter in Hh as [_ Hh]. auto.
  - intros id h Hidh. apply Hm in Hidh as [Hidh HP].
    apply Hreg in Hidh as [Hh Hi']. split; [|exact Hi'].
    apply list_elem_of_filter. auto.
Qed.

Lemma coherent_Play MAX conv source loop deleteondone w h w' tr :
  coherent w →
  Play MAX conv source loop deleteondone w = (Some h, (w', tr)) →
  coherent w'.
Proof.
  intros Hco HPlay.
  destruct (Play_success _ _ _ _ _ _ _ _ _ HPlay)
    as (fmt & fl & n & fr & _ & _ & -> & Hheap & _ & _ & _ & Hch & Hmap & _).
  destruct (fresh_channel_fields MAX (_nextChannelId (mixer w)) source loop
              deleteondone fmt) as (Hid & _).
  destruct Hco as [Hnd Hal Hreg].
  assert (ids w' = ids w ++ [_nextChannelId (mixer w)]) as Hids.
  { unfold ids. rewrite Hheap, fmap_app. cbn [fmap list_fmap]. by rewrite Hid. }
  assert (length (heap w) = length (ids w)) as Hlen by (by rewrite ids_length).
  rewrite Hlen in *.
  split; rewrite ?Hids, ?Hch, ?Hmap.
  - apply NoDup_app. split_and!; [assumption| |apply NoDup_singleton].
    intros x Hx Hx'. apply list_elem_of_singleton in Hx' as ->.
    apply Hal in Hx. lia.
  - intros x Hx. rewrite length_app. cbn.
    apply elem_of_app in Hx as [Hx|Hx].
    + apply Hal in Hx. lia.
    + apply list_elem_of_singleton in Hx as ->. lia.
  - intros id x. rewrite lookup_insert_Some, elem_of_app, list_elem_of_singleton.
    intros [[<- <-]|[Hne Hx]].
    + split; [by right|]. rewrite lookup_app_r by lia.
      by rewrite Nat.sub_diag.
    + apply Hreg in Hx as [Hx Hix].
      split; [by left|]. by apply lookup_app_l_Some.
Qed.

Lemma coherent_Tick MAX w : coherent w → coherent (Tick MAX w).1.
Proof.
  intros Hco.
  destruct (Tick_spec MAX w)
    as (I1 & I2 & I3 & I4 & I5 & I6 & I7 & I8 & I9 & I10 & I11 & I12 & I13 & I14).
  apply (coherent_remove (λ h, stoppings w !! h ≠ Some true) w); try assumption.
  intros id h. rewrite I11. unfold stopped_ids.
  case_decide as Hin; [discriminate|].
  intros Hm. split; [assumption|].
  intros Hst. apply Hin.
  apply (co_registry w Hco) in Hm as [Hh Hih].
  apply list_elem_of_fmap. exists h. split; [by rewrite Hih|].
  apply list_elem_of_filter. auto.
Qed.

Lemma coherent_OnChannelEnded channelId w :
  coherent w → coherent (OnChannelEnded channelId w).1.
Proof.
  intros Hco. rewrite OnChannelEnded_eq.
  destruct (FindChannel w channelId) as [h|] eqn:Hfind; [|assumption].
  cbn [fst].
  destruct (ended_view channelId h w)
    as (I1 & I2 & I3 & I4 & I5 & I6 & I7 & I8 & I9 & I10 & I11).
  apply (coherent_remove (λ e, default 0 (ids w !! e) ≠ channelId) w);
    try assumption.
  intros id x. rewrite I11, lookup_delete_Some.
  intros [Hne Hm]. split; [assumption|].
  apply (co_registry w Hco) in Hm as [_ Hix]. rewrite Hix. cbn. congruence.
Qed.

Lemma coherent_Close w : coherent w → coherent (Close w).1.
Proof.
  intros _. rewrite Close_eq. cbn [fst].
  destruct w as [hp hl [n v ss sm as_ am chs map srcs] cfg pos].
  split; cbn.
  - constructor.
  - intros h H. by apply elem_of_nil in H.
  - intros id h. rewrite lookup_empty. discriminate.
Qed.

Lemma coherent_perform MAX conv o w :
  coherent w → coherent (perform MAX conv o w).1.
Proof.
  intros Hco.
  destruct o as [source loop dod|v| |channelId| |source|h k|h|i|cfg];
    cbn [perform].
  - destruct (Play MAX conv source loop dod w) as [[h|] [w' tr]] eqn:HPlay.
    + exact (coherent_Play _ _ _ _ _ _ _ _ _ Hco HPlay).
    + pose proof (Play_None MAX conv source loop dod w) as HN.
      rewrite HPlay in HN. cbn [fst snd] in HN. by rewrite (HN eq_refl).
  - rewrite SetVolume_eq. apply coherent_Tick.
    destruct Hco as [Hnd Hal Hreg]. destruct w as [hp hl [n v0 ss sm as_ am chs map srcs] cfg pos].
    split; assumption.
  - by apply coherent_Tick.
  - by apply coherent_OnChannelEnded.
  - by apply coherent_Close.
  - destruct Hco as [Hnd Hal Hreg]. destruct w as [hp hl [n v0 ss sm as_ am chs map srcs] cfg pos].
    destruct source; split; assumption.
  - case_bool_decide; [|assumption].
    destruct (call_view MAX h k w)
      as (I1 & I2 & I3 & I4 & I5 & I6 & I7 & I8 & _).
    by apply (coherent_same w).
  - destruct Hco as [Hnd Hal Hreg]. destruct w as [hp hl [] cfg pos]. split; assumption.
  - destruct Hco as [Hnd Hal Hreg]. destruct w as [hp hl [] cfg pos]. split; assumption.
  - destruct Hco as [Hnd Hal Hreg]. destruct w as [hp hl [] cfg0 pos]. split; assumption.
Qed.

Lemma coherent_run MAX conv ops :
  ∀ w, coherent w → coherent (run MAX conv ops w).1.
Proof.
  induction ops as [|o ops IH]; intros w Hco; [exact Hco|].
  cbn [run]. unfold seq. cbn [fst]. apply IH. by apply coherent_perform.
Qed.

(** ** The live collection and the registry *)

(** Every operation takes the mutex at most once, mutates the containers
    only while it holds it, and leaves it free. *)
Lemma perform_discipline MAX conv o w :
  discipline Free (perform MAX conv o w).2 = Some Free.
Proof.
  destruct o as [source loop dod|v| |channelId| |source|h k|h|i|cfg];
    cbn [perform]; try reflexivity.
  - destruct (Play MAX conv source loop dod w) as [[h|] [w' tr]] eqn:HPlay.
    + destruct (Play_success _ _ _ _ _ _ _ _ _ HPlay)
        as (fmt & fl & n & fr & H).
      cbv zeta in H. do 15 destruct H as (_ & H). cbn [snd]. rewrite H.
      reflexivity.
    + pose proof (Play_None MAX conv source loop dod w) as HN.
      rewrite HPlay in HN. cbn in HN. injection (HN eq_refl) as _ ->.
      reflexivity.
  - unfold SetVolume, seq, modify_mixer, modify. cbn [fst snd app].
    apply Tick_spec.
  - apply Tick_spec.
  - rewrite OnChannelEnded_eq.
    destruct (FindChannel w channelId); reflexivity.
  - rewrite Close_eq. cbn [snd].
    pose proof (discipline_section
      (((λ h, Backend (WebAudioStopChannel (id_of w h))) <$> _channels (mixer w))
       ++ [Mutate LiveChannels; Mutate Registry; Mutate SourcePool])) as D.
    rewrite <- app_assoc in D. apply D.
    + apply Forall_app. split; [|repeat constructor].
      apply Forall_fmap, Forall_forall. intros x _. exact I.
    + rewrite !touched_app.
      rewrite (touched_commands LiveChannels), (touched_commands Registry)
        by (apply Forall_fmap, Forall_forall; intros x _; exact I).
      reflexivity.
  - unfold AddSource, seq, emit. destruct source; reflexivity.
  - case_bool_decide; [|reflexivity].
    destruct (call_view MAX h k w)
      as (_ & _ & _ & _ & _ & _ & _ & _ & _ & _ & _ & _ & Hc).
    destruct Hc as [->|(c & ? & ? & ? & ? & ? & _ & _ & ->)]; reflexivity.
Qed.

Lemma run_discipline MAX conv ops w :
  discipline Free (run MAX conv ops w).2 = Some Free.
Proof.
  revert w. induction ops as [|o ops IH]; intros w; [reflexivity|].
  cbn [run]. unfold seq. cbn [snd].
  rewrite discipline_app, perform_discipline. cbn. apply IH.
Qed.

Lemma wf_id_of w h :
  wf w → h ∈ _channels (mixer w) → ids w !! h = Some (id_of w h).
Proof.
  intros Hwf Hh. rewrite id_of_ids.
  apply (wf_live_alloc w Hwf) in Hh.
  apply lookup_lt_is_Some in Hh as [id ->]. reflexivity.
Qed.

Lemma wf_registry_consistent w : wf w → registry_consistent w.
Proof.
  intros Hwf. split_and!.
  - intros id. rewrite list_elem_of_fmap. split.
    + intros (h & -> & Hh). exists h.
      apply (wf_registry w Hwf). split; [assumption|]. by apply wf_id_of.
    + intros [h Hm]. apply (wf_registry w Hwf) in Hm as [Hh Hi].
      exists h. split; [|assumption]. rewrite id_of_ids, Hi. reflexivity.
  - apply NoDup_fmap_2_strong; [|apply (wf_live_nodup w Hwf)].
    intros h1 h2 H1 H2 Heq.
    pose proof (wf_id_of w h1 Hwf H1) as E1.
    pose proof (wf_id_of w h2 Hwf H2) as E2.
    rewrite Heq in E1.
    exact (NoDup_lookup _ _ _ _ (wf_ids_nodup w Hwf) E1 E2).
  - intros id h. rewrite (wf_registry w Hwf). split.
    + intros [Hh Hi]. split; [assumption|]. rewrite id_of_ids, Hi. reflexivity.
    + intros [Hh <-]. split; [assumption|]. by apply wf_id_of.
Qed.

(** C1, as amended.  After every sequence of operations on a new mixer,
    the events of the sequence keep the lock discipline: [_channels] and
    [_channelMap] are mutated only under [_mutex], and both or neither in
    each critical section; and every registry entry is for a live channel
    with that identifier.  As long as [Play] has been called fewer than
    2^31 - 1 times, the live collection and the registry also hold the same
    identifiers, one entry per live channel and one live channel per
    entry. *)
Theorem registry_consistent_bounded MAX conv cfg pos ops :
  let r := run MAX conv ops (new_world cfg pos) in
  discipline Free r.2 = Some Free ∧
  (∀ id h, _channelMap (mixer r.1) !! id = Some h →
           h ∈ _channels (mixer r.1) ∧ id_of r.1 h = id) ∧
  (Z.of_nat (plays ops) < INT32_MAX → registry_consistent r.1).
Proof.
  cbv zeta. split; [apply run_discipline|]. split.
  - intros id h Hm.
    pose proof (coherent_run MAX conv ops _ (coherent_new cfg pos)) as Hco.
    apply (co_registry _ Hco) in Hm as [Hh Hi]. split; [exact Hh|].
    rewrite id_of_ids, Hi. reflexivity.
  - intros Hb. apply wf_registry_consistent.
    apply wf_run; [apply wf_new|]. cbn. lia.
Qed.

Lemma registry_consistent_bounded_witness :
  Z.of_nat (plays sample_ops) < INT32_MAX ∧
  registry_consistent
    (run 128 no_conversion sample_ops (new_world sample_config (λ _, 0%R))).1.
Proof.
  assert (Z.of_nat (plays sample_ops) < INT32_MAX) as H by (vm_compute; reflexivity).
  split; [exact H|].
  destruct (registry_consistent_bounded 128 no_conversion sample_config
              (λ _, 0%R) sample_ops) as (_ & _ & Hbounded).
  exact (Hbounded H).
Defined.

(** ** Channel identifiers *)

Lemma wrap32_range (z : Z) : INT32_MIN ≤ wrap32 z ≤ INT32_MAX.
Proof.
  unfold wrap32, INT32_MIN, INT32_MAX.
  pose proof (Z.mod_pos_bound (z + 2^31) (2^32)). lia.
Qed.

(** A successful [Play] returns the channel whose identifier is the value
    of the counter, and increments the counter in 32 bits. *)
Lemma Play_next MAX conv source loop deleteondone w h w' tr :
  Play MAX conv source loop deleteondone w = (Some h, (w', tr)) →
  id_of w' h = _nextChannelId (mixer w) ∧
  _nextChannelId (mixer w') = wrap32 (_nextChannelId (mixer w) + 1).
Proof.
  intros HPlay.
  destruct (Play_success _ _ _ _ _ _ _ _ _ HPlay)
    as (fmt & fl & n & fr & _ & _ & -> & Hheap & _ & _ & Hnext & _).
  destruct (fresh_channel_fields MAX (_nextChannelId (mixer w)) source loop
              deleteondone fmt) as (Hid & _).
  split; [|assumption].
  unfold id_of. rewrite Hheap, lookup_app_r by lia.
  rewrite Nat.sub_diag. cbn [lookup list_lookup from_option]. exact Hid.
Qed.

(** Only a successful [Play] moves the counter. *)
Lemma perform_next_other MAX conv o w :
  is_play o = false →
  _nextChannelId (mixer (perform MAX conv o w).1) = _nextChannelId (mixer w).
Proof.
  intros Ho.
  destruct o as [source loop dod|v| |channelId| |source|h k|h|i|cfg];
    try discriminate; cbn [perform].
  - unfold SetVolume, seq, modify_mixer, modify. cbn [fst snd].
    destruct (Tick_spec MAX (set_mixer (with_master v (mixer w)) w))
      as (_ & _ & _ & _ & _ & -> & _).
    by destruct w as [hp hl [] cfg pos].
  - by destruct (Tick_spec MAX w) as (_ & _ & _ & _ & _ & -> & _).
  - rewrite OnChannelEnded_eq.
    destruct (FindChannel w channelId) as [h|]; cbn [fst]; [|reflexivity].
    by destruct (ended_view channelId h w) as (_ & _ & _ & _ & _ & -> & _).
  - rewrite Close_eq. by destruct w as [hp hl [] cfg pos].
  - destruct w as [hp hl [] cfg pos]. by destruct source.
  - case_bool_decide; [|reflexivity].
    by destruct (call_view MAX h k w) as (_ & _ & _ & -> & _).
  - by destruct w as [hp hl [] cfg pos].
  - by destruct w as [hp hl [] cfg pos].
  - by destruct w as [hp hl [] cfg0 pos].
Qed.

Lemma wrap32_add_l (a b : Z) : wrap32 (wrap32 a + b) = wrap32 (a + b).
Proof.
  unfold wrap32.
  replace ((a + 2 ^ 31) mod 2 ^ 32 - 2 ^ 31 + b + 2 ^ 31)
    with ((a + 2 ^ 31) mod 2 ^ 32 + b) by lia.
  rewrite Zplus_mod_idemp_l. f_equal. f_equal. lia.
Qed.

(** The identifiers that [Play] returns are the successive values of the
    counter, in 32 bits. *)
Lemma returned_ids_wrap MAX conv ops :
  ∀ w,
    let ids := returned_ids MAX conv ops w in
    INT32_MIN ≤ _nextChannelId (mixer w) ≤ INT32_MAX →
    ids = (λ i, wrap32 (_nextChannelId (mixer w) + i))
            <$> seqZ 0 (Z.of_nat (length ids)).
Proof.
  induction ops as [|o ops IH]; intros w; cbv zeta; [reflexivity|].
  cbn [returned_ids]. intros Hr.
  destruct (is_play o) eqn:Ho.
  - destruct o as [source loop dod| | | | | | | | |]; try discriminate.
    cbn [perform] in *.
    destruct (Play MAX conv source loop dod w) as [[h|] [w' tr]] eqn:HPlay.
    + destruct (Play_next _ _ _ _ _ _ _ _ _ HPlay) as [Hid Hnext].
      rewrite Hid. cbn [snd fst app length].
      specialize (IH w'). cbv zeta in IH.
      set (ids' := returned_ids MAX conv ops w') in *.
      rewrite Nat2Z.inj_succ, seqZ_cons by lia.
      rewrite Z.pred_succ. cbn [fmap list_fmap]. f_equal.
      * rewrite Z.add_0_r. symmetry. apply wrap32_small.
        unfold INT32_MIN, INT32_MAX in Hr. lia.
      * rewrite IH at 1 by (rewrite Hnext; apply wrap32_range).
        change (Z.succ 0) with (1 + 0). rewrite <- fmap_add_seqZ.
        rewrite <- list_fmap_compose. apply list_fmap_ext.
        intros _ i _. cbn. rewrite Hnext, wrap32_add_l. f_equal. lia.
    + pose proof (Play_None MAX conv source loop dod w) as HN.
      rewrite HPlay in HN. cbn in HN. injection (HN eq_refl) as -> _.
      cbn [snd fst app]. by apply IH.
  - assert (match o with
            | OpPlay source loop dod =>
                match Play MAX conv source loop dod w with
                | (Some h, (w', _)) => [id_of w' h]
                | (None, _) => []
                end
            | _ => []
            end = []) as E by (by destruct o).
    rewrite E. cbn [app].
    pose proof (perform_next_other MAX conv o w Ho) as Hn.
    rewrite <- Hn. apply IH. by rewrite Hn.
Qed.

(** C8, as amended.  On a new mixer the k-th channel that [Play] returns
    has the identifier k reduced to 32 bits.  So, as long as no more than
    2^31 - 1 channels have been returned, the identifiers are 1, 2, 3, ...
    in order: none is 0, they increase strictly, and none is used twice. *)
Theorem channel_ids_bounded MAX conv cfg pos ops :
  let ids := returned_ids MAX conv ops (new_world cfg pos) in
  ids = (λ i, wrap32 (1 + i)) <$> seqZ 0 (Z.of_nat (length ids)) ∧
  (Z.of_nat (length ids) ≤ INT32_MAX →
   ids = seqZ 1 (Z.of_nat (length ids)) ∧
   Forall (λ id, id ≠ 0) ids ∧
   (∀ i j a b, (i < j)%nat → ids !! i = Some a → ids !! j = Some b → a < b) ∧
   NoDup ids).
Proof.
  intros ids.
  assert (ids = (λ i, wrap32 (1 + i)) <$> seqZ 0 (Z.of_nat (length ids))) as W.
  { apply (returned_ids_wrap MAX conv ops (new_world cfg pos)).
    cbn. unfold INT32_MIN, INT32_MAX. lia. }
  split; [exact W|]. intros Hb.
  assert (ids = seqZ 1 (Z.of_nat (length ids))) as E.
  { rewrite W at 1. change 1 with (1 + 0) at 2. rewrite <- fmap_add_seqZ.
    apply list_fmap_ext. intros k i Hi. apply lookup_seqZ in Hi as [-> Hi].
    apply wrap32_small. unfold INT32_MAX in Hb. lia. }
  split; [exact E|]. rewrite E. split_and!.
  - apply Forall_seqZ. intros. lia.
  - intros i j a b Hij Ha Hb'.
    apply lookup_seqZ in Ha as [-> _]. apply lookup_seqZ in Hb' as [-> _]. lia.
  - apply NoDup_seqZ.
Qed.

Lemma channel_ids_bounded_witness :
  Z.of_nat (length (returned_ids 128 no_conversion sample_ops
                      (new_world sample_config (λ _, 0%R)))) ≤ INT32_MAX ∧
  returned_ids 128 no_conversion sample_ops (new_world sample_config (λ _, 0%R))
  = [1; 2].
Proof.
  assert (returned_ids 128 no_conversion sample_ops
            (new_world sample_config (λ _, 0%R)) = [1; 2]) as E
    by (vm_compute; reflexivity).
  assert (Z.of_nat (length (returned_ids 128 no_conversion sample_ops
                      (new_world sample_config (λ _, 0%R)))) ≤ INT32_MAX) as H
    by (rewrite E; vm_compute; discriminate).
  split; [exact H|].
  destruct (channel_ids_bounded 128 no_conversion sample_config (λ _, 0%R)
              sample_ops) as [_ Hbounded].
  destruct (Hbounded H) as [E' _].
  rewrite E'. rewrite E. reflexivity.
Defined.

(** ** The channel counter after 2^32 increments *)

Lemma wrap32_succ (z : Z) : wrap32 (wrap32 z + 1) = wrap32 (z + 1).
Proof.
  unfold wrap32.
  replace ((z + 2 ^ 31) mod 2 ^ 32 - 2 ^ 31 + 1 + 2 ^ 31)
    with ((z + 2 ^ 31) mod 2 ^ 32 + 1) by lia.
  rewrite Zplus_mod_idemp_l. f_equal. f_equal. lia.
Qed.

Lemma wrap32_not_1 (i : Z) : 0 ≤ i < 4294967295 → wrap32 (2 + i) ≠ 1.
Proof.
  intros Hi. unfold wrap32. intros H.
  pose proof (Z.div_mod (2 + i + 2 ^ 31) (2 ^ 32)) as Hd.
  pose proof (Z.mod_pos_bound (2 + i + 2 ^ 31) (2 ^ 32)) as Hm.
  change (2 ^ 31) with 2147483648 in *. change (2 ^ 32) with 4294967296 in *.
  lia.
Qed.

(** [Play] on the sample source succeeds in every world. *)
Lemma Play_sample_source (w : World) :
  ∃ w' tr,
    Play 128 no_conversion (Some sample_source) 0 false w
    = (Some (length (heap w)), (w', tr)).
Proof.
  unfold sample_source. rewrite Play_SDL.
  eexists _, _. reflexivity.
Qed.

Lemma wrap_cycles_Z : Z.of_nat wrap_cycles = 4294967295.
Proof. unfold wrap_cycles. apply Z2Nat.id. lia. Qed.

Opaque wrap_cycles.

Lemma returned_ids_app MAX conv ops1 ops2 w :
  returned_ids MAX conv (ops1 ++ ops2) w =
  returned_ids MAX conv ops1 w
  ++ returned_ids MAX conv ops2 (run MAX conv ops1 w).1.
Proof.
  revert w. induction ops1 as [|o ops1 IH]; intros w; [reflexivity|].
  cbn [app returned_ids run]. unfold seq. cbn [fst].
  by rewrite IH, app_assoc.
Qed.

Lemma churn_step_spec w next objects :
  churning w next objects → next ≠ 1 →
  let ops := [OpPlay (Some sample_source) 0 false; OpOnChannelEnded next] in
  churning (run 128 no_conversion ops w).1 (wrap32 (next + 1)) (S objects) ∧
  returned_ids 128 no_conversion ops w = [next].
Proof.
  intros (Hch & Hmap & Hnext & Hid0 & Hlen) Hne. cbv zeta.
  destruct (Play_sample_source w) as (w1 & tr1 & HPlay).
  destruct (Play_success _ _ _ _ _ _ _ _ _ HPlay)
    as (fmt & fl & n & fr & _ & _ & _ & Hheap1 & _ & _ & Hnext1 & Hch1 & Hmap1 & _).
  destruct (Play_next _ _ _ _ _ _ _ _ _ HPlay) as [Hret _].
  destruct (fresh_channel_fields 128 (_nextChannelId (mixer w)) (Some sample_source)
              0 false fmt) as (Hfid & _).
  assert (length (heap w) = objects) as Hlen' by (by rewrite <- ids_length).
  assert (ids w1 = ids w ++ [next]) as Hids1.
  { unfold ids. rewrite Hheap1, fmap_app. cbn [fmap list_fmap].
    by rewrite Hfid, Hnext. }
  rewrite Hch, Hlen' in Hch1. rewrite Hmap, Hnext, Hlen' in Hmap1.
  rewrite Hnext in Hnext1.
  assert (0 < objects)%nat as Hpos.
  { apply lookup_lt_Some in Hid0. lia. }
  assert (FindChannel w1 next = Some objects) as Hfind.
  { unfold FindChannel, expired. rewrite Hmap1, lookup_insert_eq, Hch1.
    rewrite bool_decide_eq_true_2; [reflexivity|].
    left. apply elem_of_app. right. left. }
  cbn [run returned_ids perform]. unfold seq. rewrite HPlay. cbn [fst snd].
  rewrite OnChannelEnded_eq, Hfind. cbn [fst snd].
  destruct (ended_view next objects w1)
    as (I1 & I2 & I3 & I4 & I5 & I6 & I7 & I8 & I9 & I10 & I11).
  unfold skip. cbn [fst snd].
  split.
  - unfold churning. rewrite I1, I10, I11, I6, Hids1, Hch1, Hmap1, Hnext1.
    split_and!.
    + cbn [app]. rewrite filter_cons_True.
      2: { rewrite lookup_app_l by lia. rewrite Hid0. cbn. congruence. }
      rewrite filter_cons_False; [reflexivity|].
      rewrite lookup_app_r by lia. rewrite Hlen, Nat.sub_diag. cbn. tauto.
    + rewrite delete_insert_eq. apply delete_id.
      by rewrite lookup_singleton_ne.
    + reflexivity.
    + rewrite lookup_app_l by lia. assumption.
    + rewrite length_app. cbn. lia.
  - rewrite Hret, Hnext. reflexivity.
Qed.

Lemma churn_spec (n : nat) :
  ∀ from w objects,
    churning w (wrap32 (2 + Z.of_nat from)) objects →
    (∀ i, (from ≤ i < from + n)%nat → wrap32 (2 + Z.of_nat i) ≠ 1) →
    churning (run 128 no_conversion (churn from n) w).1
      (wrap32 (2 + Z.of_nat (from + n))) (objects + n) ∧
    returned_ids 128 no_conversion (churn from n) w
    = (λ i, wrap32 (2 + Z.of_nat i)) <$> List.seq from n.
Proof.
  induction n as [|n IH]; intros from w objects Hw Hne.
  - cbn. rewrite !Nat.add_0_r. unfold skip. auto.
  - change (churn from (S n)) with (churn_step from ++ churn (S from) n).
    rewrite run_app, returned_ids_app. cbv zeta. cbn [fst].
    destruct (churn_step_spec w _ objects Hw) as [Hw1 Hr1].
    { apply Hne. lia. }
    cbv zeta in Hw1, Hr1. fold (churn_step from) in Hw1, Hr1.
    rewrite wrap32_succ in Hw1.
    replace (2 + Z.of_nat from + 1) with (2 + Z.of_nat (S from)) in Hw1 by lia.
    destruct (IH (S from) _ (S objects) Hw1) as [Hw2 Hr2].
    { intros i Hi. apply Hne. lia. }
    split.
    + replace (from + S n)%nat with (S from + n)%nat by lia.
      replace (objects + S n)%nat with (S objects + n)%nat by lia.
      exact Hw2.
    + rewrite Hr1, Hr2. reflexivity.
Qed.

Lemma wrapping_first_play :
  let ops := [OpPlay (Some sample_source) 0 false] in
  churning (run 128 no_conversion ops sample_world).1 2 1 ∧
  returned_ids 128 no_conversion ops sample_world = [1].
Proof. cbv zeta. unfold churning. cbn. split_and!; reflexivity. Qed.

(** What the session leaves: two live channels, both with identifier 1,
    and the identifiers that [Play] returned. *)
Lemma wrapping_ops_spec :
  let w := (run 128 no_conversion wrapping_ops sample_world).1 in
  (∃ h, _channels (mixer w) = [0%nat; h] ∧ _channelMap (mixer w) = {[1 := h]} ∧
        id_of w 0%nat = 1 ∧ id_of w h = 1) ∧
  returned_ids 128 no_conversion wrapping_ops sample_world
  = 1 :: ((λ i, wrap32 (2 + Z.of_nat i)) <$> List.seq 0 wrap_cycles) ++ [1].
Proof.
  cbv zeta. unfold wrapping_ops.
  change (OpPlay (Some sample_source) 0 false
          :: churn 0 wrap_cycles ++ [OpPlay (Some sample_source) 0 false])
    with ([OpPlay (Some sample_source) 0 false]
          ++ churn 0 wrap_cycles ++ [OpPlay (Some sample_source) 0 false]).
  rewrite run_app. cbv zeta. rewrite run_app. cbv zeta.
  rewrite !returned_ids_app. cbn [fst].
  destruct wrapping_first_play as [Hw1 Hr1]. cbv zeta in Hw1, Hr1. rewrite Hr1.
  remember (run 128 no_conversion [OpPlay (Some sample_source) 0 false]
              sample_world).1 as w1 eqn:E1.
  clear E1 Hr1.
  destruct (churn_spec wrap_cycles 0 w1 1 Hw1) as [Hw2 Hr2].
  { intros i Hi. apply wrap32_not_1. pose proof wrap_cycles_Z. lia. }
  rewrite Hr2. clear Hr2.
  assert (wrap32 (2 + Z.of_nat (0 + wrap_cycles)) = 1) as Hone.
  { rewrite Nat.add_0_l, wrap_cycles_Z. reflexivity. }
  rewrite Hone in Hw2. clear Hone.
  remember (run 128 no_conversion (churn 0 wrap_cycles) w1).1 as w2 eqn:E2.
  clear E2 Hw1.
  destruct Hw2 as (Hch & Hmap & Hnext & Hid0 & Hlen).
  destruct (Play_sample_source w2) as (w3 & tr3 & HPlay).
  destruct (Play_success _ _ _ _ _ _ _ _ _ HPlay)
    as (fmt & fl & n & fr & _ & _ & _ & Hheap3 & _ & _ & _ & Hch3 & Hmap3 & _).
  destruct (Play_next _ _ _ _ _ _ _ _ _ HPlay) as [Hret _].
  destruct (fresh_channel_fields 128 (_nextChannelId (mixer w2)) (Some sample_source)
              0 false fmt) as (Hfid & _).
  assert (ids w3 = ids w2 ++ [1]) as Hids3.
  { unfold ids. rewrite Hheap3, fmap_app. cbn [fmap list_fmap].
    rewrite Hfid, Hnext. reflexivity. }
  cbn [run returned_ids perform]. unfold seq, skip. rewrite HPlay. cbn [fst snd].
  split.
  - exists (length (heap w2)). rewrite Hch3, Hch, Hmap3, Hmap, Hnext. split_and!.
    + reflexivity.
    + apply insert_singleton_eq.
    + rewrite id_of_ids, Hids3, lookup_app_l by (apply lookup_lt_Some in Hid0; lia).
      rewrite Hid0. reflexivity.
    + rewrite Hret. exact Hnext.
  - rewrite Hret, Hnext, app_nil_r. reflexivity.
Qed.

(** C1, the claim as stated fails.  After the session of 2^32 + 1 calls of
    [Play] the live collection holds two channels, both with identifier 1,
    and the registry holds a single entry. *)
Lemma registry_inconsistent_after_wrap :
  let w := (run 128 no_conversion wrapping_ops sample_world).1 in
  ¬ registry_consistent w ∧
  length (_channels (mixer w)) = 2%nat ∧
  size (_channelMap (mixer w)) = 1%nat ∧
  Forall (λ h, id_of w h = 1) (_channels (mixer w)).
Proof.
  destruct wrapping_ops_spec as [(h & Hch & Hmap & H0 & Hh) _].
  cbv zeta.
  remember (run 128 no_conversion wrapping_ops sample_world).1 as w eqn:E.
  clear E. rewrite Hch, Hmap. split_and!.
  - intros (_ & Hnd & _). rewrite Hch in Hnd. cbn [fmap list_fmap] in Hnd.
    rewrite H0, Hh in Hnd. apply NoDup_cons in Hnd as [Hnd _].
    apply Hnd. left.
  - reflexivity.
  - apply map_size_singleton.
  - constructor; [exact H0|]. constructor; [exact Hh|constructor].
Qed.

(** C8, the claim as stated fails.  In the same session [Play] returns the
    identifier 0, returns the identifier 1 twice, and so does not return
    increasing identifiers. *)
Lemma channel_ids_wrap :
  let ids := returned_ids 128 no_conversion wrapping_ops sample_world in
  0 ∈ ids ∧ ¬ NoDup ids ∧
  ¬ (∀ i j a b, (i < j)%nat → ids !! i = Some a → ids !! j = Some b → a < b).
Proof.
  destruct wrapping_ops_spec as [_ E]. cbv zeta. rewrite E.
  split_and!.
  - right. apply elem_of_app. left. apply list_elem_of_fmap.
    exists (Z.to_nat 4294967294). split; [rewrite Z2Nat.id by lia; reflexivity|].
    apply elem_of_seq. pose proof wrap_cycles_Z. lia.
  - intros Hnd. apply NoDup_cons in Hnd as [Hnd _]. apply Hnd.
    apply elem_of_app. right. left.
  - intros H.
    specialize (H 0%nat
      (S (length ((λ i, wrap32 (2 + Z.of_nat i)) <$> List.seq 0 wrap_cycles))) 1 1).
    assert (1 < 1) as Habs; [|lia].
    apply H; [lia|reflexivity|].
    apply (list_lookup_middle (1 :: _) [] 1). reflexivity.
Qed.

(** ** SetVolume *)

(** C10. [SetVolume s] is the assignment of the master scalar followed by
    [Tick]: the call leaves the scalar stored, sends an update command for
    every live channel that is neither stopping nor done, sends a stop
    command for every live channel flagged stopping and removes it from the
    live collection and the registry, and sweeps the released sources from
    the pool. *)
Theorem SetVolume_assign_then_Tick MAX (s : R) (w : World) :
  let w1 := set_mixer (with_master s (mixer w)) w in
  let r := SetVolume MAX s w in
  SetVolume MAX s w = Tick MAX w1 ∧
  (heap w1 = heap w ∧ held w1 = held w ∧ config w1 = config w ∧
   _volume (mixer w1) = s ∧
   _nextChannelId (mixer w1) = _nextChannelId (mixer w) ∧
   _channels (mixer w1) = _channels (mixer w) ∧
   _channelMap (mixer w1) = _channelMap (mixer w) ∧
   _sources (mixer w1) = _sources (mixer w)) ∧
  _volume (mixer r.1) = s ∧
  update_ids r.2 = updated_ids w (_channels (mixer w)) ∧
  stop_ids r.2 = stopped_ids w (_channels (mixer w)) ∧
  _channels (mixer r.1)
  = filter (λ h, stoppings w !! h ≠ Some true) (_channels (mixer w)) ∧
  (∀ id, _channelMap (mixer r.1) !! id =
         if decide (id ∈ stopped_ids w (_channels (mixer w))) then None
         else _channelMap (mixer w) !! id) ∧
  (∀ h, dones r.1 !! h =
        if decide (h ∈ _channels (mixer w) ∧ stoppings w !! h = Some true)
        then Some true else dones w !! h) ∧
  _sources (mixer r.1) = swept (_sources (mixer w)).
Proof.
  cbv zeta.
  rewrite SetVolume_eq.
  set (w1 := set_mixer (with_master s (mixer w)) w).
  assert (heap w1 = heap w ∧ held w1 = held w ∧ config w1 = config w ∧
          _volume (mixer w1) = s ∧
          _nextChannelId (mixer w1) = _nextChannelId (mixer w) ∧
          _channels (mixer w1) = _channels (mixer w) ∧
          _channelMap (mixer w1) = _channelMap (mixer w) ∧
          _sources (mixer w1) = _sources (mixer w)) as Hw1.
  { subst w1. destruct w as [hp hl [n v ss sm as_ am chs map srcs] cfg pos].
    cbn. split_and!; reflexivity. }
  split; [reflexivity|]. split; [exact Hw1|].
  destruct Hw1 as (Hh & Hl & Hc & Hv & Hn & Hch & Hm & Hs).
  destruct (Tick_spec MAX w1)
    as (I1 & I2 & I3 & I4 & I5 & I6 & I7 & I8 & I9 & I10 & I11 & I12 & I13 & I14).
  assert (ids w1 = ids w) as Ei by (unfold ids; rewrite Hh; reflexivity).
  assert (stoppings w1 = stoppings w) as Es
    by (unfold stoppings; rewrite Hh; reflexivity).
  assert (dones w1 = dones w) as Ed by (unfold dones; rewrite Hh; reflexivity).
  unfold stopped_ids, updated_ids in *.
  rewrite Hv in I7. rewrite Ei, Es, Ed, Hch in I13.
  rewrite Ei, Es, Hch in I12. rewrite Es, Hch in I10.
  rewrite Hs in I8.
  split_and!.
  - exact I7.
  - exact I13.
  - exact I12.
  - exact I10.
  - intros id. rewrite I11, Ei, Es, Hch, Hm. reflexivity.
  - intros h. rewrite I3, Es, Ed, Hch. reflexivity.
  - exact I8.
Qed.

(** ** Teardown *)

Lemma count_NoDup {A} `{EqDecision A} (l : list A) (x : A) :
  NoDup l → x ∈ l → length (filter (λ y, y = x) l) = 1%nat.
Proof.
  intros Hnd. induction Hnd as [|y l Hy Hnd IH]; intros Hx.
  - by apply elem_of_nil in Hx.
  - destruct (decide (y = x)) as [->|Hne].
    + rewrite filter_cons_True by reflexivity. cbn [length]. f_equal.
      destruct (filter (λ y, y = x) l) as [|z l'] eqn:E; [reflexivity|].
      exfalso. apply Hy.
      assert (z ∈ filter (λ y, y = x) l) as Hz by (rewrite E; left).
      apply list_elem_of_filter in Hz as [-> Hz]. exact Hz.
    + rewrite filter_cons_False by exact Hne. apply IH.
      apply elem_of_cons in Hx as [->|Hx]; [congruence|exact Hx].
Qed.

Lemma wf_live_inj w x y :
  wf w → x ∈ _channels (mixer w) → y ∈ _channels (mixer w) →
  default 0 (ids w !! x) = default 0 (ids w !! y) → x = y.
Proof.
  intros Hwf Hx Hy E.
  pose proof (wf_id_of w x Hwf Hx) as Ex.
  pose proof (wf_id_of w y Hwf Hy) as Ey.
  rewrite id_of_ids in Ex, Ey. rewrite <- E in Ey.
  exact (NoDup_lookup _ _ _ _ (wf_ids_nodup w Hwf) Ex Ey).
Qed.

Lemma stopped_ids_NoDup w : wf w → NoDup (stopped_ids w (_channels (mixer w))).
Proof.
  intros Hwf. unfold stopped_ids. apply NoDup_fmap_2_strong.
  - intros x y Hx Hy E.
    apply list_elem_of_filter in Hx as [_ Hx].
    apply list_elem_of_filter in Hy as [_ Hy].
    by apply (wf_live_inj w).
  - apply NoDup_filter, (wf_live_nodup w Hwf).
Qed.

(** No stop command is sent for an identifier that has no registry entry. *)
Lemma stopped_ids_unregistered w id :
  wf w → _channelMap (mixer w) !! id = None →
  id ∉ stopped_ids w (_channels (mixer w)).
Proof.
  intros Hwf Hnone Hin. unfold stopped_ids in Hin.
  apply list_elem_of_fmap in Hin as (h & -> & Hin).
  apply list_elem_of_filter in Hin as [_ Hh].
  pose proof (wf_id_of w h Hwf Hh) as Ei. rewrite id_of_ids in Ei.
  assert (_channelMap (mixer w) !! default 0 (ids w !! h) = Some h) as E
    by (by apply (wf_registry w Hwf)).
  congruence.
Qed.

Lemma call_Stop_view h w :
  (h < length (heap w))%nat →
  let r := call h Stop w in
  r.2 = [] ∧ ids r.1 = ids w ∧ dones r.1 = dones w ∧
  stoppings r.1 = <[h := true]> (stoppings w) ∧
  mixer r.1 = mixer w ∧ held r.1 = held w ∧ config r.1 = config w ∧
  length (heap r.1) = length (heap w).
Proof.
  intros Hlt. apply lookup_lt_is_Some in Hlt as [c Hc].
  cbv zeta. unfold call. rewrite Hc.
  unfold Stop, SetStopping, seq, modify, skip. cbn [fst snd app].
  destruct w as [hp hl m cfg pos]. cbn in *.
  unfold ids, dones, stoppings. cbn.
  rewrite !list_fmap_insert, length_insert. destruct c. cbn.
  split_and!; try reflexivity.
  - apply list_insert_id. rewrite list_lookup_fmap, Hc. reflexivity.
  - apply list_insert_id. rewrite list_lookup_fmap, Hc. reflexivity.
Qed.

(** [Stop] a second time changes nothing. *)
Lemma call_Stop_twice h w :
  call h Stop (call h Stop w).1 = ((call h Stop w).1, []).
Proof.
  unfold call at 2 3.
  destruct (heap w !! h) as [c|] eqn:Hc.
  2: { cbn [fst]. unfold call. rewrite Hc. reflexivity. }
  assert (h < length (heap w))%nat as Hlt by (by apply lookup_lt_Some in Hc).
  unfold Stop, SetStopping, seq, modify, skip. cbn [fst snd app].
  destruct w as [hp hl m cfg pos]. cbn in *.
  unfold call. cbn. rewrite list_lookup_insert_eq by exact Hlt.
  unfold seq, modify. cbn. rewrite list_insert_insert_eq. destruct c. reflexivity.
Qed.

Lemma times_Stop_view h n :
  ∀ w,
    (h < length (heap w))%nat →
    let r := times (S n) (call h Stop) w in
    r = ((call h Stop w).1, []).
Proof.
  induction n as [|n IH]; intros w Hlt; cbv zeta.
  - destruct (call_Stop_view h w Hlt) as (Htr & _).
    cbn [times]. unfold seq, skip. cbn [fst snd]. rewrite Htr. reflexivity.
  - destruct (call_Stop_view h w Hlt) as (Htr & _ & _ & _ & _ & _ & _ & Hlen).
    change (times (S (S n)) (call h Stop) w)
      with (let r := call h Stop w in
            let r' := times (S n) (call h Stop) r.1 in (r'.1, r.2 ++ r'.2)).
    cbv zeta. rewrite IH by (rewrite Hlen; exact Hlt).
    rewrite call_Stop_twice, Htr. reflexivity.
Qed.

Lemma OnChannelEnded_unknown k w :
  _channelMap (mixer w) !! k = None →
  OnChannelEnded k w = (w, [MutexLock; MutexUnlock]).
Proof.
  intros H. rewrite OnChannelEnded_eq. unfold FindChannel. rewrite H. reflexivity.
Qed.

Lemma OnChannelEnded_twice k w :
  let e := OnChannelEnded k w in
  OnChannelEnded k e.1 = (e.1, [MutexLock; MutexUnlock]).
Proof.
  cbv zeta. rewrite (OnChannelEnded_eq k w).
  destruct (FindChannel w k) as [h|] eqn:Hfind; cbn [fst].
  - apply OnChannelEnded_unknown.
    destruct (ended_view k h w) as (_ & _ & _ & _ & _ & _ & _ & _ & _ & _ & ->).
    apply lookup_delete_eq.
  - rewrite OnChannelEnded_eq, Hfind. reflexivity.
Qed.

Lemma coherent_id_of w h :
  coherent w → h ∈ _channels (mixer w) → ids w !! h = Some (id_of w h).
Proof.
  intros Hco Hh. rewrite id_of_ids.
  apply (co_live_alloc w Hco) in Hh.
  apply lookup_lt_is_Some in Hh as [id ->]. reflexivity.
Qed.

Lemma coherent_unregistered w k :
  coherent w →
  k ∉ ids w ∨ (∀ h, h ∈ _channels (mixer w) → id_of w h ≠ k) →
  _channelMap (mixer w) !! k = None.
Proof.
  intros Hco Hk. destruct (_ !! k) as [h|] eqn:E; [|reflexivity].
  apply (co_registry w Hco) in E as [Hh Hi]. exfalso.
  destruct Hk as [Hk|Hk].
  - apply Hk. by apply list_elem_of_lookup_2 in Hi.
  - apply (Hk h Hh). rewrite id_of_ids, Hi. reflexivity.
Qed.

Lemma stopped_ids_id_of w w' (l : list handle) :
  ids w' = ids w →
  stopped_ids w' l = id_of w <$> filter (λ h, stoppings w' !! h = Some true) l.
Proof.
  intros Hi. unfold stopped_ids. apply list_fmap_ext.
  intros _ h _. by rewrite Hi, id_of_ids.
Qed.

(** C3. In any state that a new mixer reaches, take a live channel.  [Stop]
    called on it once or more sends nothing to the backend, and a second
    [Stop] changes nothing.  The [Tick] that follows sends one stop command
    per live channel that is stopping, and the channel is one of these
    exactly once; it is marked done and removed from the live collection,
    and its identifier from the registry.  The [Tick] after that sends no
    stop command for it.  [OnChannelEnded] delivered a second time, or for
    an identifier that no live channel has (never returned by [Play], or
    already removed), changes nothing: it only takes and releases the lock.
    While [Play] has been called fewer than 2^31 - 1 times an identifier
    names one channel: then the stop commands with the identifier of the
    channel are one in the first [Tick] and none in the second, and
    [OnChannelEnded] for its identifier removes the channel. *)
Theorem teardown_exactly_once MAX conv cfg pos ops h n :
  let w := (run MAX conv ops (new_world cfg pos)).1 in
  h ∈ _channels (mixer w) →
  (1 ≤ n)%nat →
  let id := id_of w h in
  let r1 := times n (call h Stop) w in
  let r2 := Tick MAX r1.1 in
  let r3 := Tick MAX r2.1 in
  let stopping (v : World) :=
    filter (λ h', stoppings v !! h' = Some true) (_channels (mixer v)) in
  (r1 = ((call h Stop w).1, []) ∧ h ∈ _channels (mixer r1.1)) ∧
  (stop_ids r2.2 = id_of w <$> stopping r1.1 ∧
   length (filter (λ h', h' = h) (stopping r1.1)) = 1%nat ∧
   (h ∉ _channels (mixer r2.1)) ∧ _channelMap (mixer r2.1) !! id = None ∧
   dones r2.1 !! h = Some true) ∧
  (stop_ids r3.2 = id_of w <$> stopping r2.1 ∧ (h ∉ stopping r2.1) ∧
   (h ∉ _channels (mixer r3.1)) ∧ _channelMap (mixer r3.1) !! id = None) ∧
  OnChannelEnded id r2.1 = (r2.1, [MutexLock; MutexUnlock]) ∧
  (∀ k, let e := OnChannelEnded k w in
        OnChannelEnded k e.1 = (e.1, [MutexLock; MutexUnlock])) ∧
  (∀ k, k ∉ ids w ∨ (∀ h', h' ∈ _channels (mixer w) → id_of w h' ≠ k) →
        OnChannelEnded k w = (w, [MutexLock; MutexUnlock])) ∧
  (Z.of_nat (plays ops) < INT32_MAX →
   let e := OnChannelEnded id w in
   length (filter (λ x, x = id) (stop_ids r2.2)) = 1%nat ∧
   (id ∉ stop_ids r3.2) ∧
   (h ∉ _channels (mixer e.1)) ∧ _channelMap (mixer e.1) !! id = None ∧
   dones e.1 !! h = Some true).
Proof.
  intros w Hh Hn.
  pose proof (coherent_run MAX conv ops _ (coherent_new cfg pos)) as Hco.
  assert (Z.of_nat (plays ops) < INT32_MAX → wf w) as Hwf.
  { intros Hb.
    destruct (wf_run MAX conv ops (new_world cfg pos) (wf_new cfg pos))
      as [Hwf _]; [cbn; lia|exact Hwf]. }
  fold w in Hco. clearbody w. destruct n as [|n]; [lia|]. clear Hn.
  cbv zeta. rewrite (id_of_ids w h).
  assert (h < length (heap w))%nat as Hlt.
  { rewrite <- ids_length. by apply (co_live_alloc w Hco). }
  pose proof (coherent_id_of w h Hco Hh) as Hid. rewrite id_of_ids in Hid.
  set (id := default 0 (ids w !! h)) in *.
  rewrite (times_Stop_view h n w Hlt). cbn [fst snd].
  destruct (call_Stop_view h w Hlt) as (_ & Ei & Ed & Es & Em & _ & _ & Hlen).
  set (w1 := (call h Stop w).1) in *.
  assert (coherent w1) as Hco1.
  { apply (coherent_same w); rewrite ?Em; try assumption; reflexivity. }
  assert (stoppings w1 !! h = Some true) as Hst.
  { rewrite Es. apply list_lookup_insert_eq. unfold stoppings.
    by rewrite length_fmap. }
  destruct (Tick_spec MAX w1)
    as (I1 & I2 & I3 & I4 & I5 & I6 & I7 & I8 & I9 & I10 & I11 & I12 & I13 & I14).
  pose proof (coherent_Tick MAX w1 Hco1) as Hco2.
  set (r2 := Tick MAX w1) in *.
  assert (h ∈ filter (λ h', stoppings w1 !! h' = Some true)
                (_channels (mixer w1))) as Hin.
  { apply list_elem_of_filter. split; [exact Hst|]. by rewrite Em. }
  assert (id ∈ stopped_ids w1 (_channels (mixer w1))) as Hin'.
  { unfold stopped_ids. apply list_elem_of_fmap. exists h.
    rewrite Ei, Hid. split; [reflexivity|exact Hin]. }
  assert (h ∉ _channels (mixer r2.1)) as Hout.
  { rewrite I10. intros Hx. apply list_elem_of_filter in Hx as [Hns _].
    by apply Hns. }
  assert (_channelMap (mixer r2.1) !! id = None) as Hnone.
  { rewrite I11. by rewrite decide_True. }
  destruct (Tick_spec MAX r2.1)
    as (J1 & J2 & J3 & J4 & J5 & J6 & J7 & J8 & J9 & J10 & J11 & J12 & J13 & J14).
  split_and!.
  - reflexivity.
  - by rewrite Em.
  - rewrite I12. by apply stopped_ids_id_of.
  - apply count_NoDup; [|exact Hin].
    apply NoDup_filter, (co_live_nodup w1 Hco1).
  - exact Hout.
  - exact Hnone.
  - rewrite I3. rewrite decide_True; [reflexivity|].
    split; [by rewrite Em|exact Hst].
  - rewrite J12. apply stopped_ids_id_of. by rewrite I1.
  - intros Hx. apply list_elem_of_filter in Hx as [_ Hx]. by apply Hout.
  - rewrite J10. intros Hx. apply list_elem_of_filter in Hx as [_ Hx].
    by apply Hout.
  - rewrite J11. case_decide; [reflexivity|exact Hnone].
  - by apply OnChannelEnded_unknown.
  - intros k. apply OnChannelEnded_twice.
  - intros k Hk. apply OnChannelEnded_unknown.
    by apply coherent_unregistered.
  - intros Hb. specialize (Hwf Hb).
    assert (wf w1) as Hwf1.
    { apply (wf_same w); rewrite ?Em; try assumption; try reflexivity.
      apply (wf_cache w Hwf). }
    assert (_channelMap (mixer w) !! id = Some h) as Hreg
      by (by apply (wf_registry w Hwf)).
    assert (FindChannel w id = Some h) as Hfind.
    { unfold FindChannel, expired. rewrite Hreg.
      rewrite bool_decide_eq_true_2 by (by left). reflexivity. }
    rewrite OnChannelEnded_eq, Hfind. cbn [fst].
    destruct (ended_view id h w)
      as (_ & _ & K3 & _ & _ & _ & _ & _ & _ & K10 & K11).
    split_and!.
    + rewrite I12. apply count_NoDup; [by apply stopped_ids_NoDup|exact Hin'].
    + rewrite J12. apply stopped_ids_unregistered; [|exact Hnone].
      by apply wf_Tick.
    + rewrite K10. intros Hx. apply list_elem_of_filter in Hx as [Hne _].
      apply Hne. by rewrite Hid.
    + rewrite K11. apply lookup_delete_eq.
    + rewrite K3. by rewrite decide_True.
Qed.

Lemma teardown_exactly_once_witness :
  let ops := [OpPlay (Some sample_source) 0 false] in
  let w := (run 128 no_conversion ops sample_world).1 in
  let r2 := Tick 128 (times 2 (call 0%nat Stop) w).1 in
  0%nat ∈ _channels (mixer w) ∧
  (1 ≤ 2)%nat ∧
  Z.of_nat (plays ops) < INT32_MAX ∧
  length (filter (λ x, x = id_of w 0%nat) (stop_ids r2.2)) = 1%nat ∧
  (0%nat ∉ _channels (mixer r2.1)) ∧
  OnChannelEnded (id_of w 0%nat) r2.1 = (r2.1, [MutexLock; MutexUnlock]).
Proof.
  cbv zeta.
  assert (Z.of_nat (plays [OpPlay (Some sample_source) 0 false]) < INT32_MAX)
    as Hb by (vm_compute; reflexivity).
  assert (0%nat ∈ _channels
            (mixer (run 128 no_conversion [OpPlay (Some sample_source) 0 false]
                      (new_world sample_config (λ _, 0%R))).1)) as Hh
    by (cbn; left).
  assert (1 ≤ 2)%nat as Hn by lia.
  destruct (teardown_exactly_once 128 no_conversion sample_config (λ _, 0%R)
              [OpPlay (Some sample_source) 0 false] 0%nat 2 Hh Hn)
    as (_ & (_ & _ & Hout & _) & _ & Hended & _ & _ & Hbounded).
  destruct (Hbounded Hb) as (Hcount & _).
  split_and!; [exact Hh | exact Hn | exact Hb | exact Hcount | exact Hout
              | exact Hended].
Defined.

(** ** Channels that are done *)

Lemma effect_quiet cl w (r : World * trace) :
  ids r.1 = ids w → dones r.1 = dones w →
  _channels (mixer r.1) = _channels (mixer w) →
  stop_ids r.2 = [] → update_ids r.2 = [] →
  step_effect cl (ids w) (dones w) (_channels (mixer w)) r.
Proof.
  intros Hi Hd Hc Hs Hu. unfold step_effect.
  rewrite Hi, Hd, Hc, Hs, Hu. split_and!.
  - exists []. by rewrite app_nil_r.
  - auto.
  - auto.
  - intros id H. by apply elem_of_nil in H.
  - intros id H. by apply elem_of_nil in H.
Qed.

Lemma Tick_effect MAX cl w :
  step_effect cl (ids w) (dones w) (_channels (mixer w)) (Tick MAX w).
Proof.
  destruct (Tick_spec MAX w)
    as (I1 & I2 & I3 & I4 & I5 & I6 & I7 & I8 & I9 & I10 & I11 & I12 & I13 & I14).
  unfold step_effect. rewrite I1, I10, I12, I13. split_and!.
  - exists []. by rewrite app_nil_r.
  - intros h Hh. apply list_elem_of_filter in Hh as [_ Hh]. by left.
  - intros h Hd _. rewrite I3. by case_decide.
  - intros id Hin. unfold stopped_ids in Hin.
    apply list_elem_of_fmap in Hin as (h & -> & Hin).
    apply list_elem_of_filter in Hin as [Hst Hh].
    exists h. split; [exact Hh|].
    assert (h < length (ids w))%nat as Hlt.
    { apply lookup_lt_Some in Hst. unfold stoppings in Hst.
      rewrite length_fmap in Hst. unfold ids. by rewrite length_fmap. }
    apply lookup_lt_is_Some in Hlt as [x ->]. reflexivity.
  - intros id Hin. unfold updated_ids in Hin.
    apply list_elem_of_fmap in Hin as (h & -> & Hin).
    apply list_elem_of_filter in Hin as [[Hst Hd] Hh].
    exists h. split.
    + assert (h < length (ids w))%nat as Hlt.
      { apply lookup_lt_Some in Hst. unfold stoppings in Hst.
      rewrite length_fmap in Hst. unfold ids. by rewrite length_fmap. }
      apply lookup_lt_is_Some in Hlt as [x ->]. reflexivity.
    + rewrite I3. rewrite decide_False; [exact Hd|].
      intros [_ Hst']. congruence.
Qed.

Lemma Close_commands w (l : list handle) (tl : trace) :
  stop_ids (((λ h, Backend (WebAudioStopChannel (id_of w h))) <$> l) ++ tl)
  = (id_of w <$> l) ++ stop_ids tl ∧
  update_ids (((λ h, Backend (WebAudioStopChannel (id_of w h))) <$> l) ++ tl)
  = update_ids tl.
Proof.
  unfold stop_ids, update_ids. rewrite !omap_app.
  induction l as [|h l [IH1 IH2]]; [split; reflexivity|].
  cbn. cbn in IH1, IH2. split.
  - f_equal. exact IH1.
  - exact IH2.
Qed.

Lemma method_of_done MAX (k : channel_call) (c : WebAudioChannel) :
  clears k = false → c_done c = true → c_done (method_of MAX k c).1 = true.
Proof.
  destruct c, k; cbn; intros Hk Hd; try assumption; try discriminate.
  - unfold SetOffset. cbn. destruct (_ =? 0); cbn; assumption.
  - destruct value; [reflexivity|discriminate].
Qed.

Lemma Play_commands channelId n frames rate data loop r v p off :
  let tr := [MutexLock; Mutate LiveChannels; Mutate Registry;
             Backend (WebAudioPlayChannel channelId n frames rate data loop r v
                        p off);
             MutexUnlock] in
  stop_ids tr = [] ∧ update_ids tr = [].
Proof. split; reflexivity. Qed.

Lemma perform_effect MAX conv o w :
  coherent w →
  step_effect (λ h, clears_done h o) (ids w) (dones w) (_channels (mixer w))
    (perform MAX conv o w).
Proof.
  intros Hco.
  destruct o as [source loop dod|v| |channelId| |source|h k|h|i|cfg];
    cbn [perform].
  - destruct (Play MAX conv source loop dod w) as [[h|] [w' tr]] eqn:HPlay.
    + destruct (Play_success _ _ _ _ _ _ _ _ _ HPlay)
        as (fmt & fl & n & fr & _ & _ & -> & Hheap & _ & _ & _ & Hch & _ & _ & _
            & _ & _ & _ & _ & Htr).
      cbv zeta in Htr.
      destruct (Play_commands (_nextChannelId (mixer w)) n fr (freq fmt) fl loop
                  (c_rate (fresh_channel MAX (_nextChannelId (mixer w)) source
                             loop dod fmt))
                  (GetAdjustedVolume MAX (UpdateAdjustedSound w)
                     (fresh_channel MAX (_nextChannelId (mixer w)) source loop
                        dod fmt))
                  (c_pan (fresh_channel MAX (_nextChannelId (mixer w)) source
                            loop dod fmt))
                  (fdiv (c_offsetBytes
                           (fresh_channel MAX (_nextChannelId (mixer w)) source
                              loop dod fmt))
                     (GetBytesPerSecond fmt))) as [Es Eu].
      cbv zeta in Es, Eu. rewrite <- Htr in Es, Eu.
      unfold step_effect. cbn [fst snd]. rewrite Es, Eu. split_and!.
      * eexists. unfold ids. rewrite Hheap, fmap_app. reflexivity.
      * intros h. rewrite Hch, elem_of_app, ids_length.
        intros [H|H]; [by left|right].
        apply list_elem_of_singleton in H as ->. lia.
      * intros h Hd _. unfold dones. rewrite Hheap, fmap_app.
        by apply lookup_app_l_Some.
      * intros id H. by apply elem_of_nil in H.
      * intros id H. by apply elem_of_nil in H.
    + pose proof (Play_None MAX conv source loop dod w) as HN.
      rewrite HPlay in HN. cbn [fst snd] in HN. rewrite (HN eq_refl).
      apply effect_quiet; reflexivity.
  - rewrite SetVolume_eq.
    set (w1 := set_mixer (with_master v (mixer w)) w).
    assert (ids w1 = ids w ∧ dones w1 = dones w
            ∧ _channels (mixer w1) = _channels (mixer w)) as (E1 & E2 & E3).
    { subst w1. destruct w as [hp hl [n v0 ss sm as_ am chs map srcs] cfg pos].
      split_and!; reflexivity. }
    rewrite <- E1, <- E2, <- E3. apply Tick_effect.
  - apply Tick_effect.
  - rewrite OnChannelEnded_eq.
    destruct (FindChannel w channelId) as [h|] eqn:Hfind;
      [|apply effect_quiet; reflexivity].
    destruct (ended_view channelId h w)
      as (I1 & I2 & I3 & I4 & I5 & I6 & I7 & I8 & I9 & I10 & I11).
    unfold step_effect. cbn [fst snd]. rewrite I1, I10. split_and!.
    + exists []. by rewrite app_nil_r.
    + intros h' Hh'. apply list_elem_of_filter in Hh' as [_ Hh']. by left.
    + intros h' Hd _. rewrite I3.
      destruct (decide (h' = h ∧ _)); [reflexivity|exact Hd].
    + intros id H. by apply elem_of_nil in H.
    + intros id H. by apply elem_of_nil in H.
  - rewrite Close_eq.
    set (w1 := set_mixer _ w).
    assert (ids w1 = ids w ∧ dones w1 = dones w ∧ _channels (mixer w1) = [])
      as (E1 & E2 & E3).
    { subst w1. destruct w as [hp hl [n v0 ss sm as_ am chs map srcs] cfg pos].
      split_and!; reflexivity. }
    destruct (Close_commands w (_channels (mixer w))
                [Mutate LiveChannels; Mutate Registry; Mutate SourcePool;
                 MutexUnlock]) as [Es Eu].
    unfold step_effect. cbn [fst snd]. rewrite E1, E2, E3.
    change (stop_ids (MutexLock :: ?l)) with (stop_ids l).
    change (update_ids (MutexLock :: ?l)) with (update_ids l).
    rewrite Es, Eu. split_and!.
    + exists []. by rewrite app_nil_r.
    + intros h H. by apply elem_of_nil in H.
    + auto.
    + intros id H. change (stop_ids _) with (@nil Z) in H.
      rewrite app_nil_r in H.
      apply list_elem_of_fmap in H as (h & -> & Hh).
      exists h. split; [exact Hh|]. by apply coherent_id_of.
    + intros id H. by apply elem_of_nil in H.
  - apply effect_quiet;
      destruct w as [hp hl [n v0 ss sm as_ am chs map srcs] cfg pos];
      destruct source; reflexivity.
  - case_bool_decide as Hheld; [|apply effect_quiet; reflexivity].
    destruct (call_view MAX h k w)
      as (V1 & V2 & V3 & V4 & V5 & V6 & V7 & V8 & V9 & V10 & V11 & V12 & V13).
    unfold step_effect. rewrite V1, V7. split_and!.
    + exists []. by rewrite app_nil_r.
    + auto.
    + intros h' Hd Hcl. cbn [clears_done] in Hcl.
      unfold dones in Hd |- *. rewrite list_lookup_fmap in Hd |- *.
      destruct (decide (h = h')) as [<-|Hne].
      * rewrite bool_decide_eq_true_2 in Hcl by reflexivity.
        destruct (heap w !! h) as [c|] eqn:Hc; [|discriminate].
        rewrite (V12 c eq_refl). cbn in Hd |- *. f_equal.
        apply method_of_done; [exact Hcl|congruence].
      * rewrite V11 by congruence. exact Hd.
    + destruct V13 as [->|(c & rate & vol & pan & off & flag & Hc & Hd & ->)];
        intros id H; by apply elem_of_nil in H.
    + destruct V13 as [->|(c & rate & vol & pan & off & flag & Hc & Hd & ->)];
        intros id H; [by apply elem_of_nil in H|].
      apply list_elem_of_singleton in H as ->.
      exists h. split.
      * rewrite <- V1. by apply ids_lookup.
      * rewrite (dones_lookup _ _ _ Hc), Hd. reflexivity.
  - apply effect_quiet;
      destruct w as [hp hl [n v0 ss sm as_ am chs map srcs] cfg pos];
      reflexivity.
  - apply effect_quiet;
      destruct w as [hp hl [n v0 ss sm as_ am chs map srcs] cfg pos];
      reflexivity.
  - apply effect_quiet;
      destruct w as [hp hl [n v0 ss sm as_ am chs map srcs] cfg0 pos];
      reflexivity.
Qed.

Lemma update_ids_app t1 t2 : update_ids (t1 ++ t2) = update_ids t1 ++ update_ids t2.
Proof. apply omap_app. Qed.

Lemma stop_ids_app t1 t2 : stop_ids (t1 ++ t2) = stop_ids t1 ++ stop_ids t2.
Proof. apply omap_app. Qed.

Lemma plays_cons o ops :
  plays (o :: ops) = ((if is_play o then 1 else 0) + plays ops)%nat.
Proof. unfold plays. cbn. destruct (is_play o); reflexivity. Qed.

(** While nothing clears its done flag, no update command carries the
    identifier of a channel that is done. *)
Lemma run_done MAX conv ops :
  ∀ w h id,
    wf w →
    _nextChannelId (mixer w) + Z.of_nat (plays ops) ≤ INT32_MAX →
    ids w !! h = Some id → dones w !! h = Some true →
    Forall (λ o, clears_done h o = false) ops →
    id ∉ update_ids (run MAX conv ops w).2.
Proof.
  induction ops as [|o ops IH]; intros w h id Hwf Hb Hid Hd Hcl.
  - cbn. apply not_elem_of_nil.
  - apply Forall_cons in Hcl as [Hcl1 Hcl].
    cbn [run]. unfold seq. cbn [snd]. rewrite update_ids_app.
    destruct (perform_effect MAX conv o w (wf_coherent w Hwf))
      as ((l & P1) & P2 & P3 & P4 & P5).
    rewrite plays_cons in Hb.
    destruct (wf_perform MAX conv o w Hwf) as [Hwf' Hn'].
    { intros Hp. rewrite Hp in Hb. lia. }
    intros Hin. apply elem_of_app in Hin as [Hin|Hin].
    + apply P5 in Hin as (h' & Hi' & Hd').
      assert (h' = h) as ->
        by exact (NoDup_lookup _ _ _ _ (wf_ids_nodup w Hwf) Hi' Hid).
      rewrite (P3 h Hd Hcl1) in Hd'. discriminate.
    + revert Hin. apply (IH _ h id Hwf'); try assumption.
      * destruct (is_play o); lia.
      * rewrite P1. by apply lookup_app_l_Some.
      * by apply P3.
Qed.

(** A channel that has left the live collection does not come back, and
    no stop command carries its identifier. *)
Lemma run_removed MAX conv ops :
  ∀ w h id,
    wf w →
    _nextChannelId (mixer w) + Z.of_nat (plays ops) ≤ INT32_MAX →
    ids w !! h = Some id → h ∉ _channels (mixer w) →
    (h ∉ _channels (mixer (run MAX conv ops w).1)) ∧
    (id ∉ stop_ids (run MAX conv ops w).2).
Proof.
  induction ops as [|o ops IH]; intros w h id Hwf Hb Hid Hout.
  - cbn. split; [exact Hout|apply not_elem_of_nil].
  - cbn [run]. unfold seq. cbn [fst snd]. rewrite stop_ids_app.
    destruct (perform_effect MAX conv o w (wf_coherent w Hwf))
      as ((l & P1) & P2 & P3 & P4 & P5).
    rewrite plays_cons in Hb.
    destruct (wf_perform MAX conv o w Hwf) as [Hwf' Hn'].
    { intros Hp. rewrite Hp in Hb. lia. }
    destruct (IH (perform MAX conv o w).1 h id Hwf') as [IH1 IH2].
    + destruct (is_play o); lia.
    + rewrite P1. by apply lookup_app_l_Some.
    + intros Hin. apply P2 in Hin as [Hin|Hin]; [by apply Hout|].
      apply lookup_lt_Some in Hid. lia.
    + split; [exact IH1|].
      intros Hin. apply elem_of_app in Hin as [Hin|Hin]; [|by apply IH2].
      apply P4 in Hin as (h' & Hh' & Hi').
      assert (h' = h) as ->
        by exact (NoDup_lookup _ _ _ _ (wf_ids_nodup w Hwf) Hi' Hid).
      by apply Hout.
Qed.

(** A channel that has left the live collection does not come back. *)
Lemma run_not_live MAX conv ops :
  ∀ w h,
    coherent w → (h < length (heap w))%nat → h ∉ _channels (mixer w) →
    h ∉ _channels (mixer (run MAX conv ops w).1).
Proof.
  induction ops as [|o ops IH]; intros w h Hco Hlt Hout; [exact Hout|].
  cbn [run]. unfold seq. cbn [fst].
  destruct (perform_effect MAX conv o w Hco) as ((l & P1) & P2 & _).
  apply IH.
  - by apply coherent_perform.
  - rewrite <- ids_length, P1, length_app, ids_length. lia.
  - intros Hin. apply P2 in Hin as [Hin|Hin]; [by apply Hout|].
    rewrite ids_length in Hin. lia.
Qed.

Lemma updated_ids_id_of w (l : list handle) :
  updated_ids w l
  = id_of w <$> filter (λ h, stoppings w !! h = Some false
                             ∧ dones w !! h = Some false) l.
Proof.
  unfold updated_ids. apply list_fmap_ext. intros _ h _. by rewrite id_of_ids.
Qed.

(** C7, as amended. In any state that a new mixer reaches, take a channel [h].
    If [h] is done: a call of SetRate, SetVolume, SetPan, SetGroup (any call
    but [SetDone false] and [Play]) on it sends nothing and leaves it done;
    [Tick] sends one update command per live channel that is neither
    stopping nor done, and [h] is not one of these.
    If [h] is live and stopping: [Tick] sends one stop command per live
    channel that is stopping, [h] is one of these exactly once, it is marked
    done and removed from the live collection, and no operation makes it
    live again, so the transition is made once.
    While [Play] is called fewer than 2^31 - 1 times overall an identifier
    names one channel: then no update command of [Tick], or of any sequence
    of operations that does not clear the done flag of [h], carries the
    identifier of the done channel [h]; and the stop commands with the
    identifier of the stopping channel [h] are one in [Tick] and none
    afterwards. *)
Theorem done_channel_silent MAX conv cfg pos ops ops' h :
  let w := (run MAX conv ops (new_world cfg pos)).1 in
  let id := id_of w h in
  let bounded := Z.of_nat (plays ops + plays ops') < INT32_MAX in
  (dones w !! h = Some true →
   let updated :=
     filter (λ h', stoppings w !! h' = Some false ∧ dones w !! h' = Some false)
       (_channels (mixer w)) in
   (∀ k, clears k = false →
         let r := call h (method_of MAX k) w in
         r.2 = [] ∧ dones r.1 !! h = Some true) ∧
   (update_ids (Tick MAX w).2 = id_of w <$> updated ∧ (h ∉ updated)) ∧
   (bounded →
    (id ∉ update_ids (Tick MAX w).2) ∧
    (Forall (λ o, clears_done h o = false) ops' →
     id ∉ update_ids (run MAX conv ops' w).2))) ∧
  (h ∈ _channels (mixer w) → stoppings w !! h = Some true →
   let r := Tick MAX w in
   let r' := run MAX conv ops' r.1 in
   let stopping :=
     filter (λ h', stoppings w !! h' = Some true) (_channels (mixer w)) in
   (stop_ids r.2 = id_of w <$> stopping ∧
    length (filter (λ h', h' = h) stopping) = 1%nat) ∧
   (dones r.1 !! h = Some true ∧ (h ∉ _channels (mixer r.1)) ∧
    (h ∉ _channels (mixer r'.1))) ∧
   (bounded →
    length (filter (λ x, x = id) (stop_ids r.2)) = 1%nat ∧
    (id ∉ update_ids r.2) ∧ (id ∉ stop_ids r'.2))).
Proof.
  intros w.
  pose proof (coherent_run MAX conv ops _ (coherent_new cfg pos)) as Hco.
  assert (Z.of_nat (plays ops + plays ops') < INT32_MAX →
          wf w ∧ _nextChannelId (mixer w) + Z.of_nat (plays ops') ≤ INT32_MAX)
    as Hwf.
  { intros Hb.
    destruct (wf_run MAX conv ops (new_world cfg pos) (wf_new cfg pos))
      as [Hwf Hn]; [cbn; lia|].
    split; [exact Hwf|]. fold w in Hn. cbn in Hn. lia. }
  fold w in Hco. clearbody w. cbv zeta. rewrite (id_of_ids w h).
  destruct (Tick_spec MAX w)
    as (I1 & I2 & I3 & I4 & I5 & I6 & I7 & I8 & I9 & I10 & I11 & I12 & I13 & I14).
  split.
  - intros Hd.
    assert (∃ id, ids w !! h = Some id) as [id Hid].
    { apply lookup_lt_is_Some. apply lookup_lt_Some in Hd.
      unfold dones in Hd. rewrite length_fmap in Hd.
      unfold ids. by rewrite length_fmap. }
    rewrite Hid. cbn [default from_option].
    split_and!.
    + intros k Hk.
      destruct (call_view MAX h k w)
        as (_ & _ & _ & _ & _ & _ & _ & _ & _ & _ & _ & V12 & V13).
      unfold dones in Hd. rewrite list_lookup_fmap in Hd.
      destruct (heap w !! h) as [c|] eqn:Hc; [|discriminate].
      cbn in Hd. specialize (V12 c eq_refl).
      assert (c_done (method_of MAX k c).1 = true) as Hd'
        by (apply method_of_done; [exact Hk|congruence]).
      split.
      * destruct V13 as [E|(c' & rate & vol & pan & off & flag & Hc' & Hf & _)];
          [exact E|].
        rewrite V12 in Hc'. congruence.
      * rewrite (dones_lookup _ _ _ V12), Hd'. reflexivity.
    + rewrite I13. apply updated_ids_id_of.
    + intros Hx. apply list_elem_of_filter in Hx as [[_ Hx] _]. congruence.
    + intros Hb. destruct (Hwf Hb) as [Hw Hn]. split.
      * destruct (Tick_effect MAX (λ _, false) w) as (_ & _ & P3 & _ & P5).
        intros Hin. apply P5 in Hin as (h' & Hi' & Hd').
        assert (h' = h) as ->
          by exact (NoDup_lookup _ _ _ _ (wf_ids_nodup w Hw) Hi' Hid).
        rewrite (P3 h Hd eq_refl) in Hd'. discriminate.
      * intros Hcl. by apply (run_done MAX conv ops' w h id).
  - intros Hh Hst.
    pose proof (coherent_id_of w h Hco Hh) as Hid. rewrite id_of_ids in Hid.
    set (id := default 0 (ids w !! h)) in *.
    assert (h ∈ filter (λ h', stoppings w !! h' = Some true)
                  (_channels (mixer w))) as Hin
      by (apply list_elem_of_filter; by split).
    assert (h ∉ _channels (mixer (Tick MAX w).1)) as Hout.
    { rewrite I10. intros Hx. apply list_elem_of_filter in Hx as [Hns _].
      by apply Hns. }
    split_and!.
    + rewrite I12. by apply stopped_ids_id_of.
    + apply count_NoDup; [|exact Hin].
      apply NoDup_filter, (co_live_nodup w Hco).
    + rewrite I3. rewrite decide_True; [reflexivity|]. by split.
    + exact Hout.
    + apply run_not_live; [by apply coherent_Tick| |exact Hout].
      apply lookup_lt_Some in Hid. rewrite <- ids_length, I1. exact Hid.
    + intros Hb. destruct (Hwf Hb) as [Hw Hn].
      destruct (run_removed MAX conv ops' (Tick MAX w).1 h id) as [_ R2].
      { by apply wf_Tick. }
      { rewrite I6. exact Hn. }
      { rewrite I1. exact Hid. }
      { exact Hout. }
      split_and!.
      * rewrite I12. apply count_NoDup; [by apply stopped_ids_NoDup|].
        unfold stopped_ids. apply list_elem_of_fmap. exists h.
        split; [reflexivity|exact Hin].
      * rewrite I13. unfold updated_ids. intros Hx.
        apply list_elem_of_fmap in Hx as (h' & E & Hx).
        apply list_elem_of_filter in Hx as [[Hst' _] Hh'].
        assert (h = h') as <- by (by apply (wf_live_inj w)).
        congruence.
      * exact R2.
Qed.

Lemma done_channel_silent_witness :
  let ended := [OpPlay (Some sample_source) 0 false; OpOnChannelEnded 1] in
  let later := [OpCall 0%nat (CallSetRate 2); OpSetVolume 1; OpTick] in
  let stopped := [OpPlay (Some sample_source) 0 false; OpCall 0%nat CallStop] in
  let w := (run 128 no_conversion ended sample_world).1 in
  let w' := (run 128 no_conversion stopped sample_world).1 in
  (Z.of_nat (plays ended + plays later) < INT32_MAX ∧
   dones w !! 0%nat = Some true ∧
   Forall (λ o, clears_done 0%nat o = false) later ∧
   (id_of w 0%nat ∉ update_ids (run 128 no_conversion later w).2)) ∧
  (Z.of_nat (plays stopped + plays later) < INT32_MAX ∧
   0%nat ∈ _channels (mixer w') ∧
   stoppings w' !! 0%nat = Some true ∧
   dones (Tick 128 w').1 !! 0%nat = Some true ∧
   length (filter (λ x, x = id_of w' 0%nat) (stop_ids (Tick 128 w').2)) = 1%nat).
Proof.
  cbv zeta. split.
  - assert (Z.of_nat
              (plays [OpPlay (Some sample_source) 0 false; OpOnChannelEnded 1]
               + plays [OpCall 0%nat (CallSetRate 2); OpSetVolume 1; OpTick])
            < INT32_MAX) as Hb by (vm_compute; reflexivity).
    assert (dones (run 128 no_conversion
                     [OpPlay (Some sample_source) 0 false; OpOnChannelEnded 1]
                     (new_world sample_config (λ _, 0%R))).1 !! 0%nat
            = Some true) as Hd by (cbn; reflexivity).
    assert (Forall (λ o, clears_done 0%nat o = false)
              [OpCall 0%nat (CallSetRate 2); OpSetVolume 1; OpTick]) as Hcl
      by (repeat constructor).
    destruct (done_channel_silent 128 no_conversion sample_config (λ _, 0%R)
                [OpPlay (Some sample_source) 0 false; OpOnChannelEnded 1]
                [OpCall 0%nat (CallSetRate 2); OpSetVolume 1; OpTick] 0%nat)
      as [Hdone _].
    destruct (Hdone Hd) as (_ & _ & Hbounded).
    destruct (Hbounded Hb) as [_ Hrun].
    split; [exact Hb|]. split; [exact Hd|]. split; [exact Hcl|].
    exact (Hrun Hcl).
  - assert (Z.of_nat
              (plays [OpPlay (Some sample_source) 0 false; OpCall 0%nat CallStop]
               + plays [OpCall 0%nat (CallSetRate 2); OpSetVolume 1; OpTick])
            < INT32_MAX) as Hb by (vm_compute; reflexivity).
    assert (0%nat ∈ _channels
              (mixer (run 128 no_conversion
                        [OpPlay (Some sample_source) 0 false;
                         OpCall 0%nat CallStop]
                        (new_world sample_config (λ _, 0%R))).1)) as Hh
      by (cbn; left).
    assert (stoppings (run 128 no_conversion
                         [OpPlay (Some sample_source) 0 false;
                          OpCall 0%nat CallStop]
                         (new_world sample_config (λ _, 0%R))).1 !! 0%nat
            = Some true) as Hst by (cbn; reflexivity).
    destruct (done_channel_silent 128 no_conversion sample_config (λ _, 0%R)
                [OpPlay (Some sample_source) 0 false; OpCall 0%nat CallStop]
                [OpCall 0%nat (CallSetRate 2); OpSetVolume 1; OpTick] 0%nat)
      as [_ Hstop].
    destruct (Hstop Hh Hst) as (_ & (Hd & _) & Hbounded).
    destruct (Hbounded Hb) as (Hcount & _).
    split; [exact Hb|]. split; [exact Hh|]. split; [exact Hst|].
    split; [exact Hd|exact Hcount].
Defined.

(** C7, the claim as stated fails: a done flag does not stay set for ever.
    The channel that [Play] returned is marked done by [OnChannelEnded];
    the application then calls [Play] on the channel, which clears the
    flag, and the [SetRate] that follows sends an update command for the
    identifier of the channel. *)
Lemma done_channel_updated_again :
  let ended := [OpPlay (Some sample_source) 0 false; OpOnChannelEnded 1] in
  let later := [OpCall 0%nat (CallPlay (Some sample_source) 0);
                OpCall 0%nat (CallSetRate 2)] in
  let w := (run 128 no_conversion ended sample_world).1 in
  Z.of_nat (plays ended + plays later) < INT32_MAX ∧
  dones w !! 0%nat = Some true ∧
  id_of w 0%nat = 1 ∧
  update_ids (run 128 no_conversion later w).2 = [1] ∧
  id_of w 0%nat ∈ update_ids (run 128 no_conversion later w).2.
Proof.
  cbv zeta.
  assert (update_ids
            (run 128 no_conversion
               [OpCall 0%nat (CallPlay (Some sample_source) 0);
                OpCall 0%nat (CallSetRate 2)]
               (run 128 no_conversion
                  [OpPlay (Some sample_source) 0 false; OpOnChannelEnded 1]
                  sample_world).1).2 = [1]) as Hu by (cbn; reflexivity).
  split; [vm_compute; reflexivity|]. split; [cbn; reflexivity|].
  split; [cbn; reflexivity|]. split; [exact Hu|].
  rewrite Hu. cbn. left.
Qed.

(** * Further properties of the code *)

(** ** The sample conversions *)

Lemma byte_value_range (b : byte) : 0 ≤ byte_value b < 256.
Proof.
  unfold byte_value. pose proof (Byte.to_N_bounded b) as H. lia.
Qed.

Lemma pcm16_range (data : list byte) :
  Forall (λ s, -32768 ≤ s < 32768) (pcm16 data).
Proof.
  induction data as [|a|a b l IH] using list_pair_ind.
  - constructor.
  - constructor.
  - cbn [pcm16]. constructor; [|exact IH].
    pose proof (byte_value_range a). pose proof (byte_value_range b).
    destruct (Z.ltb_spec (byte_value a + 256 * byte_value b) 32768); lia.
Qed.

Lemma ConvertToFloat_range (fmt : AudioFormat) (data : list byte) :
  Forall (λ x, (-1 <= x < 1)%R) (ConvertToFloat fmt data).
Proof.
  unfold ConvertToFloat. destruct (format fmt =? AUDIO_U8).
  - apply Forall_forall. intros x Hx. apply list_elem_of_In in Hx.
    apply List.in_map_iff in Hx as (b & <- & _).
    pose proof (byte_value_range b) as Hb.
    assert (-128 <= IZR (byte_value b - 128) <= 127)%R as HR.
    { split; apply IZR_le; lia. }
    lra.
  - apply Forall_forall. intros x Hx. apply list_elem_of_In in Hx.
    apply List.in_map_iff in Hx as (s & <- & Hs).
    pose proof (pcm16_range data) as Hr.
    rewrite Forall_forall in Hr. apply list_elem_of_In in Hs.
    specialize (Hr s Hs).
    assert (-32768 <= IZR s <= 32767)%R as HR.
    { split; apply IZR_le; lia. }
    lra.
Qed.

Lemma pcm16_lookup (data : list byte) :
  ∀ (k : nat) lo hi,
    data !! (2 * k)%nat = Some lo → data !! (2 * k + 1)%nat = Some hi →
    pcm16 data !! k
    = Some (let u := byte_value lo + 256 * byte_value hi in
            if u <? 32768 then u else u - 65536).
Proof.
  induction data as [|a|a b l IH] using list_pair_ind; intros k lo hi Hlo Hhi.
  - discriminate.
  - destruct k; discriminate.
  - destruct k as [|k].
    + cbn in Hlo, Hhi. injection Hlo as ->. injection Hhi as ->. reflexivity.
    + cbn [pcm16]. rewrite lookup_cons_ne_0 by lia. cbn [pred].
      apply IH.
      * replace (2 * S k)%nat with (S (S (2 * k))) in Hlo by lia. exact Hlo.
      * replace (2 * S k + 1)%nat with (S (S (2 * k + 1))) in Hhi by lia.
        exact Hhi.
Qed.

(** X1. Every sample that [ConvertToFloat] produces lies in [-1, 1): an
    unsigned byte [b] becomes (b - 128)/128 and a signed 16-bit sample [s]
    becomes s/32768, where the [k]-th 16-bit sample is the two's complement
    value of the bytes 2k (low) and 2k+1 (high).  There is one sample per
    byte of 8-bit data and one per two whole bytes otherwise (an odd last
    byte is dropped). *)
Theorem ConvertToFloat_samples (fmt : AudioFormat) (data : list byte) :
  let samples := ConvertToFloat fmt data in
  Forall (λ x, (-1 <= x < 1)%R) samples ∧
  Z.of_nat (length samples) =
    (if format fmt =? AUDIO_U8 then Z.of_nat (length data)
     else Z.of_nat (length data) / 2) ∧
  (format fmt = AUDIO_U8 →
   samples = (λ b, (IZR (byte_value b - 128) / 128)%R) <$> data) ∧
  (format fmt ≠ AUDIO_U8 →
   samples = (λ s, (IZR s / 32768)%R) <$> pcm16 data ∧
   Forall (λ s, -32768 ≤ s < 32768) (pcm16 data) ∧
   ∀ (k : nat) lo hi,
     data !! (2 * k)%nat = Some lo → data !! (2 * k + 1)%nat = Some hi →
     let u := byte_value lo + 256 * byte_value hi in
     let s := if u <? 32768 then u else u - 65536 in
     pcm16 data !! k = Some s ∧ samples !! k = Some (IZR s / 32768)%R).
Proof.
  cbv zeta. split; [|split; [|split]].
  - apply ConvertToFloat_range.
  - rewrite ConvertToFloat_length. reflexivity.
  - intros Hf. unfold ConvertToFloat. rewrite Hf. reflexivity.
  - intros Hf.
    assert (ConvertToFloat fmt data
            = (λ s, (IZR s / 32768)%R) <$> pcm16 data) as E.
    { unfold ConvertToFloat.
      destruct (Z.eqb_spec (format fmt) AUDIO_U8); [contradiction|reflexivity]. }
    split; [exact E|]. split; [apply pcm16_range|].
    intros k lo hi Hlo Hhi.
    pose proof (pcm16_lookup data k lo hi Hlo Hhi) as Hk. cbv zeta in Hk.
    split; [exact Hk|].
    rewrite E, list_lookup_fmap, Hk. reflexivity.
Qed.

(** ** Play, seen by its caller *)

Lemma Play_SDL_Some MAX conv sdl loop deleteondone w h w' tr :
  Play MAX conv (Some (IsSDLAudioSource sdl)) loop deleteondone w
  = (Some h, (w', tr)) →
  ∃ fmt pcm,
    let data := ConvertToFloat fmt pcm in
    let frames := wrap32 (Z.of_nat (length data) / channels fmt) in
    converted conv sdl = Some (fmt, pcm) ∧
    0 < channels fmt ∧ 0 < frames ∧
    Play_locked MAX (Some (IsSDLAudioSource sdl)) loop deleteondone fmt data
      (channels fmt) frames w = (h, (w', tr)).
Proof.
  rewrite Play_SDL. intros H.
  destruct (converted conv sdl) as [[fmt pcm]|]; [|discriminate].
  cbv zeta in H.
  destruct (Z.leb_spec (channels fmt) 0); [discriminate|].
  destruct (Z.leb_spec (wrap32 (Z.of_nat (length (ConvertToFloat fmt pcm))
                                 / channels fmt)) 0); [discriminate|].
  apply pair_Some_inv in H.
  exists fmt, pcm. cbv zeta. split_and!; [reflexivity|lia|lia|exact H].
Qed.

(** X2. [Play] asks SDL for a conversion only when the source is neither
    8-bit unsigned nor 16-bit signed: for those two formats the result does
    not depend on the converter.  For any other format a channel is
    returned only if the conversion succeeded, and the format the channel
    captures is 16-bit signed with the rate and the channel count of the
    source. *)
Theorem Play_conversion MAX conv sdl loop deleteondone w :
  (format (GetFormat sdl) = AUDIO_U8 ∨ format (GetFormat sdl) = AUDIO_S16SYS →
   ∀ conv',
     Play MAX conv (Some (IsSDLAudioSource sdl)) loop deleteondone w
     = Play MAX conv' (Some (IsSDLAudioSource sdl)) loop deleteondone w) ∧
  (format (GetFormat sdl) ≠ AUDIO_U8 → format (GetFormat sdl) ≠ AUDIO_S16SYS →
   ∀ h w' tr,
     Play MAX conv (Some (IsSDLAudioSource sdl)) loop deleteondone w
     = (Some h, (w', tr)) →
     ∃ buffer c,
       conv (GetFormat sdl) (source_data sdl) = Some buffer ∧
       heap w' !! h = Some c ∧
       c_format c = mkAudioFormat (freq (GetFormat sdl)) AUDIO_S16SYS
                      (channels (GetFormat sdl))).
Proof.
  split.
  - intros Hf conv'. rewrite !Play_SDL.
    assert (∀ k, converted k sdl = Some (GetFormat sdl, ReadAllPcmData sdl)) as E.
    { intros k. unfold converted. destruct Hf as [Hf|Hf]; rewrite Hf.
      - rewrite (bool_decide_eq_false_2 (AUDIO_U8 ≠ AUDIO_U8)) by tauto.
        by rewrite andb_false_r.
      - rewrite (bool_decide_eq_false_2 (AUDIO_S16SYS ≠ AUDIO_S16SYS)) by tauto.
        reflexivity. }
    rewrite !E. reflexivity.
  - intros H8 H16 h w' tr HPlay.
    destruct (Play_SDL_Some _ _ _ _ _ _ _ _ _ HPlay)
      as (fmt & pcm & Hconv & _ & _ & HL).
    cbv zeta in HL.
    unfold converted in Hconv.
    rewrite (bool_decide_eq_true_2 (_ ≠ AUDIO_S16SYS)) in Hconv by assumption.
    rewrite (bool_decide_eq_true_2 (_ ≠ AUDIO_U8)) in Hconv by assumption.
    cbn [andb] in Hconv. unfold ConvertToS16, ReadAllPcmData in Hconv.
    destruct (Z.eqb_spec (format (GetFormat sdl)) AUDIO_S16SYS); [tauto|].
    destruct (conv _ _) as [buffer|]; [|discriminate].
    injection Hconv as <- <-.
    pose proof (Play_locked_world MAX (Some (IsSDLAudioSource sdl)) loop
                  deleteondone
                  (mkAudioFormat (freq (GetFormat sdl)) AUDIO_S16SYS
                     (channels (GetFormat sdl)))
                  (ConvertToFloat
                     (mkAudioFormat (freq (GetFormat sdl)) AUDIO_S16SYS
                        (channels (GetFormat sdl))) buffer)
                  (channels (GetFormat sdl))
                  (wrap32
                     (Z.of_nat
                        (length
                           (ConvertToFloat
                              (mkAudioFormat (freq (GetFormat sdl)) AUDIO_S16SYS
                                 (channels (GetFormat sdl))) buffer))
                      / channels (GetFormat sdl))) w) as HW.
    cbv zeta in HW. cbn [channels] in HL. rewrite HL in HW. cbn [fst snd] in HW.
    destruct HW as (-> & Hheap & _).
    eexists buffer, _. split; [reflexivity|]. split.
    + rewrite Hheap, lookup_app_r by lia. rewrite Nat.sub_diag. reflexivity.
    + by destruct (fresh_channel_fields MAX (_nextChannelId (mixer w))
                     (Some (IsSDLAudioSource sdl)) loop deleteondone
                     (mkAudioFormat (freq (GetFormat sdl)) AUDIO_S16SYS
                        (channels (GetFormat sdl))))
        as (_ & _ & _ & _ & _ & _ & _ & _ & -> & _).
Qed.

Lemma Play_conversion_witness :
  Play 128 no_conversion (Some sample_source) 0 false sample_world
  = Play 128 (λ _ data, Some data) (Some sample_source) 0 false sample_world.
Proof.
  apply (proj1 (Play_conversion 128 no_conversion
                  (mkSource (mkAudioFormat 44100 AUDIO_S16SYS 2)
                     [x00; x00; x00; x00; x00; x00; x00; x00] false)
                  0 false sample_world)).
  right. reflexivity.
Defined.

(** X3. The start command of a successful [Play] describes its buffer
    truthfully: the buffer is the converted data of the source, every
    sample of it is in [-1, 1), the channel count and the frame count are
    positive, and channels x frames samples are in the buffer, with fewer
    than one frame left over.  The identifier is the value of the counter
    before the call, the sample rate is that of the format and the loop
    count is the caller's. *)
Theorem Play_command_in_bounds MAX conv sdl loop deleteondone w h w' tr :
  addressable conv (Some (IsSDLAudioSource sdl)) →
  Play MAX conv (Some (IsSDLAudioSource sdl)) loop deleteondone w
  = (Some h, (w', tr)) →
  ∃ fmt pcm rate volume pan offset,
    let data := ConvertToFloat fmt pcm in
    let n := channels fmt in
    let frames := Z.of_nat (length data) / n in
    converted conv sdl = Some (fmt, pcm) ∧
    tr = [MutexLock; Mutate LiveChannels; Mutate Registry;
          Backend (WebAudioPlayChannel (_nextChannelId (mixer w)) n frames
                     (freq fmt) data loop rate volume pan offset);
          MutexUnlock] ∧
    0 < n ∧ 0 < frames ∧
    n * frames ≤ Z.of_nat (length data) < n * (frames + 1) ∧
    Forall (λ x, (-1 <= x < 1)%R) data.
Proof.
  intros Haddr HPlay.
  destruct (Play_SDL_Some _ _ _ _ _ _ _ _ _ HPlay)
    as (fmt & pcm & Hconv & Hn & Hfr & HL).
  cbv zeta in Hfr, HL.
  destruct (converted_Some _ _ _ _ Haddr Hconv) as (_ & _ & Hrange).
  assert (0 ≤ Z.of_nat (length (ConvertToFloat fmt pcm)) / channels fmt < 2^31)
    as Hq.
  { split; [apply Z.div_pos; lia|].
    apply Z.div_lt_upper_bound; [lia|]. nia. }
  rewrite wrap32_small in Hfr, HL by lia.
  pose proof (Play_locked_trace MAX (Some (IsSDLAudioSource sdl)) loop
                deleteondone fmt (ConvertToFloat fmt pcm) (channels fmt)
                (Z.of_nat (length (ConvertToFloat fmt pcm)) / channels fmt) w)
    as HT.
  cbv zeta in HT. rewrite HL in HT. cbn [snd] in HT.
  eexists fmt, pcm, _, _, _, _. cbv zeta.
  split; [exact Hconv|]. split; [exact HT|].
  split; [exact Hn|]. split; [exact Hfr|]. split.
  - pose proof (Z.mul_div_le (Z.of_nat (length (ConvertToFloat fmt pcm)))
                  (channels fmt) Hn).
    pose proof (Z.mul_succ_div_gt (Z.of_nat (length (ConvertToFloat fmt pcm)))
                  (channels fmt) Hn).
    lia.
  - apply ConvertToFloat_range.
Qed.

Lemma Play_command_in_bounds_witness :
  addressable no_conversion (Some sample_source) ∧
  sample_played.1 = Some 0%nat ∧
  ∃ data rate volume pan offset,
    sample_played.2.2 =
      [MutexLock; Mutate LiveChannels; Mutate Registry;
       Backend (WebAudioPlayChannel 1 2 2 44100 data 0 rate volume pan offset);
       MutexUnlock] ∧
    length data = 4%nat.
Proof.
  assert (addressable no_conversion (Some sample_source)) as Ha.
  { split; [cbn; lia | discriminate]. }
  split; [exact Ha|]. split; [reflexivity|].
  destruct (Play_command_in_bounds 128 no_conversion
              (mkSource (mkAudioFormat 44100 AUDIO_S16SYS 2)
                 [x00; x00; x00; x00; x00; x00; x00; x00] false)
              0 false sample_world 0%nat sample_played.2.1 sample_played.2.2
              Ha sample_played_eq)
    as (fmt & pcm & rate & volume & pan & offset & Hconv & Htr & _).
  injection Hconv as <- <-.
  eexists _, rate, volume, pan, offset. split; [exact Htr|reflexivity].
Defined.

Lemma Play_FindChannel MAX conv source loop deleteondone w h w' tr :
  Play MAX conv source loop deleteondone w = (Some h, (w', tr)) →
  FindChannel w' (_nextChannelId (mixer w)) = Some h.
Proof.
  intros HPlay.
  destruct (Play_success _ _ _ _ _ _ _ _ _ HPlay)
    as (fmt & fl & n & fr & _ & _ & -> & Hheap & _ & _ & _ & Hch & Hmap & _).
  unfold FindChannel, expired. rewrite Hmap, lookup_insert_eq, Hch.
  rewrite bool_decide_eq_true_2; [reflexivity|].
  left. apply elem_of_app. right. left.
Qed.

(** X4. After a successful [Play] the returned channel is the last of the
    live collection, the registry finds it under its identifier (the value
    of the counter before the call), it is playing and not stopping, at
    offset 0 in the Sound group, with the source, the loop count and the
    delete-on-done flag of the call; and every older channel object is as
    it was. *)
Theorem Play_registers MAX conv source loop deleteondone w h w' tr :
  Play MAX conv source loop deleteondone w = (Some h, (w', tr)) →
  let id := _nextChannelId (mixer w) in
  last (_channels (mixer w')) = Some h ∧
  FindChannel w' id = Some h ∧
  (∃ c, heap w' !! h = Some c ∧
        c_channelId c = id ∧ IsPlaying c = true ∧ c_stopping c = false ∧
        c_offsetBytes c = 0 ∧ c_group c = Sound ∧ c_source c = source ∧
        c_loop c = loop ∧ c_deleteondone c = deleteondone) ∧
  (heap w !! h = None) ∧
  (∀ h' c', heap w !! h' = Some c' → heap w' !! h' = Some c').
Proof.
  intros HPlay.
  pose proof (Play_FindChannel _ _ _ _ _ _ _ _ _ HPlay) as Hfind.
  destruct (Play_success _ _ _ _ _ _ _ _ _ HPlay)
    as (fmt & fl & n & fr & _ & _ & -> & Hheap & _ & _ & _ & Hch & Hmap & _).
  destruct (fresh_channel_fields MAX (_nextChannelId (mixer w)) source loop
              deleteondone fmt)
    as (F1 & _ & _ & _ & F5 & F6 & F7 & F8 & _ & F10 & F11 & F12).
  cbv zeta. split_and!.
  - rewrite Hch. apply last_snoc.
  - exact Hfind.
  - eexists. split.
    + rewrite Hheap, lookup_app_r by lia. rewrite Nat.sub_diag. reflexivity.
    + unfold IsPlaying. rewrite F7. split_and!; try assumption; reflexivity.
  - apply lookup_ge_None. lia.
  - intros h' c' H. rewrite Hheap. by apply lookup_app_l_Some.
Qed.

Lemma Play_registers_witness :
  sample_played = (Some 0%nat, (sample_played.2.1, sample_played.2.2)) ∧
  FindChannel sample_played.2.1 1 = Some 0%nat.
Proof.
  split; [exact sample_played_eq|].
  exact (proj1 (proj2 (Play_registers 128 no_conversion (Some sample_source) 0
                         false sample_world 0%nat sample_played.2.1
                         sample_played.2.2 sample_played_eq))).
Defined.

Lemma filter_all {A} (P : A → Prop) `{∀ x, Decision (P x)} (l : list A) :
  Forall P l → filter P l = l.
Proof.
  induction 1 as [|x l Hx _ IH]; [reflexivity|].
  rewrite filter_cons_True by exact Hx. by rewrite IH.
Qed.

(** X5. While [Play] has been called fewer than 2^31 - 1 times:
    [OnChannelEnded] for the identifier of the channel that [Play] has just
    returned undoes the registration.  The live collection and the registry
    are as before the [Play], the channel object stays and is marked done,
    nothing is sent to the backend, and the counter keeps its new value. *)
Theorem Play_then_ended MAX conv cfg pos ops source loop deleteondone h w' tr :
  Z.of_nat (plays ops) < INT32_MAX →
  let w := (run MAX conv ops (new_world cfg pos)).1 in
  Play MAX conv source loop deleteondone w = (Some h, (w', tr)) →
  let id := _nextChannelId (mixer w) in
  let r := OnChannelEnded id w' in
  _channels (mixer r.1) = _channels (mixer w) ∧
  _channelMap (mixer r.1) = _channelMap (mixer w) ∧
  dones r.1 !! h = Some true ∧
  r.2 = [MutexLock; Mutate LiveChannels; Mutate Registry; MutexUnlock] ∧
  _nextChannelId (mixer r.1) = wrap32 (id + 1).
Proof.
  intros Hb w HPlay.
  assert (wf w) as Hwf.
  { destruct (wf_run MAX conv ops (new_world cfg pos) (wf_new cfg pos))
      as [Hwf _]; [cbn; lia|exact Hwf]. }
  clearbody w. cbv zeta.
  pose proof (Play_FindChannel _ _ _ _ _ _ _ _ _ HPlay) as Hfind.
  cbv zeta in Hfind.
  destruct (Play_success _ _ _ _ _ _ _ _ _ HPlay)
    as (fmt & fl & n & fr & _ & _ & -> & Hheap & _ & _ & Hnext & Hch & Hmap & _).
  destruct (fresh_channel_fields MAX (_nextChannelId (mixer w)) source loop
              deleteondone fmt) as (Hid & _).
  assert (ids w' = ids w ++ [_nextChannelId (mixer w)]) as Hids.
  { unfold ids. rewrite Hheap, fmap_app. cbn [fmap list_fmap]. by rewrite Hid. }
  rewrite OnChannelEnded_eq, Hfind. cbn [fst snd].
  destruct (ended_view (_nextChannelId (mixer w)) (length (heap w)) w')
    as (_ & _ & K3 & _ & _ & K6 & _ & _ & _ & K10 & K11).
  split_and!.
  - rewrite K10, Hch, filter_app, Hids.
    rewrite filter_cons_False, filter_nil, app_nil_r.
    2: { rewrite lookup_app_r by (rewrite ids_length; lia).
         rewrite ids_length, Nat.sub_diag. cbn. tauto. }
    apply filter_all. apply Forall_forall. intros e He.
    pose proof (wf_live_alloc w Hwf e He) as Hlt.
    rewrite lookup_app_l by exact Hlt.
    apply lookup_lt_is_Some in Hlt as [x Hx]. rewrite Hx. cbn.
    assert (x ∈ ids w) as Hin by (by apply list_elem_of_lookup_2 in Hx).
    apply (wf_ids_range w Hwf) in Hin. lia.
  - rewrite K11, Hmap, delete_insert_eq. apply delete_id.
    destruct (_channelMap (mixer w) !! _nextChannelId (mixer w)) as [h0|] eqn:E;
      [|reflexivity].
    apply (wf_registry w Hwf) in E as [_ E].
    apply list_elem_of_lookup_2 in E. apply (wf_ids_range w Hwf) in E. lia.
  - rewrite K3. rewrite decide_True; [reflexivity|].
    split; [reflexivity|]. rewrite Hheap, length_app. cbn. lia.
  - reflexivity.
  - rewrite K6. exact Hnext.
Qed.

Lemma Play_then_ended_witness :
  Z.of_nat (plays []) < INT32_MAX ∧
  _channels (mixer (OnChannelEnded 1 sample_played.2.1).1) = [] ∧
  _channelMap (mixer (OnChannelEnded 1 sample_played.2.1).1) = ∅.
Proof.
  assert (Z.of_nat (plays []) < INT32_MAX) as Hb by (vm_compute; reflexivity).
  split; [exact Hb|].
  destruct (Play_then_ended 128 no_conversion sample_config (λ _, 0%R) []
              (Some sample_source) 0 false 0%nat sample_played.2.1
              sample_played.2.2 Hb sample_played_eq) as (H1 & H2 & _).
  split; [exact H1|exact H2].
Defined.

(** ** Close and Tick *)

Lemma commands_stops (f : handle → Z) (l : list handle) :
  commands ((λ h, Backend (WebAudioStopChannel (f h))) <$> l)
  = (λ h, WebAudioStopChannel (f h)) <$> l.
Proof.
  induction l as [|h l IH]; [reflexivity|].
  rewrite !fmap_cons.
  change (commands (Backend ?c :: ?t)) with (c :: commands t).
  by rewrite IH.
Qed.

(** X6. [Close] sends one stop command per live channel, in the order of
    the live collection, and no other command; it empties the live
    collection, the registry and the source pool under one lock.  It leaves
    the channel objects as they are (none is marked done or stopping) and
    does not reset the identifier counter.  A second [Close] sends
    nothing. *)
Theorem Close_clears (w : World) :
  let r := Close w in
  (_channels (mixer r.1) = [] ∧ _channelMap (mixer r.1) = ∅ ∧
   _sources (mixer r.1) = []) ∧
  (heap r.1 = heap w ∧ held r.1 = held w ∧
   _nextChannelId (mixer r.1) = _nextChannelId (mixer w) ∧
   _volume (mixer r.1) = _volume (mixer w)) ∧
  (stop_ids r.2 = id_of w <$> _channels (mixer w) ∧ update_ids r.2 = [] ∧
   discipline Free r.2 = Some Free) ∧
  (r.2 = MutexLock
         :: ((λ h, Backend (WebAudioStopChannel (id_of w h)))
               <$> _channels (mixer w))
         ++ [Mutate LiveChannels; Mutate Registry; Mutate SourcePool;
             MutexUnlock] ∧
   commands r.2
   = (λ h, WebAudioStopChannel (id_of w h)) <$> _channels (mixer w)) ∧
  Close r.1 = (r.1, [MutexLock; Mutate LiveChannels; Mutate Registry;
                     Mutate SourcePool; MutexUnlock]).
Proof.
  cbv zeta.
  pose proof (perform_discipline 0 no_conversion OpClose w) as HD.
  cbn [perform] in HD. rewrite Close_eq in HD |- *. cbn [fst snd] in HD |- *.
  destruct (Close_commands w (_channels (mixer w))
              [Mutate LiveChannels; Mutate Registry; Mutate SourcePool;
               MutexUnlock]) as [Es Eu].
  split_and!.
  - by destruct w as [hp hl [] cfg pos].
  - by destruct w as [hp hl [] cfg pos].
  - by destruct w as [hp hl [] cfg pos].
  - by destruct w as [hp hl [] cfg pos].
  - by destruct w as [hp hl [] cfg pos].
  - by destruct w as [hp hl [] cfg pos].
  - by destruct w as [hp hl [] cfg pos].
  - change (stop_ids (MutexLock :: ?l)) with (stop_ids l).
    rewrite Es. apply app_nil_r.
  - change (update_ids (MutexLock :: ?l)) with (update_ids l).
    rewrite Eu. reflexivity.
  - exact HD.
  - reflexivity.
  - change (commands (MutexLock :: ?l)) with (commands l).
    unfold commands at 1. rewrite omap_app. fold (commands
      ((λ h, Backend (WebAudioStopChannel (id_of w h))) <$> _channels (mixer w))).
    rewrite commands_stops. apply app_nil_r.
  - rewrite Close_eq. destruct w as [hp hl [n v ss sm as_ am chs map srcs] cfg pos].
    reflexivity.
Qed.

Lemma swept_swept (l : list SDLAudioSource) : swept (swept l) = swept l.
Proof.
  unfold swept. induction l as [|s l IH]; [reflexivity|].
  cbn. destruct (IsReleased s) eqn:E; cbn; [exact IH|].
  rewrite E. cbn. by rewrite IH.
Qed.

Lemma swept_unreleased (l : list SDLAudioSource) :
  Forall (λ s, IsReleased s = false) (swept l).
Proof.
  unfold swept. apply Forall_forall. intros s Hs.
  apply list_elem_of_In, List.filter_In in Hs as [_ Hs].
  by destruct (IsReleased s).
Qed.

Lemma filter_none {A} (P : A → Prop) `{∀ x, Decision (P x)} (l : list A) :
  Forall (λ x, ¬ P x) l → filter P l = [].
Proof.
  induction 1 as [|x l Hx _ IH]; [reflexivity|].
  by rewrite filter_cons_False.
Qed.

(** X7. After [Tick] no live channel is flagged stopping and no pooled
    source is released; the channels that stay live keep their order.  A
    second [Tick] right after the first sends no stop command, sends the
    same update commands, and leaves the live collection, the registry, the
    pool and the done flags as the first left them. *)
Theorem Tick_settles MAX (w : World) :
  let r := Tick MAX w in
  let r' := Tick MAX r.1 in
  (_channels (mixer r.1) `sublist_of` _channels (mixer w) ∧
   (∀ h, h ∈ _channels (mixer r.1) → stoppings r.1 !! h ≠ Some true) ∧
   Forall (λ s, IsReleased s = false) (_sources (mixer r.1))) ∧
  (stop_ids r'.2 = [] ∧ update_ids r'.2 = update_ids r.2 ∧
   _channels (mixer r'.1) = _channels (mixer r.1) ∧
   _channelMap (mixer r'.1) = _channelMap (mixer r.1) ∧
   _sources (mixer r'.1) = _sources (mixer r.1) ∧
   dones r'.1 = dones r.1).
Proof.
  cbv zeta.
  destruct (Tick_spec MAX w)
    as (I1 & I2 & I3 & I4 & I5 & I6 & I7 & I8 & I9 & I10 & I11 & I12 & I13 & I14).
  destruct (Tick_spec MAX (Tick MAX w).1)
    as (J1 & J2 & J3 & J4 & J5 & J6 & J7 & J8 & J9 & J10 & J11 & J12 & J13 & J14).
  set (r := Tick MAX w) in *. set (r' := Tick MAX r.1) in *.
  assert (filter (λ h, stoppings r.1 !! h = Some true) (_channels (mixer r.1))
          = []) as Hnone.
  { rewrite I2, I10, list_filter_filter.
    apply filter_none. apply Forall_forall. intros h _. tauto. }
  assert (filter (λ h, stoppings r.1 !! h ≠ Some true) (_channels (mixer r.1))
          = _channels (mixer r.1)) as Hall.
  { apply filter_all. rewrite I2, I10. apply Forall_forall. intros h Hh.
    by apply list_elem_of_filter in Hh as [Hh _]. }
  assert (stopped_ids r.1 (_channels (mixer r.1)) = []) as Hstopped.
  { unfold stopped_ids. by rewrite Hnone. }
  split; split_and!.
  - rewrite I10. apply sublist_filter.
  - intros h Hh. rewrite I2. rewrite I10 in Hh.
    by apply list_elem_of_filter in Hh as [Hh _].
  - rewrite I8. apply swept_unreleased.
  - by rewrite J12.
  - rewrite J13, I13. unfold updated_ids. rewrite I1, I2. f_equal.
    rewrite I10, list_filter_filter. apply list_filter_iff. intros h.
    rewrite I3. split.
    + intros [[Hs Hd] _]. split; [exact Hs|].
      rewrite decide_False in Hd by (intros [_ ?]; congruence). exact Hd.
    + intros [Hs Hd]. split; [|congruence]. split; [exact Hs|].
      rewrite decide_False by (intros [_ ?]; congruence). exact Hd.
  - by rewrite J10.
  - apply map_eq. intros id. rewrite J11, Hstopped.
    rewrite decide_False by apply not_elem_of_nil. reflexivity.
  - rewrite J8, I8. apply swept_swept.
  - apply list_eq. intros h. rewrite J3.
    rewrite decide_False; [reflexivity|].
    intros [Hh Hs]. assert (h ∈ @nil nat) as Hx; [|by apply elem_of_nil in Hx].
    rewrite <- Hnone. apply list_elem_of_filter. by split.
Qed.

(** ** What the setters keep *)

Lemma spec_linearGain_ge_1 (q : R) : (1 <= spec_linearGain q)%R.
Proof.
  unfold spec_linearGain, spec_attenuation_dB, Rpower.
  assert (0 < ln 10)%R as Hln.
  { rewrite <- ln_1. apply ln_increasing; lra. }
  pose proof (Rabs_pos (q - 1 / 2)) as Habs.
  pose proof (exp_ineq1_le (Rabs (q - 1 / 2) * 2 * 100 / 20 * ln 10)) as He.
  assert (0 <= Rabs (q - 1 / 2) * 2 * 100 / 20 * ln 10)%R; [|lra].
  apply Rmult_le_pos; lra.
Qed.

Lemma spec_gain_range (q : R) :
  (0 < / spec_linearGain q <= 1)%R.
Proof.
  pose proof (spec_linearGain_ge_1 q) as H. split.
  - apply Rinv_0_lt_compat. lra.
  - rewrite <- Rinv_1. apply Rinv_le_contravar; lra.
Qed.

Lemma channel_ok_with_done MAX b c : channel_ok MAX (with_done b c) ↔ channel_ok MAX c.
Proof. by destruct c. Qed.

(** [SetPan] establishes the pan and gain part whatever the channel was. *)
Lemma SetPan_ok MAX p c :
  let c' := (SetPan MAX p c).1 in
  (0 <= c_pan c' <= 1)%R ∧
  (0 < c_volume_l c' <= 1)%R ∧ (0 < c_volume_r c' <= 1)%R ∧
  (c_volume_l c' = 1%R ∨ c_volume_r c' = 1%R) ∧
  c_rate c' = c_rate c ∧ c_volume c' = c_volume c.
Proof.
  destruct (SetPan_fields MAX c p) as (Hp & Hl & Hr). cbv zeta in *.
  rewrite Hp, Hl, Hr.
  pose proof (spec_gain_range (spec_pan p)) as Hg.
  unfold spec_leftGain, spec_rightGain.
  split_and!.
  - unfold spec_pan. apply Rmax_l.
  - unfold spec_pan. apply Rmax_lub; [lra|apply Rmin_r].
  - destruct (Rle_dec _ _); lra.
  - destruct (Rle_dec _ _); lra.
  - destruct (Rle_dec _ _); lra.
  - destruct (Rle_dec _ _); lra.
  - destruct (Rle_dec _ _); [left|right]; reflexivity.
  - by destruct c.
  - by destruct c.
Qed.

Lemma clampZ_range v MAX : 0 ≤ MAX → 0 ≤ clampZ v 0 MAX ≤ MAX.
Proof.
  intros H. unfold clampZ.
  destruct (Z.ltb_spec v 0); [lia|]. destruct (Z.ltb_spec MAX v); lia.
Qed.

Lemma method_of_ok MAX k c :
  0 ≤ MAX → channel_ok MAX c → channel_ok MAX (method_of MAX k c).1.
Proof.
  intros HM Hc.
  destruct k as [g|r|o|v|v|p|b|b|b|s l| |]; cbn [method_of].
  - by destruct c.
  - destruct c. destruct Hc as (_ & Hv). cbn in *.
    split; [apply Rmax_l|exact Hv].
  - unfold SetOffset. destruct (_ =? 0); cbn [fst snd]; [exact Hc|].
    by destruct c.
  - by destruct c.
  - destruct c. destruct Hc as (Hr & _ & Hp). cbn in *.
    split; [exact Hr|]. split; [by apply clampZ_range|exact Hp].
  - destruct (SetPan_ok MAX p c) as (P1 & P2 & P3 & P4 & P5 & P6).
    cbv zeta in *. destruct Hc as (Hr & Hv & _).
    unfold channel_ok. rewrite P5, P6. tauto.
  - by destruct c.
  - by destruct c.
  - by destruct c.
  - by destruct c.
  - by destruct c.
  - by destruct c.
Qed.

Lemma fresh_channel_ok MAX channelId source loop deleteondone fmt :
  0 ≤ MAX →
  channel_ok MAX (fresh_channel MAX channelId source loop deleteondone fmt).
Proof.
  intros HM.
  destruct (fresh_channel_fields MAX channelId source loop deleteondone fmt)
    as (_ & Hr & Hp & Hv & _).
  unfold channel_ok. rewrite Hr, Hp, Hv.
  assert (c_volume_l (fresh_channel MAX channelId source loop deleteondone fmt)
          = 1%R ∧
          c_volume_r (fresh_channel MAX channelId source loop deleteondone fmt)
          = 1%R) as [-> ->].
  { cbn. destruct (Rle_dec _ _) as [_|H].
    - split; [lra|]. rewrite clampR_spec_pan, spec_pan_id by lra.
      replace (0.5 - 0.5)%R with 0%R by lra. rewrite Rabs_R0.
      replace (0 * 2.0 * 100.0 / 20.0)%R with 0%R by lra.
      rewrite pow_10, Rpower_O by lra. lra.
    - exfalso. apply H. rewrite clampR_spec_pan, spec_pan_id by lra. lra. }
  split_and!; try lra.
  - apply clampZ_range. exact HM.
  - apply clampZ_range. exact HM.
Qed.

Lemma UpdateChannel_ok MAX c restart w :
  channel_ok MAX c →
  heap (UpdateChannel MAX c restart w).1 = heap w ∧
  Forall event_ok (UpdateChannel MAX c restart w).2.
Proof.
  intros Hc.
  destruct (UpdateChannel_view MAX c restart w) as (Hh & _).
  split; [exact Hh|].
  destruct (c_done c) eqn:Hd.
  - rewrite UpdateChannel_done by exact Hd. constructor.
  - destruct (UpdateChannel_offset MAX c restart w Hd) as (s & -> & _).
    constructor; [|constructor].
    destruct Hc as (Hr & _ & Hp & _). cbn.
    split; [exact Hr|]. split; [exact Hp|]. destruct restart; auto.
Qed.

Lemma stop_step_heap kept rest h c w :
  heap (stop_step kept rest h c w) = <[h := with_done true c]> (heap w).
Proof. by destruct w as [hp hl [] cfg pos]. Qed.

Lemma Forall_ok_insert MAX (hp : list WebAudioChannel) h c c' :
  Forall (channel_ok MAX) hp → hp !! h = Some c →
  (channel_ok MAX c → channel_ok MAX c') →
  Forall (channel_ok MAX) (<[h := c']> hp).
Proof.
  intros Hhp Hh Hc. apply Forall_insert; [exact Hhp|].
  apply Hc. by apply (Forall_lookup_1 _ _ _ _ Hhp Hh).
Qed.

Lemma Tick_loop_ok MAX (rest : list handle) :
  ∀ kept w,
    Forall (channel_ok MAX) (heap w) →
    let r := Tick_loop MAX kept rest w in
    Forall (channel_ok MAX) (heap r.1) ∧ Forall event_ok r.2.
Proof.
  induction rest as [|h rest IH]; intros kept w Hw; cbv zeta.
  - split; [exact Hw|constructor].
  - destruct (heap w !! h) as [c|] eqn:Hh.
    2: { rewrite Tick_loop_dangling by exact Hh. by apply IH. }
    pose proof (Forall_lookup_1 _ _ _ _ Hw Hh) as Hc.
    destruct (c_stopping c) eqn:Hs.
    + rewrite (Tick_loop_stopping MAX kept h rest w c Hh Hs). cbv zeta.
      destruct (IH kept (stop_step kept rest h c w)) as [IH1 IH2].
      { rewrite stop_step_heap. apply (Forall_ok_insert MAX _ h c); auto.
        by rewrite channel_ok_with_done. }
      split; [exact IH1|]. cbn [fst snd].
      repeat (constructor; [exact I|]). exact IH2.
    + rewrite (Tick_loop_live MAX kept h rest w c Hh Hs). cbv zeta.
      cbn [fst snd].
      destruct (UpdateChannel_ok MAX c false w Hc) as [U1 U2].
      destruct (c_done c).
      * cbn [fst snd app]. by apply IH.
      * destruct (IH (kept ++ [h]) (UpdateChannel MAX c false w).1)
          as [IH1 IH2]; [by rewrite U1|].
        split; [exact IH1|]. apply Forall_app. by split.
Qed.

Lemma call_ok MAX h k w :
  0 ≤ MAX →
  Forall (channel_ok MAX) (heap w) →
  let r := call h (method_of MAX k) w in
  Forall (channel_ok MAX) (heap r.1) ∧ Forall event_ok r.2.
Proof.
  intros HM Hw. cbv zeta. unfold call.
  destruct (heap w !! h) as [c|] eqn:Hh; [|split; [exact Hw|constructor]].
  pose proof (Forall_lookup_1 _ _ _ _ Hw Hh) as Hc.
  pose proof (method_of_ok MAX k c HM Hc) as Hc'.
  destruct (method_of_shape MAX k c) as [_ Hstep].
  set (c' := (method_of MAX k c).1) in *.
  unfold seq, modify. cbn [fst snd app].
  set (w1 := set_heap (<[h:=c']> (heap w)) w).
  assert (heap w1 = <[h:=c']> (heap w)) as Eh by (subst w1; by destruct w).
  assert (Forall (channel_ok MAX) (heap w1)) as Hw1.
  { rewrite Eh. by apply (Forall_ok_insert MAX _ h c). }
  destruct Hstep as [->|[restart ->]].
  - split; [exact Hw1|constructor].
  - destruct (UpdateChannel_ok MAX c' restart w1 Hc') as [U1 U2].
    split; [by rewrite U1|exact U2].
Qed.

Lemma ended_heap channelId h w :
  heap (ended channelId h w) = heap (call h (SetDone true) w).1.
Proof.
  unfold ended. by destruct (call h (SetDone true) w).1 as [hp hl [] cfg pos].
Qed.

Lemma perform_ok MAX conv o w :
  0 ≤ MAX →
  Forall (channel_ok MAX) (heap w) →
  Forall (channel_ok MAX) (heap (perform MAX conv o w).1) ∧
  Forall event_ok (perform MAX conv o w).2.
Proof.
  intros HM Hw.
  assert (∀ w0, Forall (channel_ok MAX) (heap w0) →
                Forall (channel_ok MAX) (heap (Tick MAX w0).1) ∧
                Forall event_ok (Tick MAX w0).2) as HTick.
  { intros w0 Hw0. rewrite Tick_eq. cbv zeta.
    destruct (UpdateAdjustedSound_mixer w0) as (U1 & _).
    destruct (Tick_loop_ok MAX (_channels (mixer (UpdateAdjustedSound w0))) []
                (UpdateAdjustedSound w0)) as [T1 T2]; [by rewrite U1|].
    cbv zeta in T1, T2. cbn [fst snd]. split.
    - by destruct (Tick_loop MAX _ _ _).1 as [hp hl [] cfg pos].
    - constructor; [exact I|]. apply Forall_app. split; [exact T2|].
      repeat constructor. }
  destruct o as [source loop dod|v| |channelId| |source|h k|h|i|cfg];
    cbn [perform].
  - destruct (Play MAX conv source loop dod w) as [[h|] [w' tr]] eqn:HPlay.
    + destruct (Play_success _ _ _ _ _ _ _ _ _ HPlay)
        as (fmt & fl & n & fr & Hn & Hfr & _ & Hheap & _ & _ & _ & _ & _ & _ & _
            & _ & _ & _ & _ & Htr).
      cbv zeta in Htr.
      pose proof (fresh_channel_ok MAX (_nextChannelId (mixer w)) source loop dod
                    fmt HM) as Hc.
      cbn [fst snd]. split.
      * rewrite Hheap. apply Forall_app. split; [exact Hw|].
        constructor; [exact Hc|constructor].
      * rewrite Htr. destruct Hc as (Hr & _ & Hp & _).
        repeat (constructor; [exact I|]).
        constructor; [|repeat constructor].
        cbn. auto.
    + pose proof (Play_None MAX conv source loop dod w) as HN.
      rewrite HPlay in HN. cbn [fst snd] in HN. rewrite (HN eq_refl).
      split; [exact Hw|constructor].
  - rewrite SetVolume_eq. apply HTick. by destruct w as [hp hl [] cfg pos].
  - by apply HTick.
  - rewrite OnChannelEnded_eq.
    destruct (FindChannel w channelId) as [h|]; cbn [fst snd].
    + split; [|repeat constructor].
      rewrite ended_heap.
      exact (proj1 (call_ok MAX h (CallSetDone true) w HM Hw)).
    + split; [exact Hw|repeat constructor].
  - rewrite Close_eq. cbn [fst snd]. split.
    + by destruct w as [hp hl [] cfg pos].
    + constructor; [exact I|]. apply Forall_app. split.
      * apply Forall_fmap, Forall_forall. intros h _. exact I.
      * repeat constructor.
  - destruct w as [hp hl [n v0 ss sm as_ am chs map srcs] cfg pos].
    destruct source; cbn; (split; [exact Hw|repeat constructor]).
  - case_bool_decide; [|split; [exact Hw|constructor]].
    by apply call_ok.
  - destruct w as [hp hl [] cfg pos]. split; [exact Hw|constructor].
  - destruct w as [hp hl [] cfg pos]. split; [exact Hw|constructor].
  - destruct w as [hp hl [] cfg0 pos]. split; [exact Hw|constructor].
Qed.

Lemma run_ok MAX conv ops :
  0 ≤ MAX →
  ∀ w, Forall (channel_ok MAX) (heap w) →
       Forall (channel_ok MAX) (heap (run MAX conv ops w).1) ∧
       Forall event_ok (run MAX conv ops w).2.
Proof.
  intros HM. induction ops as [|o ops IH]; intros w Hw.
  - split; [exact Hw|constructor].
  - cbn [run]. unfold seq. cbn [fst snd].
    destruct (perform_ok MAX conv o w HM Hw) as [P1 P2].
    destruct (IH _ P1) as [IH1 IH2].
    split; [exact IH1|]. apply Forall_app. by split.
Qed.

(** X8. Whatever the application does with a mixer and its channels, every
    channel object keeps a rate of at least 0.001, a volume within
    0..kMixerVolumeMax, a pan within [0,1], and two gains in (0,1] of which
    one is 1. *)
Theorem channels_well_formed MAX conv cfg pos ops :
  0 ≤ MAX →
  Forall (channel_ok MAX) (heap (run MAX conv ops (new_world cfg pos)).1).
Proof.
  intros HM. apply run_ok; [exact HM|]. constructor.
Qed.

Lemma channels_well_formed_witness :
  0 ≤ 128 ∧
  Forall (channel_ok 128)
    (heap (run 128 no_conversion
             [OpPlay (Some sample_source) 0 false;
              OpCall 0%nat (CallSetRate (-3)); OpCall 0%nat (CallSetVolume 500);
              OpCall 0%nat (CallSetPan 7)]
             (new_world sample_config (λ _, 0%R))).1).
Proof.
  assert (0 ≤ 128) as H by lia.
  split; [exact H|]. apply channels_well_formed. exact H.
Defined.

(** X9. Every command that reaches the backend is well formed: a start
    command has a positive channel count and a positive frame count, start
    and update commands carry a rate of at least 0.001 and a pan within
    [0,1], and the restart flag of an update command is 0 or 1. *)
Theorem commands_well_formed MAX conv cfg pos ops :
  0 ≤ MAX →
  Forall event_ok (run MAX conv ops (new_world cfg pos)).2.
Proof.
  intros HM. apply run_ok; [exact HM|]. constructor.
Qed.

Lemma commands_well_formed_witness :
  0 ≤ 128 ∧
  Forall event_ok
    (run 128 no_conversion
       [OpPlay (Some sample_source) 0 false;
        OpCall 0%nat (CallSetRate (-3)); OpCall 0%nat (CallSetPan 7); OpTick]
       (new_world sample_config (λ _, 0%R))).2.
Proof.
  assert (0 ≤ 128) as H by lia.
  split; [exact H|]. apply commands_well_formed. exact H.
Defined.

(** ** The volume that reaches the backend *)

Lemma pow_unit (x y : R) : (0 <= x <= 1)%R → (0 < y)%R → (0 <= pow x y <= 1)%R.
Proof.
  intros Hx Hy. unfold pow.
  destruct (Req_dec_T x 0) as [_|Hx0].
  - destruct (Req_dec_T y 0); lra.
  - unfold Rpower. split; [left; apply exp_pos|].
    rewrite <- exp_0.
    assert (ln x <= 0)%R as Hln.
    { rewrite <- ln_1. destruct (Req_dec_T x 1) as [->|Hx1]; [lra|].
      left. apply ln_increasing; lra. }
    destruct (Req_dec_T (y * ln x) 0) as [->|Hne]; [lra|].
    left. apply exp_increasing.
    assert (0 <= y * - ln x)%R by (apply Rmult_le_pos; lra). lra.
Qed.

Lemma curve_unit (v : Z) : 0 ≤ v ≤ 100 → (0 <= pow (IZR v / 100) (10 / 6) <= 1)%R.
Proof.
  intros [H0 H1]. apply pow_unit; [|lra].
  apply IZR_le in H0, H1. lra.
Qed.

Lemma UpdateAdjustedSound_levels w : levels_ok w → levels_ok (UpdateAdjustedSound w).
Proof.
  destruct w as [hp hl [n v ss sm as_ am chs map srcs] cfg pos].
  unfold levels_ok, config_ok. cbn.
  intros ((Hs & Hm & Hv) & Hvol & Has & Ham).
  split; [tauto|]. split; [exact Hvol|].
  split; case_bool_decide; try assumption; by apply curve_unit.
Qed.

Lemma levels_same w w' :
  config w' = config w → _volume (mixer w') = _volume (mixer w) →
  _adjustSoundVolume (mixer w') = _adjustSoundVolume (mixer w) →
  _adjustMusicVolume (mixer w') = _adjustMusicVolume (mixer w) →
  levels_ok w → levels_ok w'.
Proof. unfold levels_ok. by intros -> -> -> ->. Qed.

Lemma product_unit (a b : R) : (0 <= a <= 1)%R → (0 <= b <= 1)%R → (0 <= a * b <= 1)%R.
Proof.
  intros Ha Hb. split; [apply Rmult_le_pos; lra|].
  replace 1%R with (1 * 1)%R by lra. apply Rmult_le_compat; lra.
Qed.

Lemma GetAdjustedVolume_range MAX w c :
  0 < MAX → levels_ok w → 0 ≤ c_volume c ≤ MAX →
  (0 <= GetAdjustedVolume MAX w c <= 1)%R ∧
  (titleSequence (config w) = true → c_group c = Sound →
   (GetAdjustedVolume MAX w c <= 0.75)%R).
Proof.
  intros HM ((Hs & Hm & Hv) & Hvol & Has & Ham) [Hc0 Hc1].
  unfold GetAdjustedVolume.
  set (master := if masterSoundEnabled (config w) then _ else _).
  assert (0 <= master <= 1)%R as Hmaster.
  { subst master. destruct (masterSoundEnabled _); [|lra].
    destruct Hv as [H0 H1]. apply IZR_le in H0, H1. lra. }
  pose proof (product_unit _ _ Hvol Hmaster) as Hvm.
  set (vm := (_volume (mixer w) * master)%R) in *.
  set (adjust := match c_group c with Sound => _ | _ => _ end).
  assert ((0 <= adjust <= 1)%R ∧
          (titleSequence (config w) = true → c_group c = Sound →
           (adjust <= 0.75)%R)) as [Hadj Hcap].
  { subst adjust. pose proof (product_unit _ _ Hvm Has) as HS.
    pose proof (product_unit _ _ Hvm Ham) as HMu.
    destruct (c_group c); (split; [|intros Ht Hg; try discriminate]).
    - destruct (titleSequence _); [|exact HS].
      split; [apply Rmin_glb; lra|].
      eapply Rle_trans; [apply Rmin_l|lra].
    - rewrite Ht. apply Rmin_r.
    - exact HMu.
    - exact HMu. }
  clearbody adjust. clear - HM Hc0 Hc1 Hadj Hcap.
  assert (0 < IZR MAX)%R as HMr by (by apply (IZR_lt 0)).
  apply IZR_le in Hc0, Hc1.
  set (a := IZR (c_volume c)) in *. set (M := IZR MAX) in *.
  assert (∀ k, (0 <= adjust <= k)%R → (0 <= a * adjust / M <= k)%R) as Hk.
  { intros k Hak. unfold Rdiv. split.
    - apply Rmult_le_pos; [apply Rmult_le_pos; lra|].
      left. by apply Rinv_0_lt_compat.
    - apply (Rmult_le_reg_r M); [exact HMr|].
      rewrite Rmult_assoc, Rinv_l by lra. rewrite Rmult_1_r.
      rewrite (Rmult_comm k M).
      apply Rmult_le_compat; lra. }
  split; [by apply Hk|].
  intros Ht Hg. apply Hk. split; [lra|by apply Hcap].
Qed.

Lemma UpdateChannel_levels MAX c restart w :
  0 < MAX → channel_ok MAX c → levels_ok w →
  levels_ok (UpdateChannel MAX c restart w).1 ∧
  Forall volume_ok (UpdateChannel MAX c restart w).2.
Proof.
  intros HM Hc Hw. rewrite UpdateChannel_world.
  pose proof (UpdateAdjustedSound_levels w Hw) as Hw1.
  destruct (c_done c) eqn:Hd.
  - rewrite UpdateChannel_done by exact Hd. split; [exact Hw|constructor].
  - split; [exact Hw1|].
    destruct (UpdateChannel_offset MAX c restart w Hd) as (s & -> & _).
    constructor; [|constructor]. cbn.
    apply GetAdjustedVolume_range; [exact HM|exact Hw1|apply Hc].
Qed.

Lemma stop_step_levels kept rest h c w :
  levels_ok w → levels_ok (stop_step kept rest h c w).
Proof. by destruct w as [hp hl [] cfg pos]. Qed.

Lemma Tick_loop_levels MAX (rest : list handle) :
  0 < MAX →
  ∀ kept w,
    Forall (channel_ok MAX) (heap w) → levels_ok w →
    let r := Tick_loop MAX kept rest w in
    levels_ok r.1 ∧ Forall volume_ok r.2.
Proof.
  intros HM.
  induction rest as [|h rest IH]; intros kept w Hw Hl; cbv zeta.
  - split; [exact Hl|constructor].
  - destruct (heap w !! h) as [c|] eqn:Hh.
    2: { rewrite Tick_loop_dangling by exact Hh. by apply IH. }
    pose proof (Forall_lookup_1 _ _ _ _ Hw Hh) as Hc.
    destruct (c_stopping c) eqn:Hs.
    + rewrite (Tick_loop_stopping MAX kept h rest w c Hh Hs). cbv zeta.
      destruct (IH kept (stop_step kept rest h c w)) as [IH1 IH2].
      { rewrite stop_step_heap. apply (Forall_ok_insert MAX _ h c); auto.
        by rewrite channel_ok_with_done. }
      { by apply stop_step_levels. }
      split; [exact IH1|]. cbn [fst snd].
      repeat (constructor; [exact I|]). exact IH2.
    + rewrite (Tick_loop_live MAX kept h rest w c Hh Hs). cbv zeta.
      cbn [fst snd].
      destruct (UpdateChannel_ok MAX c false w Hc) as [U1 _].
      destruct (UpdateChannel_levels MAX c false w HM Hc Hl) as [U3 U4].
      destruct (c_done c).
      * cbn [fst snd app]. by apply IH.
      * destruct (IH (kept ++ [h]) (UpdateChannel MAX c false w).1)
          as [IH1 IH2]; [by rewrite U1|exact U3|].
        split; [exact IH1|]. apply Forall_app. by split.
Qed.

Lemma call_levels MAX h k w :
  0 < MAX →
  Forall (channel_ok MAX) (heap w) → levels_ok w →
  let r := call h (method_of MAX k) w in
  levels_ok r.1 ∧ Forall volume_ok r.2.
Proof.
  intros HM Hw Hl. cbv zeta. unfold call.
  destruct (heap w !! h) as [c|] eqn:Hh; [|split; [exact Hl|constructor]].
  pose proof (Forall_lookup_1 _ _ _ _ Hw Hh) as Hc.
  assert (0 ≤ MAX) as HM0 by lia.
  pose proof (method_of_ok MAX k c HM0 Hc) as Hc'.
  destruct (method_of_shape MAX k c) as [_ Hstep].
  set (c' := (method_of MAX k c).1) in *.
  unfold seq, modify. cbn [fst snd app].
  set (w1 := set_heap (<[h:=c']> (heap w)) w).
  assert (levels_ok w1) as Hl1 by (subst w1; by destruct w).
  destruct Hstep as [->|[restart ->]].
  - split; [exact Hl1|constructor].
  - by apply UpdateChannel_levels.
Qed.

Lemma perform_levels MAX conv o w :
  0 < MAX → operation_ok o →
  Forall (channel_ok MAX) (heap w) → levels_ok w →
  levels_ok (perform MAX conv o w).1 ∧
  Forall volume_ok (perform MAX conv o w).2.
Proof.
  intros HM Ho Hw Hl.
  assert (∀ w0, Forall (channel_ok MAX) (heap w0) → levels_ok w0 →
                levels_ok (Tick MAX w0).1 ∧ Forall volume_ok (Tick MAX w0).2)
    as HTick.
  { intros w0 Hw0 Hl0. rewrite Tick_eq. cbv zeta.
    destruct (UpdateAdjustedSound_mixer w0) as (U1 & _).
    destruct (Tick_loop_levels MAX (_channels (mixer (UpdateAdjustedSound w0)))
                HM [] (UpdateAdjustedSound w0)) as [T1 T2];
      [by rewrite U1|by apply UpdateAdjustedSound_levels|].
    cbv zeta in T1, T2. cbn [fst snd]. split.
    - by destruct (Tick_loop MAX _ _ _).1 as [hp hl [] cfg pos].
    - constructor; [exact I|]. apply Forall_app. split; [exact T2|].
      repeat constructor. }
  destruct o as [source loop dod|v| |channelId| |source|h k|h|i|cfg];
    cbn [perform].
  - destruct (Play MAX conv source loop dod w) as [[h|] [w' tr]] eqn:HPlay.
    + destruct (Play_success _ _ _ _ _ _ _ _ _ HPlay)
        as (fmt & fl & n & fr & _ & _ & _ & _ & _ & Hcfg & _ & _ & _ & Hvol & _
            & _ & _ & Has & Ham & Htr).
      cbv zeta in Htr.
      pose proof (fresh_channel_ok MAX (_nextChannelId (mixer w)) source loop dod
                    fmt ltac:(lia)) as Hc.
      pose proof (UpdateAdjustedSound_levels w Hl) as Hl1.
      destruct (UpdateAdjustedSound_mixer w) as (_ & _ & U3 & _ & U5 & _).
      cbn [fst snd]. split.
      * apply (levels_same (UpdateAdjustedSound w)); try assumption; congruence.
      * rewrite Htr.
        repeat (constructor; [exact I|]).
        constructor; [|repeat constructor].
        cbn. apply GetAdjustedVolume_range; [exact HM|exact Hl1|apply Hc].
    + pose proof (Play_None MAX conv source loop dod w) as HN.
      rewrite HPlay in HN. cbn [fst snd] in HN. rewrite (HN eq_refl).
      split; [exact Hl|constructor].
  - rewrite SetVolume_eq. apply HTick.
    + by destruct w as [hp hl [] cfg pos].
    + destruct w as [hp hl [] cfg pos]. unfold levels_ok in *. cbn in *. tauto.
  - by apply HTick.
  - rewrite OnChannelEnded_eq.
    destruct (FindChannel w channelId) as [h|]; cbn [fst snd].
    + split; [|repeat constructor].
      destruct (call_levels MAX h (CallSetDone true) w HM Hw Hl) as [C1 _].
      cbv zeta in C1. unfold ended.
      cbn [method_of] in C1.
      by destruct (call h (SetDone true) w).1 as [hp hl [] cfg pos].
    + split; [exact Hl|repeat constructor].
  - rewrite Close_eq. cbn [fst snd]. split.
    + by destruct w as [hp hl [] cfg pos].
    + constructor; [exact I|]. apply Forall_app. split.
      * apply Forall_fmap, Forall_forall. intros h _. exact I.
      * repeat constructor.
  - destruct w as [hp hl [n v0 ss sm as_ am chs map srcs] cfg pos].
    destruct source; cbn; (split; [exact Hl|repeat constructor]).
  - case_bool_decide; [|split; [exact Hl|constructor]].
    by apply call_levels.
  - destruct w as [hp hl [] cfg pos]. split; [exact Hl|constructor].
  - destruct w as [hp hl [] cfg pos]. split; [exact Hl|constructor].
  - destruct w as [hp hl [] cfg0 pos]. split; [|constructor].
    unfold levels_ok in *. cbn in *. tauto.
Qed.

Lemma levels_new cfg pos : config_ok cfg → levels_ok (new_world cfg pos).
Proof. intros H. unfold levels_ok. cbn. split; [exact H|]. lra. Qed.

(** X10. When the volume settings are within 0..100 and the master scalar
    given to [SetVolume] is within [0,1], every volume that reaches the
    backend, in a start or in an update command, is within [0,1]. *)
Theorem volume_in_range MAX conv cfg pos ops :
  0 < MAX → config_ok cfg → Forall operation_ok ops →
  Forall volume_ok (run MAX conv ops (new_world cfg pos)).2.
Proof.
  intros HM Hcfg Hops.
  assert (∀ w, Forall (channel_ok MAX) (heap w) → levels_ok w →
               Forall volume_ok (run MAX conv ops w).2) as H.
  { induction Hops as [|o ops Ho Hops IH]; intros w Hw Hl; [constructor|].
    cbn [run]. unfold seq. cbn [fst snd].
    destruct (perform_ok MAX conv o w ltac:(lia) Hw) as [P1 _].
    destruct (perform_levels MAX conv o w HM Ho Hw Hl) as [P2 P3].
    apply Forall_app. split; [exact P3|by apply IH]. }
  apply H; [constructor|by apply levels_new].
Qed.

Lemma volume_in_range_witness :
  Forall volume_ok
    (run 128 no_conversion
       [OpPlay (Some sample_source) 0 false; OpSetVolume (1/2);
        OpCall 0%nat (CallSetVolume 500); OpTick]
       (new_world sample_config (λ _, 0%R))).2.
Proof.
  apply volume_in_range.
  - lia.
  - unfold config_ok, sample_config. cbn. lia.
  - repeat constructor; cbn; lra.
Defined.

(** ** The commands of a Tick *)

Lemma commands_app tr1 tr2 :
  commands (tr1 ++ tr2) = commands tr1 ++ commands tr2.
Proof. apply omap_app. Qed.

Lemma commands_cons e tr :
  commands (e :: tr)
  = match e with Backend c => c :: commands tr | _ => commands tr end.
Proof. by destruct e. Qed.

Lemma UpdateAdjustedSound_settled w : settled (UpdateAdjustedSound w).
Proof.
  destruct w as [hp hl [n v ss sm as_ am chs map srcs] cfg pos].
  unfold settled. cbn.
  split; case_bool_decide as H; try reflexivity; first [exact H|by apply dec_stable in H].
Qed.

Lemma settled_fixed w : settled w → UpdateAdjustedSound w = w.
Proof.
  destruct w as [hp hl [n v ss sm as_ am chs map srcs] cfg pos].
  unfold settled. cbn. intros [-> ->].
  rewrite !bool_decide_eq_false_2 by (intros H; by apply H). reflexivity.
Qed.

Lemma GetAdjustedVolume_ext MAX w w' c :
  config w' = config w → _volume (mixer w') = _volume (mixer w) →
  _adjustSoundVolume (mixer w') = _adjustSoundVolume (mixer w) →
  _adjustMusicVolume (mixer w') = _adjustMusicVolume (mixer w) →
  GetAdjustedVolume MAX w' c = GetAdjustedVolume MAX w c.
Proof. unfold GetAdjustedVolume. by intros -> -> -> ->. Qed.

Lemma UpdateChannel_settled MAX c restart w :
  settled w → c_done c = false →
  UpdateChannel MAX c restart w =
  (w, [Backend (WebAudioUpdateChannel (c_channelId c) (c_rate c)
                  (GetAdjustedVolume MAX w c) (c_pan c)
                  (if 0 <? GetBytesPerSecond (c_format c)
                   then fdiv (c_offsetBytes c) (GetBytesPerSecond (c_format c))
                   else Finite 0)
                  (if restart then 1 else 0))]).
Proof.
  intros Hs Hd. unfold UpdateChannel. rewrite Hd, (settled_fixed w Hs).
  reflexivity.
Qed.

Lemma stops_only_stop kept rest h c w0 w' :
  stops_only w0 w' → heap w' !! h = Some c → c_stopping c = true →
  stops_only w0 (stop_step kept rest h c w').
Proof.
  intros (Hs & Hc & Hv & Has & Ham & Hheap) Hh Hst.
  assert (∀ h', heap (stop_step kept rest h c w') !! h'
                = if decide (h = h') then Some (with_done true c)
                  else heap w' !! h') as Hlook.
  { intros h'. rewrite stop_step_heap. destruct (decide (h = h')) as [<-|Hne].
    - apply list_lookup_insert_eq. by apply lookup_lt_Some in Hh.
    - by apply list_lookup_insert_ne. }
  split_and!.
  - by destruct w' as [hp hl [] cfg pos].
  - by destruct w' as [hp hl [] cfg pos].
  - by destruct w' as [hp hl [] cfg pos].
  - by destruct w' as [hp hl [] cfg pos].
  - by destruct w' as [hp hl [] cfg pos].
  - intros h'. rewrite Hlook. destruct (decide (h = h')) as [<-|Hne]; [|apply Hheap].
    right. destruct (Hheap h) as [E|(c0 & E0 & S0 & E)].
    + exists c. by rewrite <- E.
    + exists c0. rewrite Hh in E. injection E as ->.
      split; [exact E0|]. split; [exact S0|]. by destruct c0.
Qed.

Lemma Tick_loop_commands MAX w0 (rest : list handle) :
  settled w0 →
  ∀ kept w', stops_only w0 w' →
    commands (Tick_loop MAX kept rest w').2 = flat_map (Tick_commands MAX w0) rest.
Proof.
  intros Hs0. induction rest as [|h rest IH]; intros kept w' Hrel; [reflexivity|].
  cbn [flat_map].
  pose proof Hrel as (Hs & Hc & Hv & Has & Ham & Hheap).
  unfold Tick_commands at 1. rewrite (settled_fixed w0 Hs0).
  destruct (heap w' !! h) as [c|] eqn:Hh.
  2: { rewrite Tick_loop_dangling by exact Hh.
       destruct (Hheap h) as [E|(c0 & _ & _ & E)]; [|congruence].
       rewrite <- E, Hh. cbn [app]. by apply IH. }
  destruct (c_stopping c) eqn:Hst.
  - rewrite (Tick_loop_stopping MAX kept h rest w' c Hh Hst). cbv zeta.
    cbn [fst snd].
    rewrite 3!commands_cons.
    rewrite (IH kept _ (stops_only_stop kept rest h c w0 w' Hrel Hh Hst)).
    destruct (Hheap h) as [E|(c0 & E0 & S0 & E)].
    + rewrite <- E, Hh, Hst. reflexivity.
    + rewrite E0, S0. rewrite Hh in E. injection E as ->. by destruct c0.
  - rewrite (Tick_loop_live MAX kept h rest w' c Hh Hst). cbv zeta.
    cbn [fst snd]. rewrite commands_app.
    destruct (Hheap h) as [E|(c0 & E0 & S0 & E)].
    2: { rewrite Hh in E. injection E as ->. destruct c0. cbn in *. congruence. }
    rewrite <- E, Hh, Hst.
    destruct (c_done c) eqn:Hd.
    + cbn [fst snd commands omap app]. by apply IH.
    + rewrite (UpdateChannel_settled MAX c false w' Hs Hd). cbn [fst snd].
      rewrite commands_cons.
      rewrite (IH _ _ Hrel).
      rewrite (GetAdjustedVolume_ext MAX w0 w' c Hc Hv Has Ham).
      reflexivity.
Qed.

Lemma Tick_commands_eq MAX w :
  commands (Tick MAX w).2 = flat_map (Tick_commands MAX w) (_channels (mixer w)).
Proof.
  rewrite Tick_eq. cbv zeta. cbn [snd].
  pose proof (UpdateAdjustedSound_settled w) as Hs.
  destruct (UpdateAdjustedSound_mixer w) as (Hheap & _ & _ & _ & _ & Hch & _).
  cbv zeta in Hch. rewrite Hch.
  rewrite commands_cons, commands_app.
  change (commands [_; _]) with (@nil command).
  rewrite app_nil_r.
  rewrite (Tick_loop_commands MAX (UpdateAdjustedSound w) _ Hs).
  - apply flat_map_ext. intros h. unfold Tick_commands.
    rewrite Hheap, (settled_fixed _ Hs). reflexivity.
  - split; [exact Hs|]. split_and!; try reflexivity. intros h. by left.
Qed.

(** X11. The commands of a [Tick] are, channel by channel in the order of the
    live collection: a stop command for a channel that is stopping; nothing
    for one that is done; for any other an update command with the channel's
    rate and pan, its adjusted volume under the current settings, its start
    offset, and no restart.  The channels that are stopping are marked done
    and leave the live collection, the others stay in their order, and
    no other done flag changes. *)
Theorem Tick_sends MAX w :
  let r := Tick MAX w in
  commands r.2 = flat_map (Tick_commands MAX w) (_channels (mixer w)) ∧
  _channels (mixer r.1)
  = filter (λ h, stoppings w !! h ≠ Some true) (_channels (mixer w)) ∧
  (∀ h, dones r.1 !! h =
        if decide (h ∈ _channels (mixer w) ∧ stoppings w !! h = Some true)
        then Some true else dones w !! h).
Proof.
  cbv zeta.
  destruct (Tick_spec MAX w)
    as (_ & _ & Hdone & _ & _ & _ & _ & _ & _ & Hlive & _).
  split; [apply Tick_commands_eq|]. split; [exact Hlive|exact Hdone].
Qed.

(** ** Restarts *)

Lemma UpdateChannel_restarts MAX c w :
  List.filter restarts (commands (UpdateChannel MAX c false w).2) = [].
Proof.
  destruct (c_done c) eqn:Hd.
  - by rewrite UpdateChannel_done.
  - by destruct (UpdateChannel_offset MAX c false w Hd) as (s & -> & _).
Qed.

Lemma Tick_restarts MAX w :
  List.filter restarts (commands (Tick MAX w).2) = [].
Proof.
  rewrite Tick_commands_eq.
  induction (_channels (mixer w)) as [|h l IH]; [reflexivity|].
  cbn [flat_map]. rewrite List.filter_app, IH, app_nil_r.
  unfold Tick_commands. destruct (heap w !! h) as [c|]; [|reflexivity].
  destruct (c_stopping c); [reflexivity|]. by destruct (c_done c).
Qed.

Lemma method_of_no_restart MAX (k : channel_call) (c : WebAudioChannel) :
  (∀ offset, k ≠ CallSetOffset offset) →
  let r := method_of MAX k c in
  r.2 = skip ∨ r.2 = UpdateChannel MAX r.1 false.
Proof.
  intros Hk. destruct k; cbn; auto. by destruct (Hk offset).
Qed.

Lemma perform_restarts MAX conv o w :
  (length (List.filter restarts (commands (perform MAX conv o w).2))
   ≤ if is_SetOffset o then 1 else 0)%nat.
Proof.
  destruct o as [source loop dod|v| |channelId| |source|h k|h|i|cfg];
    cbn [perform is_SetOffset].
  - destruct (Play MAX conv source loop dod w) as [[h|] [w' tr]] eqn:HPlay.
    + destruct (Play_success _ _ _ _ _ _ _ _ _ HPlay)
        as (fmt & fl & n & fr & _ & _ & _ & _ & _ & _ & _ & _ & _ & _ & _
            & _ & _ & _ & _ & Htr).
      cbv zeta in Htr. cbn [snd]. rewrite Htr. cbn. lia.
    + pose proof (Play_None MAX conv source loop dod w) as HN.
      rewrite HPlay in HN. cbn [fst snd] in HN. rewrite (HN eq_refl).
      cbn. lia.
  - rewrite SetVolume_eq, Tick_restarts. cbn. lia.
  - rewrite Tick_restarts. cbn. lia.
  - rewrite OnChannelEnded_eq. destruct (FindChannel w channelId); cbn; lia.
  - rewrite Close_eq. cbn [snd]. rewrite commands_cons, commands_app.
    rewrite List.filter_app.
    induction (_channels (mixer w)) as [|h l IH]; [cbn; lia|].
    rewrite fmap_cons, commands_cons. exact IH.
  - destruct w as [hp hl [n v0 ss sm as_ am chs map srcs] cfg pos].
    destruct source; cbn; lia.
  - case_bool_decide; [|cbn; destruct k; lia].
    destruct (call_view MAX h k w)
      as (_ & _ & _ & _ & _ & _ & _ & _ & _ & _ & _ & _ & Htr).
    cbv zeta in Htr.
    assert ((∃ offset, k = CallSetOffset offset) ∨
            (∀ offset, k ≠ CallSetOffset offset)) as [[offset ->]|Hk].
    { destruct k; eauto. }
    + destruct Htr as [->|(c & r & v & p & off & fl & _ & _ & ->)].
      * cbn. lia.
      * cbn. destruct (negb _); cbn; lia.
    + replace (match k with CallSetOffset _ => 1%nat | _ => 0%nat end)
        with 0%nat by (destruct k; try reflexivity; by destruct (Hk offset)).
      unfold call. destruct (heap w !! h) as [c|]; [|cbn; lia].
      unfold seq, modify. cbn [fst snd app].
      destruct (method_of_no_restart MAX k c Hk) as [->| ->].
      * cbn. lia.
      * rewrite UpdateChannel_restarts. cbn. lia.
  - destruct w as [hp hl [] cfg pos]. cbn. lia.
  - destruct w as [hp hl [] cfg pos]. cbn. lia.
  - destruct w as [hp hl [] cfg0 pos]. cbn. lia.
Qed.

(** X12. Only [SetOffset] makes the backend start a sound anew: in any
    sequence of operations, from any state, the update commands that carry
    the restart flag are at most as many as the calls of [SetOffset].  A
    [Tick], a change of the master volume and the other setters send none. *)
Theorem restarts_only_by_SetOffset MAX conv ops w :
  (length (List.filter restarts (commands (run MAX conv ops w).2))
   ≤ length (List.filter is_SetOffset ops))%nat.
Proof.
  revert w. induction ops as [|o ops IH]; intros w; [cbn; lia|].
  cbn [run]. unfold seq. cbn [fst snd].
  rewrite commands_app, List.filter_app, length_app.
  pose proof (perform_restarts MAX conv o w) as Ho.
  pose proof (IH (perform MAX conv o w).1) as Hr.
  cbn [List.filter]. destruct (is_SetOffset o); cbn [length]; lia.
Qed.

(** X13. [SetOffset] on a channel whose format has a byte rate other than 0
    returns true and stores the offset.  If the channel is not done the
    backend gets one update command that carries the restart flag and the
    offset in seconds, offset / bytesPerSecond; if it is done nothing is
    sent. *)
Theorem SetOffset_restarts MAX h offset w c :
  heap w !! h = Some c →
  0 < GetBytesPerSecond (c_format c) →
  let r := call h (method_of MAX (CallSetOffset offset)) w in
  (SetOffset MAX offset c).1 = true ∧
  heap r.1 !! h = Some (with_offsetBytes offset c) ∧
  (∀ h', h' ≠ h → heap r.1 !! h' = heap w !! h') ∧
  commands r.2 =
    if c_done c then []
    else [WebAudioUpdateChannel (c_channelId c) (c_rate c)
            (GetAdjustedVolume MAX (UpdateAdjustedSound w) c) (c_pan c)
            (Finite (IZR offset / IZR (GetBytesPerSecond (c_format c)))) 1].
Proof.
  intros Hh Hbps. cbv zeta.
  destruct (call_view MAX h (CallSetOffset offset) w)
    as (_ & _ & _ & _ & _ & _ & _ & _ & _ & _ & Hother & Hthis & _).
  cbv zeta in Hother, Hthis.
  assert ((GetBytesPerSecond (c_format c) =? 0) = false) as Hz by lia.
  assert (SetOffset MAX offset c
          = (true, (with_offsetBytes offset c,
                    UpdateChannel MAX (with_offsetBytes offset c) true))) as HS.
  { unfold SetOffset. rewrite Hz. reflexivity. }
  split_and!.
  - by rewrite HS.
  - rewrite (Hthis c Hh). cbn [method_of]. by rewrite HS.
  - exact Hother.
  - unfold call. rewrite Hh. cbn [method_of]. rewrite HS.
    unfold seq, modify. cbn [fst snd app].
    set (w1 := set_heap _ w).
    unfold UpdateChannel.
    replace (c_done (with_offsetBytes offset c)) with (c_done c) by (by destruct c).
    destruct (c_done c); [reflexivity|]. cbn [snd].
    replace (c_format (with_offsetBytes offset c)) with (c_format c)
      by (by destruct c).
    replace (c_offsetBytes (with_offsetBytes offset c)) with offset
      by (by destruct c).
    assert ((0 <? GetBytesPerSecond (c_format c)) = true) as -> by lia.
    unfold fdiv. rewrite Hz.
    replace (UpdateAdjustedSound w1)
      with (set_heap (<[h:=with_offsetBytes offset c]> (heap w))
              (UpdateAdjustedSound w))
      by (subst w1; by destruct w as [hp hl [] cfg pos]).
    destruct c, w as [hp hl [] cfg pos]. reflexivity.
Qed.

Lemma SetOffset_restarts_witness :
  let w := mkWorld [sample_channel] [0%nat] mixer_fields sample_config (λ _, 0%R) in
  (SetOffset 128 4 sample_channel).1 = true ∧
  heap (call 0%nat (method_of 128 (CallSetOffset 4)) w).1 !! 0%nat
  = Some (with_offsetBytes 4 sample_channel).
Proof.
  cbv zeta.
  assert (0 < GetBytesPerSecond (c_format sample_channel)) as Hbps
    by (vm_compute; reflexivity).
  destruct (SetOffset_restarts 128 0%nat 4
              (mkWorld [sample_channel] [0%nat] mixer_fields sample_config
                 (λ _, 0%R))
              sample_channel eq_refl Hbps) as (H1 & H2 & _).
  split; [exact H1|exact H2].
Defined.

(** ** The end of a sound *)

Lemma coherent_FindChannel w id :
  coherent w → FindChannel w id = _channelMap (mixer w) !! id.
Proof.
  intros [_ _ Hreg]. unfold FindChannel.
  destruct (_channelMap (mixer w) !! id) as [h|] eqn:E; [|reflexivity].
  destruct (Hreg id h E) as [Hh _]. unfold expired.
  rewrite bool_decide_eq_true_2 by (by left). reflexivity.
Qed.

(** X14. In every state that a new mixer reaches, whatever the number of
    channels played, the weak reference of a registry entry can be locked:
    [FindChannel] finds what the registry holds.  [OnChannelEnded] then
    sends nothing to the backend and leaves no entry for the identifier; the
    channel it found was live, is marked done and is no longer live, and the
    channels that stay live are the live channels with another identifier;
    for an identifier without an entry it changes nothing. *)
Theorem OnChannelEnded_removes MAX conv cfg pos ops id :
  let w := (run MAX conv ops (new_world cfg pos)).1 in
  let r := OnChannelEnded id w in
  FindChannel w id = _channelMap (mixer w) !! id ∧
  _channelMap (mixer r.1) = delete id (_channelMap (mixer w)) ∧
  FindChannel r.1 id = None ∧
  (∀ h, FindChannel w id = Some h →
        h ∈ _channels (mixer w) ∧ id_of w h = id ∧
        (h ∉ _channels (mixer r.1)) ∧ dones r.1 !! h = Some true ∧
        ∀ h', h' ∈ _channels (mixer r.1)
              ↔ h' ∈ _channels (mixer w) ∧ id_of w h' ≠ id) ∧
  (FindChannel w id = None → r.1 = w) ∧
  commands r.2 = [].
Proof.
  intros w.
  pose proof (coherent_run MAX conv ops _ (coherent_new cfg pos)) as Hco.
  fold w in Hco. clearbody w. cbv zeta.
  pose proof (coherent_FindChannel w id Hco) as Hfind.
  rewrite OnChannelEnded_eq in *.
  destruct (FindChannel w id) as [h|] eqn:E; cbn [fst snd] in *.
  - destruct (ended_view id h w)
      as (Hids & _ & Hdone & _ & _ & _ & _ & _ & _ & Hch & Hmap).
    cbv zeta in *.
    destruct Hco as [Hnd Hal Hreg].
    destruct (Hreg id h (eq_sym Hfind)) as [Hlive Hid].
    assert (∀ h', h' ∈ _channels (mixer (ended id h w))
                  ↔ h' ∈ _channels (mixer w) ∧ id_of w h' ≠ id) as Hiff.
    { intros h'. rewrite Hch, list_elem_of_filter, id_of_ids. tauto. }
    split_and!.
    + exact Hfind.
    + exact Hmap.
    + unfold FindChannel. rewrite Hmap, lookup_delete_eq. reflexivity.
    + intros h' [= <-]. split; [exact Hlive|].
      split; [by rewrite id_of_ids, Hid|]. split; [|split; [|exact Hiff]].
      * rewrite Hiff, id_of_ids, Hid. cbn. intros [_ Hne]. by apply Hne.
      * rewrite Hdone. apply decide_True. split; [reflexivity|].
        rewrite <- ids_length. by apply Hal.
    + discriminate.
    + reflexivity.
  - split_and!.
    + exact Hfind.
    + symmetry. apply delete_id. by rewrite <- Hfind.
    + exact E.
    + discriminate.
    + reflexivity.
    + reflexivity.
Qed.

(** ** What the mixer stores and never reads *)

Lemma inert_fields c c' :
  inert c = inert c' →
  c_channelId c = c_channelId c' ∧ c_format c = c_format c' ∧
  c_offsetBytes c = c_offsetBytes c' ∧ c_group c = c_group c' ∧
  c_rate c = c_rate c' ∧ c_volume c = c_volume c' ∧ c_pan c = c_pan c' ∧
  c_stopping c = c_stopping c' ∧ c_done c = c_done c'.
Proof.
  destruct c, c'. unfold inert. cbn. intros [=]. by subst.
Qed.

Lemma alike_refl w : alike w w.
Proof. by split_and!. Qed.

Lemma alike_lookup w w' h :
  alike w w' →
  match heap w !! h, heap w' !! h with
  | Some c, Some c' => inert c = inert c'
  | None, None => True
  | _, _ => False
  end.
Proof.
  intros (_ & _ & _ & _ & Hheap).
  apply (f_equal (λ l, l !! h)) in Hheap. rewrite !list_lookup_fmap in Hheap.
  destruct (heap w !! h), (heap w' !! h); cbn in Hheap; try discriminate; auto.
  by injection Hheap.
Qed.

Lemma alike_ids w w' : alike w w' → ids w = ids w'.
Proof.
  intros (_ & _ & _ & _ & Hheap). unfold ids.
  apply (f_equal (fmap c_channelId)) in Hheap.
  rewrite <- !list_fmap_compose in Hheap.
  etrans; [|etrans; [exact Hheap|]]; apply list_fmap_ext; by intros ? [].
Qed.

Lemma alike_insert w w' h c c' :
  alike w w' → inert c = inert c' →
  alike (set_heap (<[h := c]> (heap w)) w) (set_heap (<[h := c']> (heap w')) w').
Proof.
  intros (Hm & Hh & Hc & Hp & Hheap) Hcc.
  destruct w as [hp hl m cfg pos], w' as [hp' hl' m' cfg' pos']. cbn in *.
  split_and!; try assumption. cbn.
  by rewrite !list_fmap_insert, Hheap, Hcc.
Qed.

Lemma UpdateChannel_alike MAX c c' restart w w' :
  alike w w' → inert c = inert c' →
  (UpdateChannel MAX c restart w).2 = (UpdateChannel MAX c' restart w').2 ∧
  alike (UpdateChannel MAX c restart w).1 (UpdateChannel MAX c' restart w').1.
Proof.
  intros Hw Hcc.
  destruct (inert_fields c c' Hcc) as (Hi & Hf & Ho & Hg & Hr & Hv & Hp & _ & Hd).
  pose proof Hw as (Hm & Hh & Hc & Hpos & Hheap).
  unfold UpdateChannel. rewrite <- Hd. destruct (c_done c); [by split|].
  cbn [fst snd].
  assert (alike (UpdateAdjustedSound w) (UpdateAdjustedSound w')) as Hw1.
  { destruct w as [hp hl m cfg pos], w' as [hp' hl' m' cfg' pos']. cbn in *.
    subst. split_and!; try reflexivity. exact Hheap. }
  split; [|exact Hw1].
  rewrite <- Hi, <- Hf, <- Ho, <- Hr, <- Hp.
  do 3 f_equal.
  destruct Hw1 as (Hm1 & _ & Hc1 & _).
  unfold GetAdjustedVolume. by rewrite <- Hm1, <- Hc1, <- Hg, <- Hv.
Qed.

Lemma stop_step_alike kept rest h c c' w w' :
  alike w w' → inert c = inert c' →
  alike (stop_step kept rest h c w) (stop_step kept rest h c' w').
Proof.
  intros Hw Hcc.
  destruct (inert_fields c c' Hcc) as (Hi & _).
  assert (inert (with_done true c) = inert (with_done true c')) as Hd.
  { destruct c, c'. unfold inert in *. cbn in *. injection Hcc; intros; by subst. }
  pose proof (alike_insert w w' h _ _ Hw Hd) as (Hm & Hh & Hc & Hp & Hheap).
  unfold stop_step. rewrite Hi.
  destruct Hw as (Hm0 & _).
  destruct w as [hp hl m cfg pos], w' as [hp' hl' m' cfg' pos']. cbn in *.
  subst. split_and!; try reflexivity. exact Hheap.
Qed.

Lemma Tick_loop_alike MAX (rest : list handle) :
  ∀ kept w w', alike w w' →
    (Tick_loop MAX kept rest w).2 = (Tick_loop MAX kept rest w').2 ∧
    alike (Tick_loop MAX kept rest w).1 (Tick_loop MAX kept rest w').1.
Proof.
  induction rest as [|h rest IH]; intros kept w w' Hw; [by split|].
  pose proof (alike_lookup w w' h Hw) as Hl.
  destruct (heap w !! h) as [c|] eqn:E, (heap w' !! h) as [c'|] eqn:E';
    try contradiction.
  2: { rewrite !Tick_loop_dangling by assumption. by apply IH. }
  destruct (inert_fields c c' Hl) as (Hi & _ & _ & _ & _ & _ & _ & Hs & Hd).
  destruct (c_stopping c) eqn:Hst.
  - rewrite (Tick_loop_stopping MAX kept h rest w c E Hst).
    rewrite (Tick_loop_stopping MAX kept h rest w' c' E') by congruence.
    cbv zeta. cbn [fst snd].
    destruct (IH kept _ _ (stop_step_alike kept rest h c c' w w' Hw Hl))
      as [IH1 IH2].
    split; [by rewrite Hi, IH1|exact IH2].
  - rewrite (Tick_loop_live MAX kept h rest w c E Hst).
    rewrite (Tick_loop_live MAX kept h rest w' c' E') by congruence.
    cbv zeta. cbn [fst snd]. rewrite <- Hd.
    destruct (UpdateChannel_alike MAX c c' false w w' Hw Hl) as [U1 U2].
    destruct (c_done c).
    + cbn [fst snd app]. by apply IH.
    + destruct (IH (kept ++ [h]) _ _ U2) as [IH1 IH2].
      split; [by rewrite U1, IH1|exact IH2].
Qed.

Lemma Tick_alike MAX w w' :
  alike w w' →
  (Tick MAX w).2 = (Tick MAX w').2 ∧ alike (Tick MAX w).1 (Tick MAX w').1.
Proof.
  intros Hw. rewrite !Tick_eq. cbv zeta. cbn [fst snd].
  assert (alike (UpdateAdjustedSound w) (UpdateAdjustedSound w')) as Hw1.
  { destruct Hw as (Hm & Hh & Hc & Hp & Hheap).
    destruct w as [hp hl m cfg pos], w' as [hp' hl' m' cfg' pos']. cbn in *.
    subst. split_and!; try reflexivity. exact Hheap. }
  pose proof Hw1 as (Hm1 & _).
  rewrite <- Hm1.
  destruct (Tick_loop_alike MAX (_channels (mixer (UpdateAdjustedSound w))) []
              _ _ Hw1) as [T1 T2].
  split; [by rewrite T1|].
  destruct T2 as (Hm & Hh & Hc & Hp & Hheap).
  destruct (Tick_loop MAX _ _ (UpdateAdjustedSound w)).1 as [hp hl m cfg pos].
  destruct (Tick_loop MAX _ _ (UpdateAdjustedSound w')).1 as [hp' hl' m' cfg' pos'].
  cbn in *. subst. split_and!; try reflexivity. exact Hheap.
Qed.

Lemma call_alike h (f f' : method) w w' :
  alike w w' →
  (∀ c c', inert c = inert c' →
     inert (f c).1 = inert (f' c').1 ∧
     ∀ v v', alike v v' →
       ((f c).2 v).2 = ((f' c').2 v').2 ∧ alike ((f c).2 v).1 ((f' c').2 v').1) →
  (call h f w).2 = (call h f' w').2 ∧ alike (call h f w).1 (call h f' w').1.
Proof.
  intros Hw Hf. unfold call.
  pose proof (alike_lookup w w' h Hw) as Hl.
  destruct (heap w !! h) as [c|], (heap w' !! h) as [c'|]; try contradiction;
    [|by split].
  destruct (Hf c c' Hl) as [H1 H2].
  unfold seq, modify. cbn [fst snd app].
  apply H2. by apply alike_insert.
Qed.

Lemma method_alike MAX (k : channel_call) c c' :
  inert c = inert c' →
  inert (method_of MAX k c).1 = inert (method_of MAX k c').1 ∧
  ∀ v v', alike v v' →
    ((method_of MAX k c).2 v).2 = ((method_of MAX k c').2 v').2 ∧
    alike ((method_of MAX k c).2 v).1 ((method_of MAX k c').2 v').1.
Proof.
  intros Hcc.
  pose proof (inert_fields c c' Hcc) as (_ & Hf & _).
  destruct k; cbn [method_of];
    unfold SetGroup, SetRate, SetOffset, SetLoop, Channel_SetVolume, SetPan,
      SetStopping, SetDone, SetDeleteOnDone, Channel_Play, Stop, SetStopping,
      UpdateOldVolume;
    cbv beta zeta; rewrite <- ?Hf;
    try destruct (GetBytesPerSecond (c_format c) =? 0);
    cbn [fst snd].
  all: split;
    [ clear Hf; destruct c, c'; unfold inert in *; cbn in *;
      injection Hcc; intros; subst; reflexivity
    | intros v v' Hvv; try (by split) ].
  all: apply UpdateChannel_alike; [exact Hvv|].
  all: clear Hf; destruct c, c'; unfold inert in *; cbn in *;
    injection Hcc; intros; subst; reflexivity.
Qed.

Lemma mixer_eq (m m' : WebAudioMixer) :
  _nextChannelId m = _nextChannelId m' → _volume m = _volume m' →
  _settingSoundVolume m = _settingSoundVolume m' →
  _settingMusicVolume m = _settingMusicVolume m' →
  _adjustSoundVolume m = _adjustSoundVolume m' →
  _adjustMusicVolume m = _adjustMusicVolume m' →
  _channels m = _channels m' → _channelMap m = _channelMap m' →
  _sources m = _sources m' → m = m'.
Proof. destruct m, m'. cbn. by intros -> -> -> -> -> -> -> -> ->. Qed.

Lemma fresh_channel_inert MAX channelId source loop deleteondone fmt :
  inert (fresh_channel MAX channelId source loop deleteondone fmt)
  = inert (fresh_channel MAX channelId source loop false fmt).
Proof. reflexivity. Qed.

Lemma Play_alike MAX conv source loop deleteondone w w' :
  alike w w' →
  let r := Play MAX conv source loop deleteondone w in
  let r' := Play MAX conv source loop false w' in
  r.1 = r'.1 ∧ r.2.2 = r'.2.2 ∧ alike r.2.1 r'.2.1.
Proof.
  intros Hw. cbv zeta.
  destruct source as [[sdl|]|]; try (by split_and!).
  rewrite !Play_SDL.
  destruct (converted conv sdl) as [[fmt pcm]|]; [|by split_and!].
  cbv zeta. destruct (channels fmt <=? 0); [by split_and!|].
  destruct (wrap32 _ <=? 0); [by split_and!|].
  cbn [fst snd].
  set (fl := ConvertToFloat fmt pcm).
  set (fr := wrap32 _).
  set (source := Some (IsSDLAudioSource sdl)).
  pose proof (Play_locked_world MAX source loop deleteondone fmt fl (channels fmt) fr w)
    as (A1 & A2 & A3 & A4 & A5 & A6 & A7 & A8 & A9 & A10 & A11 & A12 & A13).
  pose proof (Play_locked_world MAX source loop false fmt fl (channels fmt) fr w')
    as (B1 & B2 & B3 & B4 & B5 & B6 & B7 & B8 & B9 & B10 & B11 & B12 & B13).
  pose proof (Play_locked_trace MAX source loop deleteondone fmt fl (channels fmt) fr w)
    as AT.
  pose proof (Play_locked_trace MAX source loop false fmt fl (channels fmt) fr w')
    as BT.
  cbv zeta in *.
  pose proof Hw as (Hm & Hh & Hc & Hp & Hheap).
  assert (length (heap w) = length (heap w')) as Hlen.
  { apply (f_equal length) in Hheap. by rewrite !length_fmap in Hheap. }
  assert (alike (UpdateAdjustedSound w) (UpdateAdjustedSound w')) as Hw1.
  { destruct w as [hp hl m cfg pos], w' as [hp' hl' m' cfg' pos']. cbn in *.
    subst. split_and!; try reflexivity. exact Hheap. }
  destruct Hw1 as (Hm1 & _ & Hc1 & _).
  pose proof (fresh_channel_inert MAX (_nextChannelId (mixer w)) source loop
                deleteondone fmt) as Hfresh.
  destruct (inert_fields _ _ Hfresh) as (Hi & Hf & Ho & Hg & Hr & Hv & Hpan & _).
  rewrite <- Hm in BT, B2.
  assert (GetAdjustedVolume MAX (UpdateAdjustedSound w)
            (fresh_channel MAX (_nextChannelId (mixer w)) source loop
               deleteondone fmt)
          = GetAdjustedVolume MAX (UpdateAdjustedSound w')
              (fresh_channel MAX (_nextChannelId (mixer w)) source loop
                 false fmt)) as Hgav.
  { unfold GetAdjustedVolume. by rewrite <- Hm1, <- Hc1, Hg, Hv. }
  split_and!.
  - by rewrite A1, B1, Hlen.
  - by rewrite AT, BT, Hr, Hpan, Ho, Hgav.
  - split_and!.
    + apply mixer_eq; congruence.
    + congruence.
    + congruence.
    + destruct w as [hp hl m cfg pos], w' as [hp' hl' m' cfg' pos'].
      cbn in *. by subst.
    + rewrite A2, B2, !fmap_app, Hheap. cbn [fmap list_fmap].
      by rewrite Hfresh.
Qed.

Lemma ended_alike channelId h w w' :
  alike w w' → alike (ended channelId h w) (ended channelId h w').
Proof.
  intros Hw.
  destruct (call_alike h (SetDone true) (SetDone true) w w' Hw) as [_ Hw1].
  { intros c c' Hcc. split; [|by intros v v' Hvv; split].
    destruct c, c'. unfold inert in *. cbn in *.
    injection Hcc; intros; by subst. }
  unfold ended.
  set (w1 := (call h (SetDone true) w).1) in *.
  set (w1' := (call h (SetDone true) w').1) in *.
  clearbody w1 w1'.
  pose proof (alike_ids w1 w1' Hw1) as Hids.
  destruct Hw1 as (Hm & Hh & Hc & Hp & Hheap).
  assert (filter (λ e, id_of w1 e ≠ channelId) (_channels (mixer w1))
          = filter (λ e, id_of w1' e ≠ channelId) (_channels (mixer w1'))) as Hf.
  { rewrite <- Hm. apply list_filter_iff. intros e. by rewrite !id_of_ids, Hids. }
  rewrite Hf, <- Hm.
  destruct w1 as [hp hl m cfg pos], w1' as [hp' hl' m' cfg' pos']. cbn in *.
  subst. split_and!; try reflexivity. exact Hheap.
Qed.

Lemma perform_alike MAX conv o w w' :
  alike w w' →
  (perform MAX conv o w).2 = (run MAX conv (forget o) w').2 ∧
  alike (perform MAX conv o w).1 (run MAX conv (forget o) w').1.
Proof.
  intros Hw.
  assert (∀ o', (perform MAX conv o w).2 = (perform MAX conv o' w').2 ∧
                alike (perform MAX conv o w).1 (perform MAX conv o' w').1 →
                (perform MAX conv o w).2 = (run MAX conv [o'] w').2 ∧
                alike (perform MAX conv o w).1 (run MAX conv [o'] w').1) as Hone.
  { intros o' [H1 H2]. cbn [run]. unfold seq, skip. cbn [fst snd].
    rewrite app_nil_r. by split. }
  pose proof Hw as (Hm & Hh & Hc & Hp & Hheap).
  destruct o as [source loop dod|v| |channelId| |source|h k|h|i|cfg];
    cbn [forget].
  - apply Hone. cbn [perform].
    destruct (Play_alike MAX conv source loop dod w w' Hw) as (_ & P2 & P3).
    by split.
  - apply Hone. cbn [perform]. rewrite !SetVolume_eq. apply Tick_alike.
    destruct w as [hp hl m cfg pos], w' as [hp' hl' m' cfg' pos']. cbn in *.
    subst. split_and!; try reflexivity. exact Hheap.
  - apply Hone. cbn [perform]. by apply Tick_alike.
  - apply Hone. cbn [perform]. rewrite !OnChannelEnded_eq.
    replace (FindChannel w' channelId) with (FindChannel w channelId)
      by (unfold FindChannel, expired; by rewrite Hm, Hh).
    destruct (FindChannel w channelId) as [h|]; cbn [fst snd]; [|by split].
    split; [reflexivity|by apply ended_alike].
  - apply Hone. cbn [perform]. rewrite !Close_eq. cbn [fst snd].
    split.
    + rewrite <- Hm. do 2 f_equal. apply list_fmap_ext. intros _ h _.
      by rewrite !id_of_ids, (alike_ids w w' Hw).
    + destruct w as [hp hl m cfg pos], w' as [hp' hl' m' cfg' pos']. cbn in *.
      subst. split_and!; try reflexivity. exact Hheap.
  - apply Hone. cbn [perform].
    destruct w as [hp hl m cfg pos], w' as [hp' hl' m' cfg' pos']. cbn in *.
    subst. destruct source, m'; cbn; (split; [reflexivity|]);
      (split_and!; try reflexivity; exact Hheap).
  - assert (∀ k', (∀ c c', inert c = inert c' →
                inert (method_of MAX k c).1 = inert (method_of MAX k' c').1 ∧
                ∀ v v', alike v v' →
                  ((method_of MAX k c).2 v).2 = ((method_of MAX k' c').2 v').2 ∧
                  alike ((method_of MAX k c).2 v).1 ((method_of MAX k' c').2 v').1) →
              (perform MAX conv (OpCall h k) w).2
              = (perform MAX conv (OpCall h k') w').2 ∧
              alike (perform MAX conv (OpCall h k) w).1
                (perform MAX conv (OpCall h k') w').1) as Hcall.
    { intros k' Hk. cbn [perform]. rewrite <- Hh.
      case_bool_decide; [|by split]. by apply call_alike. }
    assert (∀ g : WebAudioChannel → WebAudioChannel,
              (∀ c, inert (g c) = inert c) →
              method_of MAX k = (λ c, (g c, skip)) →
              (perform MAX conv (OpCall h k) w).2 = [] ∧
              alike (perform MAX conv (OpCall h k) w).1 w') as Hnone.
    { intros g Hg Hk. cbn [perform]. case_bool_decide; [|by split].
      unfold call. rewrite Hk.
      pose proof (alike_lookup w w' h Hw) as Hl.
      destruct (heap w !! h) as [c|] eqn:E; [|by split].
      destruct (heap w' !! h) as [c'|] eqn:E'; [|contradiction].
      unfold seq, modify, skip. cbn [fst snd app]. split; [reflexivity|].
      assert (set_heap (<[h := c']> (heap w')) w' = w') as Ew.
      { rewrite list_insert_id by exact E'. by destruct w'. }
      pose proof (alike_insert w w' h (g c) c' Hw) as Ha.
      rewrite Ew in Ha. apply Ha. by rewrite Hg. }
    destruct k; try (apply Hone, Hcall; intros c c'; apply method_alike).
    + apply (Hnone (with_loop value)); [by intros []|reflexivity].
    + apply (Hnone (with_deleteondone value)); [by intros []|reflexivity].
    + apply Hone, Hcall. intros c c' Hcc. split; [|by intros v v' Hvv; split].
      destruct c, c'. unfold inert in *. cbn in *.
      injection Hcc; intros; by subst.
    + apply (Hnone (λ c, with_oldvolume (c_volume c) (c_volume_l c)
                           (c_volume_r c) c)); [by intros []|reflexivity].
  - apply Hone. cbn [perform].
    destruct w as [hp hl m cfg pos], w' as [hp' hl' m' cfg' pos']. cbn in *.
    subst. split; [reflexivity|]. split_and!; try reflexivity. exact Hheap.
  - apply Hone. cbn [perform].
    destruct w as [hp hl m cfg pos], w' as [hp' hl' m' cfg' pos']. cbn in *.
    subst. destruct m'. split; [reflexivity|].
    split_and!; try reflexivity. exact Hheap.
  - apply Hone. cbn [perform].
    destruct w as [hp hl m cfg0 pos], w' as [hp' hl' m' cfg' pos']. cbn in *.
    subst. split; [reflexivity|]. split_and!; try reflexivity. exact Hheap.
Qed.

Lemma run_alike MAX conv ops :
  ∀ w w', alike w w' →
    (run MAX conv ops w).2 = (run MAX conv (flat_map forget ops) w').2 ∧
    alike (run MAX conv ops w).1 (run MAX conv (flat_map forget ops) w').1.
Proof.
  induction ops as [|o ops IH]; intros w w' Hw; [by split|].
  cbn [run flat_map]. rewrite run_app. cbv zeta. unfold seq. cbn [fst snd].
  destruct (perform_alike MAX conv o w w' Hw) as [P1 P2].
  destruct (IH _ _ P2) as [IH1 IH2].
  split; [by rewrite P1, IH1|exact IH2].
Qed.

(** X15. The loop count, the delete-on-done flag, the old volumes and the
    source of a channel are stored and read by their getters only.  Take any
    sequence of operations and leave out every [SetLoop], [SetDeleteOnDone]
    and [UpdateOldVolume], the arguments of every [Play] of a channel and
    the delete-on-done flag of every [Play] of the mixer: the events are
    the same, the backend receives the same commands, and the mixer and
    the other members of every channel end up the same. *)
Theorem stored_and_never_read MAX conv ops w :
  let r := run MAX conv ops w in
  let r' := run MAX conv (flat_map forget ops) w in
  r.2 = r'.2 ∧ mixer r.1 = mixer r'.1 ∧ held r.1 = held r'.1 ∧
  inert <$> heap r.1 = inert <$> heap r'.1.
Proof.
  cbv zeta.
  destruct (run_alike MAX conv ops w w (alike_refl w))
    as (Htr & Hm & Hh & _ & _ & Hheap).
  by split_and!.
Qed.

(** * The bridge and the life of a mixer *)

Lemma mixer_at_Some p this m :
  mixer_at p this = Some m ↔ mixers p !! this = Some (Some m).
Proof.
  unfold mixer_at. destruct (mixers p !! this) as [[m'|]|]; cbn; split;
    congruence.
Qed.

Lemma on_view this f p :
  let r := on this f p in
  g_WebAudioMixer r.1 = g_WebAudioMixer p ∧
  gWebAudioEndedCallback r.1 = gWebAudioEndedCallback p ∧
  length (mixers r.1) = length (mixers p) ∧
  (∀ that, that ≠ this → mixers r.1 !! that = mixers p !! that) ∧
  (is_Some (mixer_at r.1 this) ↔ is_Some (mixer_at p this)).
Proof.
  cbv zeta. unfold on.
  destruct (mixers p !! this) as [[m|]|] eqn:E; cbn [fst snd];
    try (split_and!; [reflexivity..|]; reflexivity).
  unfold store. cbn.
  split_and!; try reflexivity.
  - apply length_insert.
  - intros that Hne. by apply list_lookup_insert_ne.
  - unfold mixer_at. cbn. rewrite E.
    rewrite list_lookup_insert_eq by (by apply lookup_lt_Some in E).
    cbn. split; eauto.
Qed.

Lemma on_ok this f p : bridge_ok p → bridge_ok (on this f p).1.
Proof.
  intros [Hg Hcb].
  destruct (on_view this f p) as (E1 & E2 & E3 & E4 & E5). cbv zeta in *.
  split.
  - intros that. rewrite E1. intros Hthat.
    destruct (decide (that = this)) as [->|Hne].
    + apply E5. by apply Hg.
    + unfold mixer_at. rewrite (E4 that Hne). by apply Hg.
  - intros cb. rewrite E1, E2, E3. apply Hcb.
Qed.

Lemma new_WebAudioMixer_eq p :
  new_WebAudioMixer p =
  (mkProcess (Some (length (mixers p))) (Some Dispatch)
     (mixers p ++ [Some mixer_fields])
     (p_heap p) (p_held p) (p_config p) (p_position p),
   [WebAudioEnsureInit]).
Proof. by destruct p. Qed.

Lemma delete_WebAudioMixer_eq this p m :
  mixers p !! this = Some (Some m) →
  delete_WebAudioMixer this p =
  (let r := Close (world_of p m) in
   (mkProcess
      (if bool_decide (g_WebAudioMixer p = Some this) then None
       else g_WebAudioMixer p)
      None (<[this := None]> (mixers p))
      (heap r.1) (held r.1) (config r.1) (WebAudioGetOffsetSeconds r.1),
    MixerEvent this <$> r.2)).
Proof.
  intros E. unfold delete_WebAudioMixer, and_next, on. rewrite E.
  cbv zeta. cbn [fst snd].
  unfold SetWebAudioChannelEndedCallback, store. cbn [fst snd].
  rewrite !app_nil_r. f_equal.
  destruct p as [g cb ms hp hl cfg pos]. cbn.
  case_bool_decide; cbn; by rewrite list_insert_insert_eq.
Qed.

Lemma process_perform_ok MAX conv o p :
  bridge_ok p → bridge_ok (process_perform MAX conv o p).1.
Proof.
  intros Hp. destruct o as [|this|this|this o|channelId]; cbn [process_perform].
  - rewrite new_WebAudioMixer_eq. cbn [fst]. split; cbn.
    + intros this [= <-]. unfold mixer_at. cbn.
      rewrite list_lookup_middle by reflexivity. cbn. eauto.
    + intros _ _. rewrite length_app. cbn. f_equal. lia.
  - destruct (mixers p !! this) as [[m|]|] eqn:E.
    + rewrite (delete_WebAudioMixer_eq this p m E). cbv zeta. cbn [fst].
      destruct Hp as [Hg Hcb]. split; cbn; [|discriminate].
      intros that. case_bool_decide as Hthis; [discriminate|].
      intros Hthat. unfold mixer_at. cbn.
      rewrite list_lookup_insert_ne by congruence.
      by apply Hg.
    + unfold delete_WebAudioMixer. rewrite E. exact Hp.
    + unfold delete_WebAudioMixer. rewrite E. exact Hp.
  - unfold Init. by destruct (mixers p !! this) as [[m|]|].
  - by apply on_ok.
  - unfold WebAudioChannelEnded.
    destruct (gWebAudioEndedCallback p) as [[]|]; [|exact Hp].
    cbn [invoke]. destruct (g_WebAudioMixer p); [|exact Hp].
    by apply on_ok.
Qed.

Lemma bridge_ok_new cfg pos : bridge_ok (new_process cfg pos).
Proof. split; cbn; discriminate. Qed.

Lemma process_run_ok MAX conv ops :
  ∀ p, bridge_ok p → bridge_ok (process_run MAX conv ops p).1.
Proof.
  induction ops as [|o ops IH]; intros p Hp; [exact Hp|].
  cbn [process_run]. unfold and_next. cbn [fst].
  apply IH. by apply process_perform_ok.
Qed.

(** X16. In every state of a process, the end of a sound is never reported
    to a mixer that has been destroyed.  While no callback is installed
    [WebAudioChannelEnded] does nothing; while one is, the global pointer is
    the address of the mixer constructed last, that mixer exists, and
    [WebAudioChannelEnded] is [OnChannelEnded] on it. *)
Theorem WebAudioChannelEnded_dispatch MAX conv cfg pos ops channelId :
  let p := (process_run MAX conv ops (new_process cfg pos)).1 in
  (∀ this, g_WebAudioMixer p = Some this → is_Some (mixer_at p this)) ∧
  match gWebAudioEndedCallback p with
  | None => WebAudioChannelEnded channelId p = (p, [])
  | Some _ =>
      ∃ m, let this := pred (length (mixers p)) in
        g_WebAudioMixer p = Some this ∧
        mixer_at p this = Some m ∧
        let r := OnChannelEnded channelId (world_of p m) in
        WebAudioChannelEnded channelId p
        = (store this r.1 p, MixerEvent this <$> r.2)
  end.
Proof.
  intros p.
  pose proof (process_run_ok MAX conv ops _ (bridge_ok_new cfg pos)) as [Hg Hcb].
  fold p in Hg, Hcb. clearbody p.
  split; [exact Hg|].
  unfold WebAudioChannelEnded.
  destruct (gWebAudioEndedCallback p) as [[]|] eqn:E; [|reflexivity].
  pose proof (Hcb _ eq_refl) as Hlast.
  destruct (Hg _ Hlast) as [m Hm]. exists m. cbv zeta.
  split; [exact Hlast|]. split; [exact Hm|].
  cbn [invoke]. rewrite Hlast. unfold on.
  apply mixer_at_Some in Hm. rewrite Hm. reflexivity.
Qed.

Lemma quiet_perform MAX conv o p :
  is_NewMixer o = false → gWebAudioEndedCallback p = None →
  gWebAudioEndedCallback (process_perform MAX conv o p).1 = None.
Proof.
  intros Ho Hp. destruct o as [|this|this|this o|channelId]; [discriminate|..];
    cbn [process_perform].
  - destruct (mixers p !! this) as [[m|]|] eqn:E.
    + by rewrite (delete_WebAudioMixer_eq this p m E).
    + unfold delete_WebAudioMixer. by rewrite E.
    + unfold delete_WebAudioMixer. by rewrite E.
  - unfold Init. by destruct (mixers p !! this) as [[m|]|].
  - destruct (on_view this (perform MAX conv o) p) as (_ & E & _).
    cbv zeta in E. by rewrite E.
  - unfold WebAudioChannelEnded. by rewrite Hp.
Qed.

Lemma quiet_run MAX conv ops :
  forallb (λ o, negb (is_NewMixer o)) ops = true →
  ∀ p, gWebAudioEndedCallback p = None →
       gWebAudioEndedCallback (process_run MAX conv ops p).1 = None.
Proof.
  induction ops as [|o ops IH]; intros Hops p Hp; [exact Hp|].
  cbn [forallb] in Hops. apply andb_prop in Hops as [Ho Hops].
  cbn [process_run]. unfold and_next. cbn [fst].
  apply (IH Hops). apply quiet_perform; [|exact Hp].
  by destruct (is_NewMixer o).
Qed.

(** X17. The destructor of any mixer removes the callback, also when
    another mixer is the one the global pointer names: it stops the live
    channels of its own mixer, leaves the other mixers as they are, and
    clears the global pointer only if that names the destroyed mixer.  From
    then on, until a mixer is constructed, [WebAudioChannelEnded] does
    nothing whatever the application does with the mixers that are left. *)
Theorem destructor_removes_callback MAX conv p this m ops channelId :
  mixer_at p this = Some m →
  forallb (λ o, negb (is_NewMixer o)) ops = true →
  let d := delete_WebAudioMixer this p in
  let p' := (process_run MAX conv ops d.1).1 in
  d.2 = MixerEvent this <$> (Close (world_of p m)).2 ∧
  mixer_at d.1 this = None ∧
  (∀ that, that ≠ this → mixer_at d.1 that = mixer_at p that) ∧
  g_WebAudioMixer d.1
  = (if bool_decide (g_WebAudioMixer p = Some this) then None
     else g_WebAudioMixer p) ∧
  gWebAudioEndedCallback p' = None ∧
  WebAudioChannelEnded channelId p' = (p', []).
Proof.
  intros Hm Hops. cbv zeta. apply mixer_at_Some in Hm.
  rewrite (delete_WebAudioMixer_eq this p m Hm). cbv zeta. cbn [fst snd].
  set (d := mkProcess _ _ _ _ _ _ _).
  assert (gWebAudioEndedCallback (process_run MAX conv ops d).1 = None) as Hq.
  { by apply quiet_run. }
  split_and!.
  - reflexivity.
  - unfold mixer_at. subst d. cbn.
    rewrite list_lookup_insert_eq by (by apply lookup_lt_Some in Hm).
    reflexivity.
  - intros that Hne. unfold mixer_at. subst d. cbn.
    by rewrite list_lookup_insert_ne.
  - reflexivity.
  - exact Hq.
  - unfold WebAudioChannelEnded. by rewrite Hq.
Qed.

Lemma destructor_removes_callback_witness :
  let p := (process_run 128 no_conversion [NewMixer; NewMixer]
              (new_process sample_config (λ _, 0%R))).1 in
  let d := delete_WebAudioMixer 0%nat p in
  g_WebAudioMixer d.1 = Some 1%nat ∧
  gWebAudioEndedCallback d.1 = None ∧
  WebAudioChannelEnded 1 d.1 = (d.1, []).
Proof.
  cbv zeta.
  destruct (destructor_removes_callback 128 no_conversion
              (process_run 128 no_conversion [NewMixer; NewMixer]
                 (new_process sample_config (λ _, 0%R))).1
              0%nat mixer_fields [] 1 eq_refl eq_refl)
    as (_ & _ & _ & Hg & Hcb & Hended).
  split; [exact Hg|]. split; [exact Hcb|exact Hended].
Defined.
